(** * A-Shot Picker: the ranking and clustering core of [app.js]

    A shallow embedding of the Elo rating store, the Swiss pairing
    scheduler, the confidence estimator, the fingerprint distance and the
    chain clustering of [src/app.js], with the properties of the
    specification stated and proved over it.

    Conventions of the embedding.
    - A JavaScript number that holds a rating, a ratio or a distance is a
      real ([R]); [Math.pow] is [Rpower], [Math.sqrt] is [sqrt].  The two
      non-finite values the code can produce ([Infinity] and [NaN] in
      [fingerprintDistance]) are constructors of [JsNum].
    - A JavaScript number that only ever counts (comparison counts, array
      lengths, [targetCount], [comparisonsCompleted]) is an integer ([Z] or
      [nat]); sums of squared byte differences are integers too.
    - The objects of [state.candidates] are mutable and shared with
      [state.currentPair]: the array is the store and an object reference is
      a position in it.  [Array.prototype.find] is [list_find], which
      returns that position together with the object.
    - [Math.random] is an explicit [Oracle]; a sort with the random
      comparator [() => Math.random() - 0.5] is a function of the oracle,
      assumed only to rearrange its input ([OracleOk]).
    - [Array.prototype.sort] with a consistent comparator is the stable
      insertion sort [js_sort]: the stable order is unique, so every stable
      algorithm computes it.
    - An [async] function runs to its end without another event handler in
      between; DOM updates, timers, persistence and notifications are not
      modelled. *)

From Stdlib Require Import Reals Lra Lia ZArith.
From Stdlib.Strings Require Import Byte.
From stdpp Require Import base option list strings gmap sorting.

Local Open Scope Z_scope.

(** ** JavaScript values *)

(** [x || 0] on a counter that may be [undefined]. *)
Definition orZero (c : option Z) : Z := default 0 c.

(** [x < y] on numbers, as a boolean. *)
Definition Rltb (x y : R) : bool := if Rlt_dec x y then true else false.

(** [x <= y] on numbers, as a boolean. *)
Definition Rleb (x y : R) : bool := if Rle_dec x y then true else false.

(** [Math.round]: the nearest integer, halves towards plus infinity. *)
Definition Math_round (x : R) : Z := Zfloor (x + / 2).

(** A number that may be [Infinity] or [NaN]. *)
Inductive JsNum : Type :=
| Num (r : R)
| PosInf
| NaN.

(** [d <= t] for a finite [t]: false on [Infinity] and on [NaN]. *)
Definition jsLe (d : JsNum) (t : R) : bool :=
  match d with
  | Num r => Rleb r t
  | PosInf | NaN => false
  end.

(** [d < t] for a finite [t], as a proposition. *)
Definition jsLt (d : JsNum) (t : R) : Prop :=
  match d with
  | Num r => (r < t)%R
  | PosInf | NaN => False
  end.

(** [arr.slice(-k)]: the last [k] elements. *)
Definition slice_last {A} (k : nat) (l : list A) : list A :=
  drop (length l - k)%nat l.

(** [Array.prototype.sort] with comparator [cmp]: [x] moves behind [y] only
    when [cmp x y > 0]. *)
Fixpoint js_insert {A} (cmp : A → A → R) (x : A) (l : list A) : list A :=
  match l with
  | [] => [x]
  | y :: l' => if Rltb 0 (cmp x y) then y :: js_insert cmp x l' else x :: l
  end.

Definition js_sort {A} (cmp : A → A → R) (l : list A) : list A :=
  foldr (js_insert cmp) [] l.

(** [x] may stand before [y]: the comparator does not ask for a swap. *)
Definition mayPrecede {A} (cmp : A → A → R) (x y : A) : Prop :=
  (cmp x y <= 0)%R.

(** ** Data model *)

Module Photo.
Record t : Type := mk {
  id : string;
  elo : R;
  comparisons : option Z
}.

Definition set_elo (e : R) (p : t) : t :=
  {| id := id p; elo := e; comparisons := comparisons p |}.

Definition set_comparisons (c : option Z) (p : t) : t :=
  {| id := id p; elo := elo p; comparisons := c |}.
End Photo.

(** The [winner] field of a history entry: an id, [undefined] (confirmed with
    an empty selection) or [null] (a tie). *)
Inductive Winner : Type :=
| WinnerId (w : string)
| WinnerUndefined
| WinnerNull.

Module Comparison.
Record t : Type := mk {
  a : string;
  b : string;
  winner : Winner;
  prevEloA : R;
  prevEloB : R;
  prevCompA : option Z;
  prevCompB : option Z
}.
End Comparison.

(** ** Elo rating system *)

Definition ELO_K : R := 32.
Definition ELO_DEFAULT : R := 1500.

Definition expectedScore (ratingA ratingB : R) : R :=
  (1 / (1 + Rpower 10 ((ratingB - ratingA) / 400)))%R.

(** [p.comparisons = (p.comparisons || 0) + 1] *)
Definition bumpComparisons (p : Photo.t) : Photo.t :=
  Photo.set_comparisons (Some (orZero (Photo.comparisons p) + 1)) p.

(** [p.elo += d] *)
Definition addElo (d : R) (p : Photo.t) : Photo.t :=
  Photo.set_elo (Photo.elo p + d)%R p.

(** [updateEloRatings(winner, loser)] on two references into the store.
    [None] is the TypeError of reading [.elo] off [undefined]. *)
Definition updateEloRatings (winner loser : nat) (h : list Photo.t)
  : option (list Photo.t) :=
  w ← h !! winner;
  l ← h !! loser;
  let expectedWin := expectedScore (Photo.elo w) (Photo.elo l) in
  let expectedLose := expectedScore (Photo.elo l) (Photo.elo w) in
  let h := alter (addElo (ELO_K * (1 - expectedWin))) winner h in
  let h := alter (addElo (ELO_K * (0 - expectedLose))) loser h in
  let h := alter bumpComparisons winner h in
  let h := alter bumpComparisons loser h in
  Some h.

(** [updateEloTie(photoA, photoB)] *)
Definition updateEloTie (photoA photoB : nat) (h : list Photo.t)
  : option (list Photo.t) :=
  pa ← h !! photoA;
  pb ← h !! photoB;
  let expectedA := expectedScore (Photo.elo pa) (Photo.elo pb) in
  let expectedB := expectedScore (Photo.elo pb) (Photo.elo pa) in
  let h := alter (addElo (ELO_K * (1 / 2 - expectedA))) photoA h in
  let h := alter (addElo (ELO_K * (1 / 2 - expectedB))) photoB h in
  let h := alter bumpComparisons photoA h in
  let h := alter bumpComparisons photoB h in
  Some h.

(** ** Application state *)

(** A reference to a candidate object, or [undefined]. *)
Abbreviation Ref := (option nat).

(** The fields of [state] the ranking and clustering code reads or writes,
    and the module-level [previousTopNSets]. *)
Record State : Type := mkState {
  allPhotos : list Photo.t;
  candidates : list Photo.t;
  targetCount : Z;
  clusters : list (list Photo.t);
  clusterFingerprints : gmap string (list byte);
  clusterThreshold : R;
  comparisonHistory : list Comparison.t;
  comparisonsCompleted : Z;
  currentPair : option (Ref * Ref);
  currentSelection : list string;
  previousTopNSets : list (gset string)
}.

Definition set_candidates (v : list Photo.t) (st : State) : State :=
  mkState (allPhotos st) v (targetCount st) (clusters st)
    (clusterFingerprints st) (clusterThreshold st) (comparisonHistory st)
    (comparisonsCompleted st) (currentPair st) (currentSelection st)
    (previousTopNSets st).

Definition set_clusters (v : list (list Photo.t)) (st : State) : State :=
  mkState (allPhotos st) (candidates st) (targetCount st) v
    (clusterFingerprints st) (clusterThreshold st) (comparisonHistory st)
    (comparisonsCompleted st) (currentPair st) (currentSelection st)
    (previousTopNSets st).

Definition set_clusterFingerprints (v : gmap string (list byte)) (st : State)
  : State :=
  mkState (allPhotos st) (candidates st) (targetCount st) (clusters st)
    v (clusterThreshold st) (comparisonHistory st)
    (comparisonsCompleted st) (currentPair st) (currentSelection st)
    (previousTopNSets st).

Definition set_comparisonHistory (v : list Comparison.t) (st : State) : State :=
  mkState (allPhotos st) (candidates st) (targetCount st) (clusters st)
    (clusterFingerprints st) (clusterThreshold st) v
    (comparisonsCompleted st) (currentPair st) (currentSelection st)
    (previousTopNSets st).

Definition set_comparisonsCompleted (v : Z) (st : State) : State :=
  mkState (allPhotos st) (candidates st) (targetCount st) (clusters st)
    (clusterFingerprints st) (clusterThreshold st) (comparisonHistory st)
    v (currentPair st) (currentSelection st) (previousTopNSets st).

Definition set_currentPair (v : option (Ref * Ref)) (st : State) : State :=
  mkState (allPhotos st) (candidates st) (targetCount st) (clusters st)
    (clusterFingerprints st) (clusterThreshold st) (comparisonHistory st)
    (comparisonsCompleted st) v (currentSelection st) (previousTopNSets st).

Definition set_currentSelection (v : list string) (st : State) : State :=
  mkState (allPhotos st) (candidates st) (targetCount st) (clusters st)
    (clusterFingerprints st) (clusterThreshold st) (comparisonHistory st)
    (comparisonsCompleted st) (currentPair st) v (previousTopNSets st).

Definition set_previousTopNSets (v : list (gset string)) (st : State) : State :=
  mkState (allPhotos st) (candidates st) (targetCount st) (clusters st)
    (clusterFingerprints st) (clusterThreshold st) (comparisonHistory st)
    (comparisonsCompleted st) (currentPair st) (currentSelection st) v.

(** ** Swiss-system pairing *)

(** A candidate reference together with the object it points to. *)
Abbreviation Entry := (nat * Photo.t)%type.

(** [[...state.candidates]] *)
Definition entries (cands : list Photo.t) : list Entry := imap pair cands.

(** The outcomes of [Math.random] in one call of [getNextPair]: the two sorts
    with the random comparator and the factor of the start offset. *)
Record Oracle : Type := mkOracle {
  shuffleUnder : list Entry → list Entry;
  randomBelow : nat → nat;
  shuffleAll : list Entry → list Entry
}.

(** A sort rearranges the elements of its array, whatever the comparator. *)
Definition OracleOk (o : Oracle) : Prop :=
  (∀ l, shuffleUnder o l ≡ₚ l) ∧ (∀ l, shuffleAll o l ≡ₚ l).

(** The comparator of [sortedByComparisons]. *)
Definition cmpComparisons (x y : Photo.t) : R :=
  let compDiff := orZero (Photo.comparisons x) - orZero (Photo.comparisons y) in
  if bool_decide (compDiff ≠ 0) then IZR compDiff
  else (Photo.elo y - Photo.elo x)%R.

(** The comparator of [sortedByElo]. *)
Definition cmpElo (x y : Photo.t) : R := (Photo.elo y - Photo.elo x)%R.

(** [history.slice(-k).some(h => (h.a === a.id && h.b === b.id) ||
    (h.a === b.id && h.b === a.id))] *)
Definition recentlyCompared (k : nat) (history : list Comparison.t)
    (x y : Entry) : bool :=
  existsb (λ h,
      (String.eqb (Comparison.a h) (Photo.id x.2)
         && String.eqb (Comparison.b h) (Photo.id y.2))
      || (String.eqb (Comparison.a h) (Photo.id y.2)
            && String.eqb (Comparison.b h) (Photo.id x.2)))
    (slice_last k history).

(** The inner loop over [j > i]: the first partner of [x] in [rest] that was
    not compared with it recently. *)
Fixpoint firstFreshPartner (history : list Comparison.t) (x : Entry)
    (rest : list Entry) : option (Entry * Entry) :=
  match rest with
  | [] => None
  | y :: rest' =>
      if negb (recentlyCompared 10 history x y) then Some (x, y)
      else firstFreshPartner history x rest'
  end.

(** The nested loops over [i < j] of the under-compared branch. *)
Fixpoint firstFreshPair (history : list Comparison.t) (shuffled : list Entry)
  : option (Entry * Entry) :=
  match shuffled with
  | [] => None
  | x :: rest =>
      match firstFreshPartner history x rest with
      | Some p => Some p
      | None => firstFreshPair history rest
      end
  end.

(** The loop of the classic Swiss fallback over the values [ks] of [i]:
    [idx = (i + startOffset) % (sortedByElo.length - 1)].  Both reads are in
    range, [idx] being below [length - 1]; the last branch is never taken. *)
Fixpoint swissScan (history : list Comparison.t) (sortedByElo : list Entry)
    (startOffset : nat) (ks : list nat) : option (Entry * Entry) :=
  match ks with
  | [] => None
  | i :: ks' =>
      let idx := ((i + startOffset) `mod` (length sortedByElo - 1))%nat in
      match sortedByElo !! idx, sortedByElo !! S idx with
      | Some x, Some y =>
          if negb (recentlyCompared 15 history x y) then Some (x, y)
          else swissScan history sortedByElo startOffset ks'
      | _, _ => swissScan history sortedByElo startOffset ks'
      end
  end.

(** [sortedByComparisons]: fewest comparisons first, then highest rating. *)
Definition sortedByComparisons (st : State) : list Entry :=
  js_sort (λ x y, cmpComparisons x.2 y.2) (entries (candidates st)).

(** [underCompared]: the candidates within one comparison of the minimum. *)
Definition underCompared (st : State) : list Entry :=
  let minComparisons :=
    orZero (head (sortedByComparisons st) ≫= λ x, Photo.comparisons x.2) in
  filter (λ x, orZero (Photo.comparisons x.2) ≤ minComparisons + 1)
    (sortedByComparisons st).

(** [getNextPair()]: [None] is [null]; a returned array holds two object
    references, each of which is [undefined] when read past the end. *)
Definition getNextPair (o : Oracle) (st : State)
  : option (option Entry * option Entry) :=
  let cands := entries (candidates st) in
  if bool_decide (length cands < 2)%nat then None else
  let fresh :=
    if bool_decide (2 ≤ length (underCompared st))%nat
    then firstFreshPair (comparisonHistory st)
           (shuffleUnder o (underCompared st))
    else None in
  match fresh with
  | Some (x, y) => Some (Some x, Some y)
  | None =>
      let sortedByElo := js_sort (λ x y, cmpElo x.2 y.2) cands in
      let startOffset := randomBelow o (length sortedByElo - 1)%nat in
      match swissScan (comparisonHistory st) sortedByElo startOffset
              (seq 0 (length sortedByElo - 1)) with
      | Some (x, y) => Some (Some x, Some y)
      | None =>
          let shuffledAll := shuffleAll o cands in
          Some (shuffledAll !! 0%nat, shuffledAll !! 1%nat)
      end
  end.

(** A pair of two different objects of the pool [cands], with different ids
    when the ids of the pool are unique. *)
Definition pairOfPool (cands : list Photo.t)
    (r : option Entry * option Entry) : Prop :=
  ∃ i j pi pj, r = (Some (i, pi), Some (j, pj)) ∧ i ≠ j ∧
    cands !! i = Some pi ∧ cands !! j = Some pj ∧
    (NoDup (Photo.id <$> cands) → Photo.id pi ≠ Photo.id pj).

(** ** Confidence *)

(** The test in the stability loop: equal sizes and every id of [currSet] in
    [prevSet]. *)
Definition identical (prevSet currSet : gset string) : bool :=
  if bool_decide (size prevSet ≠ size currSet) then false
  else forallb (λ i, bool_decide (i ∈ prevSet)) (elements currSet).

(** The stability loop over [i = 1 .. length - 1]. *)
Fixpoint stableCount (sets : list (gset string)) : nat :=
  match sets with
  | prevSet :: (currSet :: _) as rest =>
      ((if identical prevSet currSet then 1 else 0) + stableCount rest)%nat
  | _ => 0%nat
  end.

(** [new Set(sortedByElo.slice(0, targetN).map(p => p.id))] *)
Definition currentTopNIds (st : State) : gset string :=
  let n := length (candidates st) in
  let targetN := Z.min (targetCount st) (Z.of_nat n) in
  let sortedByElo := js_sort cmpElo (candidates st) in
  list_to_set (Photo.id <$> take (Z.to_nat targetN) sortedByElo).

(** [previousTopNSets.push(s)] followed by the [shift()] beyond ten. *)
Definition pushSnapshot (s : gset string) (sets : list (gset string))
  : list (gset string) :=
  let sets := sets ++ [s] in
  if bool_decide (10 < length sets)%nat then drop 1 sets else sets.

(** [calculateConfidence()]: the value returned and the state it leaves. *)
Definition calculateConfidence (st : State) : Z * State :=
  let n := length (candidates st) in
  let targetN := Z.min (targetCount st) (Z.of_nat n) in
  if bool_decide (targetN < 2) || bool_decide (comparisonsCompleted st < 2)
  then (0, st) else
  let sets := pushSnapshot (currentTopNIds st) (previousTopNSets st) in
  let st := set_previousTopNSets sets st in
  if bool_decide (length sets < 3)%nat
  then (Z.min 20 (comparisonsCompleted st * 5), st) else
  let stabilityRatio := (INR (stableCount sets) / INR (length sets - 1))%R in
  let comparedCount :=
    length (filter (λ p, 1 ≤ orZero (Photo.comparisons p)) (candidates st)) in
  let coverageRatio := (INR comparedCount / INR n)%R in
  let baseConfidence := (coverageRatio * 30)%R in
  let stabilityConfidence := (stabilityRatio * 70)%R in
  let confidence := (baseConfidence + stabilityConfidence)%R in
  (Z.min 100 (Math_round confidence), st).

(** The guard of [calculateConfidence]: too few ranked slots or too few
    comparisons. *)
Definition tooEarly (st : State) : Prop :=
  Z.min (targetCount st) (Z.of_nat (length (candidates st))) < 2 ∨
  comparisonsCompleted st < 2.

(** The histories [previousTopNSets] can hold: empty at load time and after
    the reset of [startRankingPhase], then changed by [calculateConfidence]
    only. *)
Inductive ReachableSets : list (gset string) → Prop :=
| reach_reset : ReachableSets []
| reach_call (st : State) :
    ReachableSets (previousTopNSets st) →
    ReachableSets (previousTopNSets (calculateConfidence st).2).

(** ** The ranking loop *)

(** [finishRanking()]: sorts [state.candidates] in place. *)
Definition finishRanking (st : State) : State :=
  set_candidates (js_sort cmpElo (candidates st)) st.

(** [showNextComparison()]: the next pair, or the end of the ranking. *)
Definition showNextComparison (o : Oracle) (st : State) : State :=
  match getNextPair o st with
  | None => finishRanking st
  | Some (x, y) =>
      let st := set_currentPair (Some (fst <$> x, fst <$> y)) st in
      let st := set_currentSelection [] st in
      (calculateConfidence st).2
  end.

(** The history entry of a pair: its ids, the winner and the values of
    [elo] and [comparisons] before the update. *)
Definition recordOf (photoA photoB : Photo.t) (w : Winner) : Comparison.t :=
  Comparison.mk (Photo.id photoA) (Photo.id photoB) w
    (Photo.elo photoA) (Photo.elo photoB)
    (Photo.comparisons photoA) (Photo.comparisons photoB).

(** [state.comparisonHistory.push({...})] *)
Definition pushHistory (photoA photoB : Photo.t) (w : Winner) (st : State)
  : State :=
  set_comparisonHistory (comparisonHistory st ++ [recordOf photoA photoB w]) st.

(** [confirmComparison()]. [None] is the TypeError of destructuring a
    [null] pair or reading [.id] off [undefined]. *)
Definition confirmComparison (o : Oracle) (st : State) : option State :=
  match currentPair st with
  | Some (Some refA, Some refB) =>
      photoA ← candidates st !! refA;
      photoB ← candidates st !! refB;
      let winnerId := head (currentSelection st) in
      let st :=
        pushHistory photoA photoB
          (from_option WinnerId WinnerUndefined winnerId) st in
      let winner :=
        list_find (λ p, Some (Photo.id p) = winnerId) (candidates st) in
      let loser :=
        list_find (λ p, Some (Photo.id p) ≠ winnerId ∧
                        (Photo.id p = Photo.id photoA ∨
                         Photo.id p = Photo.id photoB)) (candidates st) in
      st ← match winner, loser with
           | Some (w, _), Some (l, _) =>
               flip set_candidates st <$> updateEloRatings w l (candidates st)
           | _, _ => Some st
           end;
      let st := set_comparisonsCompleted (comparisonsCompleted st + 1) st in
      Some (showNextComparison o st)
  | _ => None
  end.

(** [skipComparison()]: the pair is recorded and rated as a tie. *)
Definition skipComparison (o : Oracle) (st : State) : option State :=
  match currentPair st with
  | Some (Some refA, Some refB) =>
      photoA ← candidates st !! refA;
      photoB ← candidates st !! refB;
      let st := pushHistory photoA photoB WinnerNull st in
      cands ← updateEloTie refA refB (candidates st);
      let st := set_candidates cands st in
      let st := set_comparisonsCompleted (comparisonsCompleted st + 1) st in
      Some (showNextComparison o st)
  | _ => None
  end.

(** [photo.elo = e; photo.comparisons = c] on the object found, if any. *)
Definition restorePhoto (found : option (nat * Photo.t)) (e : R)
    (c : option Z) (h : list Photo.t) : list Photo.t :=
  match found with
  | Some (i, _) => alter (λ p, Photo.set_comparisons c (Photo.set_elo e p)) i h
  | None => h
  end.

(** [undoComparison()] *)
Definition undoComparison (o : Oracle) (st : State) : State :=
  match last (comparisonHistory st) with
  | None => st
  | Some lastComparison =>
      let st :=
        set_comparisonHistory
          (take (length (comparisonHistory st) - 1) (comparisonHistory st))
          st in
      let photoA :=
        list_find (λ p, Photo.id p = Comparison.a lastComparison)
          (candidates st) in
      let photoB :=
        list_find (λ p, Photo.id p = Comparison.b lastComparison)
          (candidates st) in
      let cands :=
        restorePhoto photoA (Comparison.prevEloA lastComparison)
          (Comparison.prevCompA lastComparison) (candidates st) in
      let cands :=
        restorePhoto photoB (Comparison.prevEloB lastComparison)
          (Comparison.prevCompB lastComparison) cands in
      let st := set_candidates cands st in
      let st := set_comparisonsCompleted (comparisonsCompleted st - 1) st in
      showNextComparison o st
  end.

(** ** Fingerprints and clusters *)

Definition byteVal (x : byte) : Z := Z.of_N (Byte.to_N x).

(** The accumulation loop of [fingerprintDistance]; both arrays have the same
    length when it runs. *)
Definition sumSquaredDiffs (fp1 fp2 : list byte) : Z :=
  foldl (λ sum xy, let diff := byteVal xy.1 - byteVal xy.2 in sum + diff * diff)
    0 (zip fp1 fp2).

(** [fingerprintDistance(fp1, fp2)]; [None] is a missing fingerprint ([null]
    or [undefined]).  On two empty arrays the quotient is [0 / 0]. *)
Definition fingerprintDistance (fp1 fp2 : option (list byte)) : JsNum :=
  match fp1, fp2 with
  | Some f1, Some f2 =>
      if bool_decide (length f1 ≠ length f2) then PosInf
      else if bool_decide (length f1 = 0%nat) then NaN
      else Num (sqrt (IZR (sumSquaredDiffs f1 f2) / INR (length f1)))
  | _, _ => PosInf
  end.

(** Following the specification: the squared differences position by
    position, their mean, and the root of the mean. *)
Definition squaredDiffs (fp1 fp2 : list byte) : list R :=
  zip_with (λ x y, ((IZR (byteVal x) - IZR (byteVal y)) ^ 2)%R) fp1 fp2.

Definition mean (l : list R) : R := (foldr Rplus 0 l / INR (length l))%R.

Definition rmsSpec (fp1 fp2 : list byte) : R :=
  sqrt (mean (squaredDiffs fp1 fp2)).

Section Clustering.

(** The decoder and downsampler behind [computeImageFingerprint]; [None] is
    a rejected promise. *)
Variable computeImageFingerprint : Photo.t → option (list byte).

(** [createFingerprint(photo)]: cached, or computed and cached, or [null]. *)
Definition createFingerprint (photo : Photo.t) (st : State)
  : option (list byte) * State :=
  match clusterFingerprints st !! Photo.id photo with
  | Some fp => (Some fp, st)
  | None =>
      match computeImageFingerprint photo with
      | Some fp =>
          (Some fp,
           set_clusterFingerprints
             (<[Photo.id photo := fp]> (clusterFingerprints st)) st)
      | None => (None, st)
      end
  end.

(** The loop of [buildClusters] over [photos[1..]]. *)
Fixpoint buildLoop (photos : list Photo.t) (clusters : list (list Photo.t))
    (currentCluster : list Photo.t) (prevFp : option (list byte)) (st : State)
  : list (list Photo.t) * list Photo.t * State :=
  match photos with
  | [] => (clusters, currentCluster, st)
  | photo :: rest =>
      let '(currFp, st) := createFingerprint photo st in
      let distance := fingerprintDistance prevFp currFp in
      if jsLe distance (clusterThreshold st)
      then buildLoop rest clusters (currentCluster ++ [photo]) currFp st
      else buildLoop rest (clusters ++ [currentCluster]) [photo] currFp st
  end.

(** [buildClusters()] *)
Definition buildClusters (st : State) : State :=
  match allPhotos st with
  | [] => st
  | first :: rest =>
      let '(prevFp, st) := createFingerprint first st in
      let '(clusters, currentCluster, st) :=
        buildLoop rest [] [first] prevFp st in
      let clusters :=
        if bool_decide (0 < length currentCluster)%nat
        then clusters ++ [currentCluster] else clusters in
      set_clusters clusters st
  end.

End Clustering.

(** The loop of [recluster] over [photos[1..]]; [prev] is [photos[i - 1]]. *)
Fixpoint reclusterLoop (fps : gmap string (list byte)) (threshold : R)
    (prev : Photo.t) (photos : list Photo.t) (clusters : list (list Photo.t))
    (currentCluster : list Photo.t)
  : list (list Photo.t) * list Photo.t :=
  match photos with
  | [] => (clusters, currentCluster)
  | photo :: rest =>
      let prevFp := fps !! Photo.id prev in
      let currFp := fps !! Photo.id photo in
      let distance := fingerprintDistance prevFp currFp in
      if jsLe distance threshold
      then reclusterLoop fps threshold photo rest clusters
             (currentCluster ++ [photo])
      else reclusterLoop fps threshold photo rest
             (clusters ++ [currentCluster]) [photo]
  end.

(** [recluster()]: the clusters rebuilt from the cached fingerprints. *)
Definition recluster (st : State) : State :=
  match allPhotos st with
  | [] => st
  | first :: rest =>
      let '(clusters, currentCluster) :=
        reclusterLoop (clusterFingerprints st) (clusterThreshold st)
          first rest [] [first] in
      let clusters :=
        if bool_decide (0 < length currentCluster)%nat
        then clusters ++ [currentCluster] else clusters in
      set_clusters clusters st
  end.

(** The fingerprint of [photo] is cached or can be computed. *)
Definition available (extract : Photo.t → option (list byte)) (st : State)
    (photo : Photo.t) : Prop :=
  is_Some (clusterFingerprints st !! Photo.id photo) ∨ is_Some (extract photo).

(** The edge policy of the threshold for the clusters [result] of [photos]
    under the fingerprints [fps]: every photo has a fingerprint; at threshold
    0 with pairwise distinct fingerprints every photo is a cluster of its
    own; at a threshold above the distance of every two consecutive photos
    all photos are one cluster. *)
Definition edgePolicy (photos : list Photo.t) (threshold : R)
    (fps : gmap string (list byte)) (result : list (list Photo.t)) : Prop :=
  let fpOf := λ p, fps !! Photo.id p in
  Forall (λ p, is_Some (fpOf p)) photos ∧
  (threshold = 0%R → NoDup (fpOf <$> photos) →
     result = (λ p, [p]) <$> photos) ∧
  ((∀ i p q, photos !! i = Some p → photos !! S i = Some q →
      jsLt (fingerprintDistance (fpOf p) (fpOf q)) threshold) →
     result = [photos]).

(** The position in the input at which cluster [k] starts. *)
Definition clusterStart (clusters : list (list Photo.t)) (k : nat) : nat :=
  length (concat (take k clusters)).

(** Cluster [k] holds position [i] of the input. *)
Definition covers (clusters : list (list Photo.t)) (k i : nat) : Prop :=
  ∃ c, clusters !! k = Some c ∧
    (clusterStart clusters k ≤ i < clusterStart clusters k + length c)%nat.

(** An ordered partition of [photos]: clusters that are not empty, that are
    runs of consecutive photos, whose concatenation is the input, and every
    position of the input in exactly one of them. *)
Definition orderedPartition (photos : list Photo.t)
    (clusters : list (list Photo.t)) : Prop :=
  Forall (λ c, c ≠ []) clusters ∧
  concat clusters = photos ∧
  (∀ k c, clusters !! k = Some c →
     c = take (length c) (drop (clusterStart clusters k) photos)) ∧
  (∀ i, (i < length photos)%nat →
     ∃ k, covers clusters k i ∧ ∀ k', covers clusters k' i → k' = k).

(** ** A session of three candidates *)

Definition photoA : Photo.t := Photo.mk "photo-0" ELO_DEFAULT (Some 0).
Definition photoB : Photo.t := Photo.mk "photo-1" ELO_DEFAULT (Some 0).
Definition photoC : Photo.t := Photo.mk "photo-2" ELO_DEFAULT (Some 0).

(** The state [startRankingPhase] leaves for the candidates [cands], before
    the first pair is drawn. *)
Definition freshRanking (cands : list Photo.t) : State :=
  mkState cands cands 25 [] ∅ 15 [] 0 None [] [].

(** The oracle whose sorts leave the array as it is and whose
    [Math.random()] is 0. *)
Definition stillOracle : Oracle := mkOracle (λ l, l) (λ _, 0%nat) (λ l, l).

(** The state in which A and B are on screen and A is selected. *)
Definition pairOnScreen (refA refB : nat) (selected : list string)
    (st : State) : State :=
  set_currentSelection selected
    (set_currentPair (Some (Some refA, Some refB)) st).

(** A and B after A has beaten B. *)
Definition photoA_won : Photo.t := Photo.mk "photo-0" 1516 (Some 1).
Definition photoB_lost : Photo.t := Photo.mk "photo-1" 1484 (Some 1).

(** The pair holds C and one of A and B. *)
Definition includesC (x y : Entry) : Prop :=
  (x = (2%nat, photoC) ∧
   (y = (0%nat, photoA_won) ∨ y = (1%nat, photoB_lost))) ∨
  (y = (2%nat, photoC) ∧
   (x = (0%nat, photoA_won) ∨ x = (1%nat, photoB_lost))).

(** A clustering session of two photos, one black and one white, whose
    fingerprints are cached. *)
Definition blackFp : list byte := replicate 64 "000"%byte.
Definition whiteFp : list byte := replicate 64 "255"%byte.

Definition twoPhotos (threshold : R) : State :=
  mkState [photoA; photoB] [] 25 []
    (<["photo-0" := blackFp]> (<["photo-1" := whiteFp]> ∅))
    threshold [] 0 None [] [].

(** The session of three candidates after two comparisons were completed. *)
Definition twoCompleted : State :=
  set_comparisonsCompleted 2 (freshRanking [photoA; photoB; photoC]).

(** ** Selecting the winner *)

(** [toggleRankingSelection(photoId)] on the insertion-ordered
    [state.currentSelection]: a selected id is deselected, any other id
    becomes the only selected one. *)
Definition toggleRankingSelection (photoId : string) (st : State) : State :=
  if bool_decide (photoId ∈ currentSelection st)
  then set_currentSelection
         (filter (λ i, i ≠ photoId) (currentSelection st)) st
  else set_currentSelection [photoId] st.

(** ** Results *)

(** [arr.slice(0, end)]: a negative [end] counts from the end of the array. *)
Definition slice_to {A} (end_ : Z) (l : list A) : list A :=
  if bool_decide (end_ < 0)
  then take (length l - Z.to_nat (- end_)) l
  else take (Z.to_nat end_) l.

(** [showResults()]: the photos it stores in [state.finalSelection]. *)
Definition showResults (st : State) : list Photo.t :=
  slice_to (targetCount st) (candidates st).

(** [openTopRankedPreview()]: the photos [topN] it renders. *)
Definition openTopRankedPreview (st : State) : list Photo.t :=
  let sorted := js_sort cmpElo (candidates st) in
  slice_to (targetCount st) sorted.

(** A and B of three candidates on screen, with A and with B selected. *)
Definition pairASelected : State :=
  pairOnScreen 0 1 ["photo-0"] (freshRanking [photoA; photoB; photoC]).

Definition pairBSelected : State :=
  pairOnScreen 0 1 ["photo-1"] (freshRanking [photoA; photoB; photoC]).

(** The session of three candidates after two comparisons, with two
    snapshots of the current top-N set already held. *)
Definition stableSession : State :=
  set_previousTopNSets
    [currentTopNIds twoCompleted; currentTopNIds twoCompleted] twoCompleted.

(** ** The chain rule seen from its comparisons *)

(** The fingerprints [buildClusters] obtains from [createFingerprint], photo
    by photo, each call working on the cache the calls before it left. *)
Fixpoint fingerprintsSeen (extract : Photo.t → option (list byte))
    (photos : list Photo.t) (st : State) : list (option (list byte)) :=
  match photos with
  | [] => []
  | photo :: rest =>
      let '(fp, st) := createFingerprint extract photo st in
      fp :: fingerprintsSeen extract rest st
  end.

(** The outcomes [distance <= threshold] of the comparisons of a run over
    the fingerprints [fps], one for every photo but the first. *)
Definition joinsOf (threshold : R) (fps : list (option (list byte)))
  : list bool :=
  zip_with (λ prevFp currFp, jsLe (fingerprintDistance prevFp currFp) threshold)
    fps (tail fps).

(** The loop of the chain rule, given the outcomes of its comparisons. *)
Fixpoint chainLoop (joins : list bool) (photos : list Photo.t)
    (clusters : list (list Photo.t)) (currentCluster : list Photo.t)
  : list (list Photo.t) * list Photo.t :=
  match photos, joins with
  | photo :: rest, join :: joins' =>
      if join
      then chainLoop joins' rest clusters (currentCluster ++ [photo])
      else chainLoop joins' rest (clusters ++ [currentCluster]) [photo]
  | _, _ => (clusters, currentCluster)
  end.

(** The positions at which the clusters start, the first one at [off]. *)
Fixpoint startsFrom (off : nat) (clusters : list (list Photo.t)) : list nat :=
  match clusters with
  | [] => []
  | c :: clusters' => off :: startsFrom (off + length c) clusters'
  end.

(** The positions, counted from [off], of the comparisons that failed. *)
Fixpoint breaksFrom (off : nat) (joins : list bool) : list nat :=
  match joins with
  | [] => []
  | join :: joins' =>
      (if join then [] else [off]) ++ breaksFrom (S off) joins'
  end.

(** Position [i] of the input is the first of a cluster. *)
Definition isClusterStart (clusters : list (list Photo.t)) (i : nat) : Prop :=
  ∃ k c, clusters !! k = Some c ∧ clusterStart clusters k = i.

(** ** The threshold slider *)

Definition set_clusterThreshold (v : R) (st : State) : State :=
  mkState (allPhotos st) (candidates st) (targetCount st) (clusters st)
    (clusterFingerprints st) v (comparisonHistory st)
    (comparisonsCompleted st) (currentPair st) (currentSelection st)
    (previousTopNSets st).

(** The [input] handler of the slider: [parseInt] of its value is stored. *)
Definition thresholdInput (value : Z) (st : State) : State :=
  set_clusterThreshold (IZR value) st.

(** The [change] handler of the slider: the clusters are rebuilt when there
    are fingerprints. *)
Definition thresholdChange (st : State) : State :=
  if bool_decide (0 < size (clusterFingerprints st))%nat
  then recluster st else st.

(** The fingerprint [createFingerprint] returns for [photo] when no photo
    before it had its id: the cached one, or else the extracted one. *)
Definition fingerprintOf (extract : Photo.t → option (list byte))
    (st : State) (photo : Photo.t) : option (list byte) :=
  match clusterFingerprints st !! Photo.id photo with
  | Some fp => Some fp
  | None => extract photo
  end.

(** ** Shuffling the photos *)

(** A result of [Math.random()]: a number of [0, 1). *)
Record Random : Type := mkRandom {
  rvalue : R;
  rvalue_range : (0 <= rvalue < 1)%R
}.

(** [Math.floor(Math.random() * (i + 1))] *)
Definition randomIndex (r : Random) (i : nat) : nat :=
  Z.to_nat (Zfloor (rvalue r * INR (i + 1))).

(** [[arr[i], arr[j]] = [arr[j], arr[i]]]: both elements are read, then
    [arr[i]] and [arr[j]] are written, in this order.  In [shuffleArray]
    both positions are in the array ([j <= i < arr.length]). *)
Definition swap {A} (i j : nat) (arr : list A) : list A :=
  match arr !! i, arr !! j with
  | Some x, Some y => <[j := x]> (<[i := y]> arr)
  | _, _ => arr
  end.

(** The loop of [shuffleArray] from [i] down to 1; [rnd k] is the result of
    call [k] of [Math.random] and [calls] counts the calls made. *)
Fixpoint shuffleLoop {A} (rnd : nat → Random) (calls i : nat) (arr : list A)
  : list A :=
  match i with
  | O => arr
  | S i' =>
      let j := randomIndex (rnd calls) i in
      shuffleLoop rnd (S calls) i' (swap i j arr)
  end.

(** [shuffleArray(array)]: works on a copy, the argument is left as it is. *)
Definition shuffleArray {A} (rnd : nat → Random) (array : list A) : list A :=
  shuffleLoop rnd 0 (length array - 1) array.

(** [Math.random()] returning 0 at every call. *)
Definition zeroRandom : Random := mkRandom 0 (conj (Rle_refl 0) Rlt_0_1).

(** ** The pixels of a fingerprint *)

(** A pixel of [imageData.data]: red, green, blue and alpha. *)
Abbreviation Pixel := (Z * Z * Z * Z)%type.

(** [Math.round(0.299 * R + 0.587 * G + 0.114 * B)] *)
Definition luma (px : Pixel) : Z :=
  let '(r, g, b, _) := px in
  Math_round (0.299 * IZR r + 0.587 * IZR g + 0.114 * IZR b).

(** The byte a [Uint8Array] holds after the integer [v] is stored in it:
    [v] modulo 256. *)
Definition toUint8 (v : Z) : byte :=
  match Byte.of_N (Z.to_N (v mod 256)) with
  | Some b => b
  | None => "000"%byte
  end.

(** The loop of [computeImageFingerprint] over the pixels read from the
    canvas: one byte a pixel in a [Uint8Array] of [size * size] bytes, which
    holds 0 where nothing is stored and drops a store past its end. *)
Definition grayscale (size : nat) (pixels : list Pixel) : list byte :=
  let values := (toUint8 ∘ luma) <$> pixels in
  take (size * size) values
  ++ replicate (size * size - length values) (toUint8 0).

(** The pixels of a [size] x [size] canvas painted in one grey. *)
Definition greyCanvas (size : nat) (v alpha : Z) : list Pixel :=
  replicate (size * size) (v, v, v, alpha).

(** ** The size of a thumbnail *)


(** ** Phases and candidates *)

(** [state.currentPhase] *)
Inductive Phase : Type := PhaseSelection | PhaseRanking | PhaseResults.

#[global] Instance Phase_eq_dec : EqDecision Phase.
Proof. solve_decision. Defined.

(** [set.add(x)] and [set.delete(x)] on a [Set] of ids, kept in insertion
    order. *)
Definition setAdd (x : string) (s : list string) : list string :=
  if bool_decide (x ∈ s) then s else s ++ [x].

Definition setDelete (x : string) (s : list string) : list string :=
  filter (λ i, i ≠ x) s.

(** [{...p, elo: ELO_DEFAULT, comparisons: 0}]: a new object. *)
Definition newCandidate (p : Photo.t) : Photo.t :=
  Photo.mk (Photo.id p) ELO_DEFAULT (Some 0).

(** A photo with the rating every candidate starts with. *)
Definition defaultRated (c : Photo.t) : Prop :=
  Photo.elo c = ELO_DEFAULT ∧ Photo.comparisons c = Some 0.

(** The functions that read or write [state.selectedIds] and
    [state.currentPhase], on the state extended by these two fields. *)
Module App.

Record t : Type := mk {
  core : State;
  selectedIds : list string;
  currentPhase : Phase
}.

(** [toggleSelection(photoId)] *)
Definition toggleSelection (photoId : string) (s : t) : t :=
  if bool_decide (photoId ∈ selectedIds s)
  then mk (core s) (setDelete photoId (selectedIds s)) (currentPhase s)
  else mk (core s) (setAdd photoId (selectedIds s)) (currentPhase s).

(** [showNextComparison()], with the phase [finishRanking] sets when no
    pair is left. *)
Definition showNextComparison (o : Oracle) (s : t) : t :=
  mk (showNextComparison o (core s)) (selectedIds s)
    (match getNextPair o (core s) with
     | None => PhaseResults
     | Some _ => currentPhase s
     end).

(** [returnToRankingWithNewCandidates()] *)
Definition returnToRankingWithNewCandidates (o : Oracle) (s : t) : t :=
  let st := core s in
  let existingCandidateIds := Photo.id <$> candidates st in
  let cands :=
    foldl (λ cands i,
             if bool_decide (i ∈ existingCandidateIds) then cands
             else match list_find (λ p, Photo.id p = i) (allPhotos st) with
                  | Some (_, photo) => cands ++ [newCandidate photo]
                  | None => cands
                  end)
      (candidates st) (selectedIds s) in
  showNextComparison o (mk (set_candidates cands st) (selectedIds s) PhaseRanking).

(** [startRankingPhase()] *)
Definition startRankingPhase (o : Oracle) (s : t) : t :=
  if bool_decide (0 < length (candidates (core s)))%nat
     && bool_decide (currentPhase s = PhaseSelection)
  then returnToRankingWithNewCandidates o s
  else
    let st := core s in
    let st :=
      set_candidates
        (newCandidate
           <$> filter (λ p, Photo.id p ∈ selectedIds s) (allPhotos st)) st in
    let st := set_comparisonHistory [] st in
    let st := set_comparisonsCompleted 0 st in
    let st := set_previousTopNSets [] st in
    showNextComparison o (mk st (selectedIds s) PhaseRanking).

(** [continueRanking()] *)
Definition continueRanking (o : Oracle) (s : t) : t :=
  showNextComparison o (mk (core s) (selectedIds s) PhaseRanking).

(** [addMoreCandidates()] *)
Definition addMoreCandidates (s : t) : t :=
  mk (core s)
    (foldl (λ ids candidate, setAdd (Photo.id candidate) ids)
       (selectedIds s) (candidates (core s)))
    PhaseSelection.

(** [confirmImportForRanking()]: [nothing] says that the text holds neither
    a filename nor a number, [matches] is [matchPhotoByImportData] on the
    parsed text. *)
Definition confirmImportForRanking (nothing : bool)
    (matches : Photo.t → bool) (s : t) : t :=
  if nothing then s else
  let st := core s in
  let existingCandidateIds := Photo.id <$> candidates st in
  let '(cands, ids) :=
    foldl (λ '(cands, ids) photo,
             if matches photo
             then if bool_decide (Photo.id photo ∉ existingCandidateIds)
                  then (cands ++ [newCandidate photo],
                        setAdd (Photo.id photo) ids)
                  else (cands, ids)
             else (cands, ids))
      (candidates st, selectedIds s) (allPhotos st) in
  mk (set_candidates cands st) ids (currentPhase s).

(** [swipePrev()] and [swipeNext()] on [state.swipeIndex]. *)
Definition swipePrev (swipeIndex : Z) : Z :=
  if bool_decide (0 < swipeIndex) then swipeIndex - 1 else swipeIndex.

Definition swipeNext (s : t) (swipeIndex : Z) : Z :=
  if bool_decide (swipeIndex < Z.of_nat (length (allPhotos (core s))) - 1)
  then swipeIndex + 1 else swipeIndex.

(** [swipeToggleSelect()]; [None] is the TypeError of reading [.id] off
    [undefined] when [state.swipeIndex] is no position of [allPhotos]. *)
Definition swipeToggleSelect (swipeIndex : Z) (s : t) : option t :=
  photo ← (if bool_decide (0 ≤ swipeIndex)
           then allPhotos (core s) !! Z.to_nat swipeIndex else None);
  Some (toggleSelection (Photo.id photo) s).

End App.

(** A session in the selection phase with A and C selected and no
    candidates yet. *)
Definition selecting : App.t :=
  App.mk (mkState [photoA; photoB; photoC] [] 25 [] ∅ 15 [] 0 None [] [])
    ["photo-0"; "photo-2"] PhaseSelection.

(** A session back in the selection phase with A and B ranked already and
    C selected in addition. *)
Definition selectingMore : App.t :=
  App.mk
    (mkState [photoA; photoB; photoC] [photoA_won; photoB_lost] 25 [] ∅ 15
       [] 1 None [] [])
    ["photo-0"; "photo-1"; "photo-2"] PhaseSelection.

(** * Properties *)

(** ** Elo rating system *)

Section Elo.
Local Open Scope R_scope.

Lemma expectedScore_equal (r : R) : expectedScore r r = 1 / 2.
Proof.
  unfold expectedScore.
  replace ((r - r) / 400) with 0 by lra.
  rewrite Rpower_O by lra. lra.
Qed.

Lemma expectedScore_complement (x y : R) :
  expectedScore x y + expectedScore y x = 1.
Proof.
  unfold expectedScore.
  replace ((x - y) / 400) with (- ((y - x) / 400)) by lra.
  rewrite Rpower_Ropp.
  pose proof (exp_pos ((y - x) / 400 * ln 10)) as Hpos.
  fold (Rpower 10 ((y - x) / 400)) in Hpos.
  set (t := Rpower 10 ((y - x) / 400)) in *.
  field. split; lra.
Qed.

(** The four writes of an update on two distinct objects. *)
Lemma alter_pair_lookup {A} (f1 f2 g1 g2 : A → A) (i j : nat) (h : list A) :
  i ≠ j →
  let h' := alter g2 j (alter g1 i (alter f2 j (alter f1 i h))) in
  h' !! i = (g1 ∘ f1) <$> h !! i ∧
  h' !! j = (g2 ∘ f2) <$> h !! j ∧
  (∀ k, k ≠ i → k ≠ j → h' !! k = h !! k).
Proof.
  intros Hij h'. subst h'. repeat split.
  - rewrite list_lookup_alter_ne by done. rewrite list_lookup_alter_eq.
    rewrite list_lookup_alter_ne by done. rewrite list_lookup_alter_eq.
    by destruct (h !! i).
  - rewrite list_lookup_alter_eq. rewrite list_lookup_alter_ne by done.
    rewrite list_lookup_alter_eq. rewrite list_lookup_alter_ne by done.
    by destruct (h !! j).
  - intros k Hi Hj. by rewrite !list_lookup_alter_ne.
Qed.

Lemma updateEloRatings_lookup (h : list Photo.t) (w l : nat)
    (pw pl : Photo.t) :
  h !! w = Some pw → h !! l = Some pl → w ≠ l →
  ∃ h', updateEloRatings w l h = Some h' ∧
    h' !! w = Some (bumpComparisons
      (addElo (ELO_K * (1 - expectedScore (Photo.elo pw) (Photo.elo pl))) pw)) ∧
    h' !! l = Some (bumpComparisons
      (addElo (ELO_K * (0 - expectedScore (Photo.elo pl) (Photo.elo pw))) pl)) ∧
    (∀ k, k ≠ w → k ≠ l → h' !! k = h !! k).
Proof.
  intros Hw Hl Hne. unfold updateEloRatings. rewrite Hw, Hl. simpl.
  eexists. split; [reflexivity|].
  match goal with
  | |- context [alter ?g2 l (alter ?g1 w (alter ?f2 l (alter ?f1 w h)))] =>
      destruct (alter_pair_lookup f1 f2 g1 g2 w l h Hne) as (Ha & Hb & Hc)
  end.
  rewrite Ha, Hb, Hw, Hl. auto.
Qed.

Lemma updateEloTie_lookup (h : list Photo.t) (ia ib : nat)
    (pa pb : Photo.t) :
  h !! ia = Some pa → h !! ib = Some pb → ia ≠ ib →
  ∃ h', updateEloTie ia ib h = Some h' ∧
    h' !! ia = Some (bumpComparisons
      (addElo (ELO_K * (1 / 2 - expectedScore (Photo.elo pa) (Photo.elo pb)))
         pa)) ∧
    h' !! ib = Some (bumpComparisons
      (addElo (ELO_K * (1 / 2 - expectedScore (Photo.elo pb) (Photo.elo pa)))
         pb)) ∧
    (∀ k, k ≠ ia → k ≠ ib → h' !! k = h !! k).
Proof.
  intros Ha Hb Hne. unfold updateEloTie. rewrite Ha, Hb. simpl.
  eexists. split; [reflexivity|].
  match goal with
  | |- context [alter ?g2 ib (alter ?g1 ia (alter ?f2 ib (alter ?f1 ia h)))] =>
      destruct (alter_pair_lookup f1 f2 g1 g2 ia ib h Hne) as (Hx & Hy & Hz)
  end.
  rewrite Hx, Hy, Ha, Hb. auto.
Qed.

(** C1. [updateEloRatings] applies the Elo rule with K = 32 to the winner
    and the loser, adds one to both comparison counts and leaves every other
    candidate alone; two candidates at 1500 with no comparison end at 1516
    and 1484 with one comparison each. *)
Theorem C1_applyWin_elo_rule (h : list Photo.t) (w l : nat)
    (pw pl : Photo.t) :
  h !! w = Some pw → h !! l = Some pl → w ≠ l →
  ∃ h', updateEloRatings w l h = Some h' ∧
    h' !! w = Some (Photo.mk (Photo.id pw)
      (Photo.elo pw + 32 * (1 - 1 / (1 + Rpower 10
         ((Photo.elo pl - Photo.elo pw) / 400))))
      (Some (orZero (Photo.comparisons pw) + 1)%Z)) ∧
    h' !! l = Some (Photo.mk (Photo.id pl)
      (Photo.elo pl + 32 * (0 - 1 / (1 + Rpower 10
         ((Photo.elo pw - Photo.elo pl) / 400))))
      (Some (orZero (Photo.comparisons pl) + 1)%Z)) ∧
    (∀ k, k ≠ w → k ≠ l → h' !! k = h !! k) ∧
    (Photo.elo pw = 1500 → Photo.elo pl = 1500 →
     Photo.comparisons pw = Some 0%Z → Photo.comparisons pl = Some 0%Z →
     h' !! w = Some (Photo.mk (Photo.id pw) 1516 (Some 1%Z)) ∧
     h' !! l = Some (Photo.mk (Photo.id pl) 1484 (Some 1%Z))).
Proof.
  intros Hw Hl Hne.
  destruct (updateEloRatings_lookup h w l pw pl Hw Hl Hne)
    as (h' & Hrun & Hw' & Hl' & Hk).
  exists h'. split; [exact Hrun|]. split; [exact Hw'|]. split; [exact Hl'|].
  split; [exact Hk|].
  intros Ew El Cw Cl. rewrite Hw', Hl'.
  unfold bumpComparisons, addElo, Photo.set_comparisons, Photo.set_elo.
  simpl. rewrite Ew, El, Cw, Cl, expectedScore_equal. unfold ELO_K. simpl.
  split; do 2 f_equal; lra.
Qed.

Lemma C1_applyWin_elo_rule_witness :
  ∃ h', updateEloRatings 0 1
          [Photo.mk "A" 1500 (Some 0%Z); Photo.mk "B" 1500 (Some 0%Z)]
        = Some h' ∧
    h' !! 0%nat = Some (Photo.mk "A" 1516 (Some 1%Z)) ∧
    h' !! 1%nat = Some (Photo.mk "B" 1484 (Some 1%Z)).
Proof.
  destruct (C1_applyWin_elo_rule
              [Photo.mk "A" 1500 (Some 0%Z); Photo.mk "B" 1500 (Some 0%Z)]
              0 1 (Photo.mk "A" 1500 (Some 0%Z))
              (Photo.mk "B" 1500 (Some 0%Z)))
    as (h' & Hrun & _ & _ & _ & Hex);
    [reflexivity | reflexivity | lia |].
  exists h'. split; [exact Hrun|].
  apply Hex; reflexivity.
Defined.

(** C10. In exact real arithmetic [updateEloRatings] and [updateEloTie]
    leave the sum of the two ratings unchanged, and a tie between two
    equally rated candidates leaves each rating unchanged. *)
Theorem C10_rating_sum_conserved (h : list Photo.t) (ia ib : nat)
    (pa pb : Photo.t) :
  h !! ia = Some pa → h !! ib = Some pb → ia ≠ ib →
  (∃ h' pa' pb', updateEloRatings ia ib h = Some h' ∧
     h' !! ia = Some pa' ∧ h' !! ib = Some pb' ∧
     Photo.elo pa' - Photo.elo pa
       = ELO_K * (1 - expectedScore (Photo.elo pa) (Photo.elo pb)) ∧
     Photo.elo pb' - Photo.elo pb
       = ELO_K * (0 - expectedScore (Photo.elo pb) (Photo.elo pa)) ∧
     Photo.elo pa' + Photo.elo pb' = Photo.elo pa + Photo.elo pb) ∧
  (∃ h' pa' pb', updateEloTie ia ib h = Some h' ∧
     h' !! ia = Some pa' ∧ h' !! ib = Some pb' ∧
     Photo.elo pa' - Photo.elo pa
       = ELO_K * (1 / 2 - expectedScore (Photo.elo pa) (Photo.elo pb)) ∧
     Photo.elo pb' - Photo.elo pb
       = ELO_K * (1 / 2 - expectedScore (Photo.elo pb) (Photo.elo pa)) ∧
     Photo.elo pa' + Photo.elo pb' = Photo.elo pa + Photo.elo pb ∧
     (Photo.elo pa = Photo.elo pb →
      Photo.elo pa' = Photo.elo pa ∧ Photo.elo pb' = Photo.elo pb)).
Proof.
  intros Ha Hb Hne.
  pose proof (expectedScore_complement (Photo.elo pa) (Photo.elo pb)) as Hsum.
  split.
  - destruct (updateEloRatings_lookup h ia ib pa pb Ha Hb Hne)
      as (h' & Hrun & Ha' & Hb' & _).
    eexists h', _, _. split; [exact Hrun|]. split; [exact Ha'|].
    split; [exact Hb'|]. simpl. unfold ELO_K. repeat split; lra.
  - destruct (updateEloTie_lookup h ia ib pa pb Ha Hb Hne)
      as (h' & Hrun & Ha' & Hb' & _).
    eexists h', _, _. split; [exact Hrun|]. split; [exact Ha'|].
    split; [exact Hb'|]. simpl. unfold ELO_K.
    split; [lra|]. split; [lra|]. split; [lra|].
    intros Heq. rewrite Heq in *. rewrite expectedScore_equal. lra.
Qed.

Lemma C10_rating_sum_conserved_witness :
  ∃ h' pa' pb',
    updateEloTie 0 1 [Photo.mk "A" 1500 (Some 0%Z); Photo.mk "B" 1500 None]
      = Some h' ∧
    h' !! 0%nat = Some pa' ∧ h' !! 1%nat = Some pb' ∧
    Photo.elo pa' = 1500 ∧ Photo.elo pb' = 1500.
Proof.
  destruct (C10_rating_sum_conserved
              [Photo.mk "A" 1500 (Some 0%Z); Photo.mk "B" 1500 None]
              0 1 (Photo.mk "A" 1500 (Some 0%Z)) (Photo.mk "B" 1500 None))
    as [_ (h' & pa' & pb' & Hrun & Ha & Hb & _ & _ & _ & Heq)];
    [reflexivity | reflexivity | lia |].
  exists h', pa', pb'. split; [exact Hrun|]. split; [exact Ha|].
  split; [exact Hb|]. apply Heq. reflexivity.
Defined.

End Elo.

(** ** Undo *)

Section RoundTrip.


Lemma js_sort_short {A} (cmp : A → A → R) (l : list A) :
  (length l < 2)%nat → js_sort cmp l = l.
Proof.
  destruct l as [|x [|y l]]; simpl; intros; try reflexivity; lia.
Qed.

Lemma length_entries (cands : list Photo.t) :
  length (entries cands) = length cands.
Proof. apply length_imap. Qed.

Lemma getNextPair_None_short (o : Oracle) (st : State) :
  getNextPair o st = None → (length (candidates st) < 2)%nat.
Proof.
  unfold getNextPair. case_bool_decide as Hlen.
  - intros _. by rewrite length_entries in Hlen.
  - intros H. exfalso. revert H.
    repeat (case_match; try discriminate).
Qed.

Lemma calculateConfidence_frame (st : State) :
  candidates (calculateConfidence st).2 = candidates st ∧
  comparisonHistory (calculateConfidence st).2 = comparisonHistory st ∧
  comparisonsCompleted (calculateConfidence st).2 = comparisonsCompleted st.
Proof.
  unfold calculateConfidence. repeat case_match; simpl; auto.
Qed.

Lemma showNextComparison_frame (o : Oracle) (st : State) :
  candidates (showNextComparison o st) = candidates st ∧
  comparisonHistory (showNextComparison o st) = comparisonHistory st ∧
  comparisonsCompleted (showNextComparison o st) = comparisonsCompleted st.
Proof.
  unfold showNextComparison.
  destruct (getNextPair o st) as [[x y]|] eqn:Hpair.
  - destruct (calculateConfidence_frame
                (set_currentSelection []
                   (set_currentPair (Some (fst <$> x, fst <$> y)) st)))
      as (-> & -> & ->).
    auto.
  - apply getNextPair_None_short in Hpair.
    unfold finishRanking. simpl. by rewrite js_sort_short.
Qed.

(** Rewrites the candidates, the history and the counter of the state that
    [showNextComparison] leaves to those of the state it was given. *)
Ltac show_frame :=
  match goal with
  | |- context [showNextComparison ?o ?s] =>
      destruct (showNextComparison_frame o s) as (-> & -> & ->)
  end.

Lemma fmap_alter_same {A B} (f : A → B) (g : A → A) (i : nat) (l : list A) :
  (∀ x, f (g x) = f x) → f <$> alter g i l = f <$> l.
Proof.
  intros Hfg. revert i. induction l as [|x l IH]; intros [|i]; simpl;
    try reflexivity.
  - by rewrite Hfg.
  - f_equal. apply IH.
Qed.

Lemma updateEloRatings_ids (w l : nat) (h h' : list Photo.t) :
  updateEloRatings w l h = Some h' → Photo.id <$> h' = Photo.id <$> h.
Proof.
  unfold updateEloRatings. intros H.
  destruct (h !! w); simpl in H; [|discriminate].
  destruct (h !! l); simpl in H; [|discriminate].
  injection H as <-. by rewrite !fmap_alter_same.
Qed.

Lemma updateEloTie_ids (ia ib : nat) (h h' : list Photo.t) :
  updateEloTie ia ib h = Some h' → Photo.id <$> h' = Photo.id <$> h.
Proof.
  unfold updateEloTie. intros H.
  destruct (h !! ia); simpl in H; [|discriminate].
  destruct (h !! ib); simpl in H; [|discriminate].
  injection H as <-. by rewrite !fmap_alter_same.
Qed.

Lemma updateEloRatings_is_Some (w l : nat) (h : list Photo.t) :
  is_Some (h !! w) → is_Some (h !! l) → is_Some (updateEloRatings w l h).
Proof.
  intros [pw Hw] [pl Hl]. unfold updateEloRatings. rewrite Hw, Hl. simpl. eauto.
Qed.

Lemma updateEloTie_is_Some (w l : nat) (h : list Photo.t) :
  is_Some (h !! w) → is_Some (h !! l) → is_Some (updateEloTie w l h).
Proof.
  intros [pw Hw] [pl Hl]. unfold updateEloTie. rewrite Hw, Hl. simpl. eauto.
Qed.

(** With unique ids, [find] by id returns the object itself. *)
Lemma list_find_by_id (h : list Photo.t) (i : nat) (p : Photo.t) (s : string) :
  NoDup (Photo.id <$> h) → h !! i = Some p → Photo.id p = s →
  list_find (λ q, Photo.id q = s) h = Some (i, p).
Proof.
  intros Hnd Hi Hs. apply list_find_Some. split; [exact Hi|].
  split; [exact Hs|].
  intros j q Hj Hlt Hq.
  assert (i = j); [|lia].
  apply (NoDup_lookup _ i j (Photo.id p) Hnd);
    rewrite list_lookup_fmap; [rewrite Hi|rewrite Hj]; simpl; congruence.
Qed.

(** Undoing over a store whose objects kept their ids puts back the recorded
    values of both members of the pair. *)
Lemma restore_pair (h h' : list Photo.t) (ia ib : nat) (pa pb : Photo.t) :
  NoDup (Photo.id <$> h) → Photo.id <$> h' = Photo.id <$> h →
  h !! ia = Some pa → h !! ib = Some pb →
  let found s := list_find (λ q, Photo.id q = s) h' in
  let h2 :=
    restorePhoto (found (Photo.id pb)) (Photo.elo pb) (Photo.comparisons pb)
      (restorePhoto (found (Photo.id pa)) (Photo.elo pa)
         (Photo.comparisons pa) h') in
  h2 !! ia = Some pa ∧ h2 !! ib = Some pb ∧
  (∀ k, k ≠ ia → k ≠ ib → h2 !! k = h' !! k).
Proof.
  intros Hnd Hids Ha Hb found h2.
  assert (Hsame : ∀ i p, h !! i = Some p →
            ∃ p', h' !! i = Some p' ∧ Photo.id p' = Photo.id p).
  { intros i p Hi.
    assert (Hf : (Photo.id <$> h') !! i = Some (Photo.id p))
      by (rewrite Hids, list_lookup_fmap, Hi; reflexivity).
    rewrite list_lookup_fmap in Hf.
    destruct (h' !! i) as [p'|]; simpl in Hf; [|discriminate].
    exists p'. split; congruence. }
  destruct (Hsame ia pa Ha) as (pa' & Ha' & Hida).
  destruct (Hsame ib pb Hb) as (pb' & Hb' & Hidb).
  assert (Hnd' : NoDup (Photo.id <$> h')) by (by rewrite Hids).
  subst h2 found. simpl.
  rewrite (list_find_by_id h' ia pa' _ Hnd' Ha' Hida).
  rewrite (list_find_by_id h' ib pb' _ Hnd' Hb' Hidb).
  simpl.
  destruct (decide (ia = ib)) as [->|Hne].
  - assert (pa = pb) by congruence. subst pb.
    rewrite !list_lookup_alter_eq, Ha'. simpl.
    split; [|split].
    + destruct pa, pa'; unfold Photo.set_comparisons, Photo.set_elo; simpl in *; congruence.
    + destruct pa, pa'; unfold Photo.set_comparisons, Photo.set_elo; simpl in *; congruence.
    + intros k Hk _. by rewrite !list_lookup_alter_ne.
  - split; [|split].
    + rewrite list_lookup_alter_ne by done. rewrite list_lookup_alter_eq, Ha'.
      destruct pa, pa'; unfold Photo.set_comparisons, Photo.set_elo; simpl in *; congruence.
    + rewrite list_lookup_alter_eq, list_lookup_alter_ne by done. rewrite Hb'.
      destruct pb, pb'; unfold Photo.set_comparisons, Photo.set_elo; simpl in *; congruence.
    + intros k Hka Hkb. by rewrite !list_lookup_alter_ne.
Qed.

Lemma confirmComparison_effect (o : Oracle) (st : State) (refA refB : nat)
    (pa pb : Photo.t) :
  currentPair st = Some (Some refA, Some refB) →
  candidates st !! refA = Some pa → candidates st !! refB = Some pb →
  ∃ st1, confirmComparison o st = Some st1 ∧
    Photo.id <$> candidates st1 = Photo.id <$> candidates st ∧
    comparisonHistory st1 = comparisonHistory st ++
      [recordOf pa pb
         (from_option WinnerId WinnerUndefined (head (currentSelection st)))] ∧
    comparisonsCompleted st1 = comparisonsCompleted st + 1.
Proof.
  intros Hpair Ha Hb. unfold confirmComparison. rewrite Hpair, Ha, Hb. simpl.
  set (winnerId := head (currentSelection st)).
  destruct (list_find (λ p, Some (Photo.id p) = winnerId) (candidates st))
    as [[w pw]|] eqn:Hw; simpl.
  2:{ eexists. split; [reflexivity|].
      show_frame.
      simpl. auto. }
  match goal with |- context [list_find ?P (candidates st)] =>
    destruct (list_find P (candidates st)) as [[l pl]|] eqn:Hl end; simpl.
  2:{ eexists. split; [reflexivity|].
      show_frame.
      simpl. auto. }
  apply list_find_Some in Hw as (Hw & _). apply list_find_Some in Hl as (Hl & _).
  destruct (updateEloRatings_is_Some w l (candidates st)) as [h' Hrun]; eauto.
  rewrite Hrun. simpl. eexists. split; [reflexivity|].
  show_frame.
  simpl. split; [|auto]. by apply updateEloRatings_ids in Hrun.
Qed.

Lemma skipComparison_effect (o : Oracle) (st : State) (refA refB : nat)
    (pa pb : Photo.t) :
  currentPair st = Some (Some refA, Some refB) →
  candidates st !! refA = Some pa → candidates st !! refB = Some pb →
  ∃ st1, skipComparison o st = Some st1 ∧
    Photo.id <$> candidates st1 = Photo.id <$> candidates st ∧
    comparisonHistory st1 = comparisonHistory st ++
      [recordOf pa pb WinnerNull] ∧
    comparisonsCompleted st1 = comparisonsCompleted st + 1.
Proof.
  intros Hpair Ha Hb. unfold skipComparison. rewrite Hpair, Ha, Hb. simpl.
  destruct (updateEloTie_is_Some refA refB (candidates st)) as [h' Hrun]; eauto.
  rewrite Hrun. simpl. eexists. split; [reflexivity|].
  show_frame.
  simpl. split; [|auto]. by apply updateEloTie_ids in Hrun.
Qed.

Lemma undoComparison_effect (o : Oracle) (st : State)
    (hist : list Comparison.t) (r : Comparison.t) :
  comparisonHistory st = hist ++ [r] →
  candidates (undoComparison o st)
    = restorePhoto
        (list_find (λ p, Photo.id p = Comparison.b r) (candidates st))
        (Comparison.prevEloB r) (Comparison.prevCompB r)
        (restorePhoto
           (list_find (λ p, Photo.id p = Comparison.a r) (candidates st))
           (Comparison.prevEloA r) (Comparison.prevCompA r) (candidates st)) ∧
  comparisonHistory (undoComparison o st) = hist ∧
  comparisonsCompleted (undoComparison o st) = comparisonsCompleted st - 1.
Proof.
  intros Hh. unfold undoComparison. rewrite Hh, last_snoc.
  show_frame.
  simpl. split; [reflexivity|]. split; [|reflexivity].
  rewrite length_app. simpl.
  replace (length hist + 1 - 1)%nat with (length hist) by lia.
  apply take_app_length.
Qed.

(** C2. Applying a win ([confirmComparison]) or a tie ([skipComparison]) and
    then undoing it puts both candidates of the pair back to the rating and
    the comparison count they had before, as recorded in the history entry;
    the history and the comparison counter are back as well. *)
Theorem C2_apply_undo_round_trip (o o' : Oracle) (st : State)
    (refA refB : nat) (pa pb : Photo.t) :
  NoDup (Photo.id <$> candidates st) →
  currentPair st = Some (Some refA, Some refB) →
  candidates st !! refA = Some pa → candidates st !! refB = Some pb →
  (∃ st1, confirmComparison o st = Some st1 ∧
     candidates (undoComparison o' st1) !! refA = Some pa ∧
     candidates (undoComparison o' st1) !! refB = Some pb ∧
     comparisonHistory (undoComparison o' st1) = comparisonHistory st ∧
     comparisonsCompleted (undoComparison o' st1) = comparisonsCompleted st) ∧
  (∃ st1, skipComparison o st = Some st1 ∧
     candidates (undoComparison o' st1) !! refA = Some pa ∧
     candidates (undoComparison o' st1) !! refB = Some pb ∧
     comparisonHistory (undoComparison o' st1) = comparisonHistory st ∧
     comparisonsCompleted (undoComparison o' st1) = comparisonsCompleted st).
Proof.
  intros Hnd Hpair Ha Hb. split.
  - destruct (confirmComparison_effect o st refA refB pa pb Hpair Ha Hb)
      as (st1 & Hrun & Hids & Hh & Hc).
    exists st1. split; [exact Hrun|].
    destruct (undoComparison_effect o' st1 _ _ Hh) as (-> & -> & ->).
    destruct (restore_pair (candidates st) (candidates st1) refA refB pa pb
                Hnd Hids Ha Hb) as (Ha2 & Hb2 & _).
    simpl. split; [exact Ha2|]. split; [exact Hb2|]. split; [reflexivity|lia].
  - destruct (skipComparison_effect o st refA refB pa pb Hpair Ha Hb)
      as (st1 & Hrun & Hids & Hh & Hc).
    exists st1. split; [exact Hrun|].
    destruct (undoComparison_effect o' st1 _ _ Hh) as (-> & -> & ->).
    destruct (restore_pair (candidates st) (candidates st1) refA refB pa pb
                Hnd Hids Ha Hb) as (Ha2 & Hb2 & _).
    simpl. split; [exact Ha2|]. split; [exact Hb2|]. split; [reflexivity|lia].
Qed.

Lemma C2_apply_undo_round_trip_witness :
  let st := pairOnScreen 0 1 ["photo-0"] (freshRanking [photoA; photoB]) in
  ∃ st1, confirmComparison stillOracle st = Some st1 ∧
    candidates (undoComparison stillOracle st1) !! 0%nat = Some photoA ∧
    candidates (undoComparison stillOracle st1) !! 1%nat = Some photoB.
Proof.
  intros st.
  destruct (C2_apply_undo_round_trip stillOracle stillOracle st 0 1
              photoA photoB) as [(st1 & Hrun & Ha & Hb & _) _].
  - apply (bool_decide_unpack _). vm_compute. reflexivity.
  - reflexivity.
  - reflexivity.
  - reflexivity.
  - exists st1. split; [exact Hrun|]. split; [exact Ha|exact Hb].
Defined.

End RoundTrip.

(** ** Swiss-system pairing *)

Section Pairing.


Lemma js_insert_perm {A} (cmp : A → A → R) (x : A) (l : list A) :
  js_insert cmp x l ≡ₚ x :: l.
Proof.
  induction l as [|y l IH]; simpl; [reflexivity|].
  destruct (Rltb 0 (cmp x y)); [|reflexivity].
  rewrite IH. apply Permutation_swap.
Qed.

Lemma js_sort_perm {A} (cmp : A → A → R) (l : list A) : js_sort cmp l ≡ₚ l.
Proof.
  induction l as [|x l IH]; simpl; [reflexivity|].
  unfold js_sort in *. simpl. by rewrite js_insert_perm, IH.
Qed.

Lemma elem_of_entries (cands : list Photo.t) (e : Entry) :
  e ∈ entries cands ↔ cands !! e.1 = Some e.2.
Proof.
  unfold entries. rewrite list_elem_of_lookup. split.
  - intros [i Hi]. apply list_lookup_imap_Some in Hi as (p & Hp & ->). done.
  - intros He. exists e.1. apply list_lookup_imap_Some.
    exists e.2. split; [done|]. by destruct e.
Qed.

Lemma entries_refs (cands : list Photo.t) :
  fst <$> entries cands = seq 0 (length cands).
Proof.
  unfold entries. rewrite fmap_imap.
  rewrite (imap_ext _ (λ j _, j)) by done.
  rewrite (imap_seq_0 cands (λ j, j)). apply list_fmap_id.
Qed.

Lemma NoDup_entries (cands : list Photo.t) : NoDup (fst <$> entries cands).
Proof. rewrite entries_refs. apply NoDup_seq. Qed.

(** Two reads at different positions of a rearranged part of the pool are
    two different objects of the pool. *)
Lemma picked_from_pool (cands : list Photo.t) (l : list Entry) (i j : nat)
    (x y : Entry) :
  l ⊆ entries cands → NoDup (fst <$> l) → i ≠ j →
  l !! i = Some x → l !! j = Some y →
  x.1 ≠ y.1 ∧ cands !! x.1 = Some x.2 ∧ cands !! y.1 = Some y.2.
Proof.
  intros Hsub Hnd Hij Hi Hj. split; [|split].
  - intros Heq. apply Hij.
    apply (NoDup_lookup _ i j x.1 Hnd); rewrite list_lookup_fmap.
    + by rewrite Hi.
    + rewrite Hj. simpl. by rewrite Heq.
  - apply elem_of_entries, Hsub. by eapply list_elem_of_lookup_2.
  - apply elem_of_entries, Hsub. by eapply list_elem_of_lookup_2.
Qed.

Lemma firstFreshPartner_Some (history : list Comparison.t) (x : Entry)
    (rest : list Entry) (p q : Entry) :
  firstFreshPartner history x rest = Some (p, q) →
  p = x ∧ ∃ k, rest !! k = Some q.
Proof.
  induction rest as [|y rest IH]; simpl; [discriminate|].
  destruct (negb (recentlyCompared 10 history x y)).
  - intros [= <- <-]. split; [done|]. by exists 0%nat.
  - intros H. destruct (IH H) as (-> & k & Hk). split; [done|].
    by exists (S k).
Qed.

Lemma firstFreshPair_Some (history : list Comparison.t) (l : list Entry)
    (p q : Entry) :
  firstFreshPair history l = Some (p, q) →
  ∃ i j, (i < j)%nat ∧ l !! i = Some p ∧ l !! j = Some q.
Proof.
  induction l as [|x rest IH]; simpl; [discriminate|].
  destruct (firstFreshPartner history x rest) as [[p' q']|] eqn:Hp.
  - intros [= -> ->]. apply firstFreshPartner_Some in Hp as (-> & k & Hk).
    exists 0%nat, (S k). split; [lia|]. done.
  - intros H. destruct (IH H) as (i & j & Hij & Hi & Hj).
    exists (S i), (S j). split; [lia|]. done.
Qed.

Lemma swissScan_Some (history : list Comparison.t) (l : list Entry)
    (startOffset : nat) (ks : list nat) (p q : Entry) :
  swissScan history l startOffset ks = Some (p, q) →
  ∃ idx, l !! idx = Some p ∧ l !! S idx = Some q.
Proof.
  induction ks as [|k ks IH]; simpl; [discriminate|].
  set (idx := ((k + startOffset) `mod` (length l - 1))%nat).
  destruct (l !! idx) as [x|] eqn:Hx; [|exact IH].
  destruct (l !! S idx) as [y|] eqn:Hy; [|exact IH].
  destruct (negb (recentlyCompared 15 history x y)); [|exact IH].
  intros [= <- <-]. by exists idx.
Qed.

Lemma distinct_ids (cands : list Photo.t) (i j : nat) (pi pj : Photo.t) :
  NoDup (Photo.id <$> cands) → i ≠ j →
  cands !! i = Some pi → cands !! j = Some pj → Photo.id pi ≠ Photo.id pj.
Proof.
  intros Hnd Hij Hi Hj Heq. apply Hij.
  apply (NoDup_lookup _ i j (Photo.id pi) Hnd); rewrite list_lookup_fmap.
  - by rewrite Hi.
  - rewrite Hj. simpl. by rewrite Heq.
Qed.

Lemma pairOfPool_intro (cands : list Photo.t) (l : list Entry) (i j : nat)
    (x y : Entry) :
  l ⊆ entries cands → NoDup (fst <$> l) → i ≠ j →
  l !! i = Some x → l !! j = Some y →
  pairOfPool cands (Some x, Some y).
Proof.
  intros Hsub Hnd Hij Hi Hj.
  destruct (picked_from_pool cands l i j x y Hsub Hnd Hij Hi Hj)
    as (Hne & Hx & Hy).
  destruct x as [ix px], y as [iy py]. simpl in *.
  exists ix, iy, px, py. repeat split; try done.
  intros Hids. by eapply distinct_ids.
Qed.

Lemma sortedByComparisons_perm (st : State) :
  sortedByComparisons st ≡ₚ entries (candidates st).
Proof. apply js_sort_perm. Qed.

Lemma underCompared_pool (st : State) :
  underCompared st ⊆ entries (candidates st) ∧
  NoDup (fst <$> underCompared st).
Proof.
  unfold underCompared. split.
  - intros e. rewrite list_elem_of_filter. intros [_ He].
    by rewrite sortedByComparisons_perm in He.
  - apply (sublist_NoDup _ (fst <$> sortedByComparisons st));
      [|apply fmap_sublist, sublist_filter].
    rewrite sortedByComparisons_perm. apply NoDup_entries.
Qed.

(** C3. [getNextPair] returns [null] exactly when fewer than two candidates
    are in the pool; a pair it returns holds two different objects of the
    pool (two different ids, the ids of the pool being unique). *)
Theorem C3_getNextPair (o : Oracle) (st : State) :
  OracleOk o →
  (getNextPair o st = None ↔ (length (candidates st) < 2)%nat) ∧
  (∀ r, getNextPair o st = Some r → pairOfPool (candidates st) r).
Proof.
  intros [HokU HokA].
  assert (Hnone : (length (candidates st) < 2)%nat → getNextPair o st = None).
  { intros Hlen. unfold getNextPair. rewrite length_entries.
    by rewrite bool_decide_eq_true_2. }
  split; [split; [apply getNextPair_None_short|exact Hnone]|].
  intros r. unfold getNextPair. rewrite length_entries.
  case_bool_decide as Hlen; [discriminate|].
  set (cands := entries (candidates st)).
  set (sortedE := js_sort (λ x y, cmpElo x.2 y.2) cands).
  destruct (underCompared_pool st) as [Hsub Hnd].
  destruct (if bool_decide (2 ≤ length (underCompared st))%nat
            then firstFreshPair (comparisonHistory st)
                   (shuffleUnder o (underCompared st))
            else None) as [[x y]|] eqn:Hfresh.
  - intros [= <-]. case_bool_decide; [|discriminate].
    apply firstFreshPair_Some in Hfresh as (i & j & Hij & Hi & Hj).
    apply (pairOfPool_intro _ (shuffleUnder o (underCompared st)) i j);
      try done; try lia.
    + intros e. rewrite (HokU (underCompared st)). apply Hsub.
    + by rewrite (HokU (underCompared st)).
  - destruct (swissScan _ sortedE _ _) as [[x y]|] eqn:Hscan.
    + intros [= <-]. apply swissScan_Some in Hscan as (idx & Hx & Hy).
      apply (pairOfPool_intro _ sortedE idx (S idx)); try done; try lia.
      * intros e. subst sortedE. by rewrite js_sort_perm.
      * subst sortedE. rewrite js_sort_perm. apply NoDup_entries.
    + intros [= <-].
      assert (Hl : length (shuffleAll o cands) = length (candidates st)).
      { rewrite (HokA cands). apply length_entries. }
      destruct (shuffleAll o cands) as [|x [|y l]] eqn:Hsh;
        simpl in Hl; try lia.
      apply (pairOfPool_intro _ (x :: y :: l) 0 1); try done.
      * intros e. by rewrite <- Hsh, (HokA cands).
      * rewrite <- Hsh, (HokA cands). apply NoDup_entries.
Qed.

Lemma stillOracle_ok : OracleOk stillOracle.
Proof. split; intros l; reflexivity. Qed.

Lemma C3_getNextPair_witness :
  let st := freshRanking [photoA; photoB; photoC] in
  (getNextPair stillOracle st = None ↔ (length (candidates st) < 2)%nat) ∧
  (∀ r, getNextPair stillOracle st = Some r → pairOfPool (candidates st) r).
Proof.
  intros st. apply (C3_getNextPair stillOracle st).
  split; intros l; reflexivity.
Defined.

End Pairing.

(** ** The sort of a consistent comparator *)

Section Sorting.
Context {A : Type} (cmp : A → A → R).

(** A consistent comparator: its sign is antisymmetric and the order it
    induces is transitive. *)
Hypothesis cmp_antisym : ∀ x y, (0 < cmp x y)%R → mayPrecede cmp y x.
Hypothesis cmp_trans :
  ∀ x y z, mayPrecede cmp x y → mayPrecede cmp y z → mayPrecede cmp x z.

Lemma js_insert_sorted (x : A) (l : list A) :
  StronglySorted (mayPrecede cmp) l →
  StronglySorted (mayPrecede cmp) (js_insert cmp x l).
Proof.
  induction 1 as [|y l Hl IH Hy]; simpl.
  - repeat constructor.
  - unfold Rltb. destruct (Rlt_dec 0 (cmp x y)) as [Hgt|Hle].
    + constructor; [exact IH|].
      rewrite (js_insert_perm cmp x l). constructor; [|exact Hy].
      by apply cmp_antisym.
    + assert (Hxy : mayPrecede cmp x y) by (unfold mayPrecede; lra).
      constructor; [by constructor|]. constructor; [exact Hxy|].
      eapply Forall_impl; [exact Hy|]. intros z Hz. by eapply cmp_trans.
Qed.

(** [js_sort] sorts: every element may precede all those behind it. *)
Lemma js_sort_sorted (l : list A) :
  StronglySorted (mayPrecede cmp) (js_sort cmp l).
Proof.
  induction l as [|x l IH]; [constructor|].
  by apply js_insert_sorted.
Qed.

End Sorting.

(** ** Fairness of the pairing *)

Section Fairness.

Lemma cmpComparisons_mayPrecede (x y : Photo.t) :
  mayPrecede cmpComparisons x y ↔
  orZero (Photo.comparisons x) < orZero (Photo.comparisons y) ∨
  (orZero (Photo.comparisons x) = orZero (Photo.comparisons y) ∧
   (Photo.elo y <= Photo.elo x)%R).
Proof.
  unfold mayPrecede, cmpComparisons. case_bool_decide as Hd.
  - split.
    + intros H. left. apply le_IZR in H. lia.
    + intros [H|[H _]]; [|lia]. apply IZR_le. lia.
  - split.
    + intros H. right. split; [lia|lra].
    + intros [H|[_ H]]; [lia|lra].
Qed.

Lemma cmpComparisons_antisym (x y : Photo.t) :
  (0 < cmpComparisons x y)%R → mayPrecede cmpComparisons y x.
Proof.
  intros Hgt. apply cmpComparisons_mayPrecede.
  assert (Hn : ¬ mayPrecede cmpComparisons x y) by (unfold mayPrecede; lra).
  rewrite cmpComparisons_mayPrecede in Hn.
  destruct (Z.lt_trichotomy (orZero (Photo.comparisons x))
              (orZero (Photo.comparisons y))) as [Hlt|[Heq|Hlt]].
  - exfalso. apply Hn. by left.
  - right. split; [lia|].
    destruct (Rle_dec (Photo.elo y) (Photo.elo x)) as [Hle|Hnle]; [|lra].
    exfalso. apply Hn. by right.
  - by left.
Qed.

Lemma cmpComparisons_trans (x y z : Photo.t) :
  mayPrecede cmpComparisons x y → mayPrecede cmpComparisons y z →
  mayPrecede cmpComparisons x z.
Proof.
  rewrite !cmpComparisons_mayPrecede.
  intros [?|[? ?]] [?|[? ?]];
    [left; lia|left; lia|left; lia|right; split; [lia|lra]].
Qed.

(** The head of [sortedByComparisons] has the fewest comparisons of the
    pool: [minComparisons] is the minimum. *)
Lemma sortedByComparisons_head (st : State) (x : Entry) :
  head (sortedByComparisons st) = Some x →
  ∀ y, y ∈ entries (candidates st) →
    orZero (Photo.comparisons x.2) ≤ orZero (Photo.comparisons y.2).
Proof.
  intros Hhead y Hy.
  pose proof (js_sort_sorted (λ a b : Entry, cmpComparisons a.2 b.2)
                (λ a b, cmpComparisons_antisym a.2 b.2)
                (λ a b c, cmpComparisons_trans a.2 b.2 c.2)
                (entries (candidates st))) as Hs.
  fold (sortedByComparisons st) in Hs.
  rewrite <- sortedByComparisons_perm in Hy.
  destruct (sortedByComparisons st) as [|x' l]; [done|].
  injection Hhead as ->.
  apply StronglySorted_inv in Hs as [_ Hall].
  apply elem_of_cons in Hy as [->|Hy]; [lia|].
  eapply Forall_forall in Hall; [|exact Hy].
  change (mayPrecede cmpComparisons x.2 y.2) in Hall.
  apply cmpComparisons_mayPrecede in Hall. lia.
Qed.

(** Step 1 of the scheduler: the under-compared candidates are those of the
    pool whose count is at most one above the minimum count [m] holds. *)
Lemma underCompared_spec (st : State) (m : Entry) (x : Entry) :
  m ∈ entries (candidates st) →
  (∀ y, y ∈ entries (candidates st) →
     orZero (Photo.comparisons m.2) ≤ orZero (Photo.comparisons y.2)) →
  x ∈ underCompared st ↔
  x ∈ entries (candidates st) ∧
  orZero (Photo.comparisons x.2) ≤ orZero (Photo.comparisons m.2) + 1.
Proof.
  intros Hm Hmin. unfold underCompared.
  assert (Hmin' : orZero (head (sortedByComparisons st) ≫=
                            λ e : Entry, Photo.comparisons e.2)
                  = orZero (Photo.comparisons m.2)).
  { destruct (head (sortedByComparisons st)) as [h|] eqn:Hhead.
    - assert (Hh : h ∈ entries (candidates st)).
      { rewrite <- sortedByComparisons_perm.
        destruct (sortedByComparisons st); [done|].
        injection Hhead as ->. by left. }
      pose proof (sortedByComparisons_head st h Hhead m Hm).
      pose proof (Hmin h Hh). simpl. lia.
    - exfalso. apply head_None in Hhead.
      rewrite <- sortedByComparisons_perm, Hhead in Hm. by inv Hm. }
  rewrite Hmin', list_elem_of_filter.
  rewrite (sortedByComparisons_perm st). tauto.
Qed.


Lemma Rltb_true (x y : R) : (x < y)%R → Rltb x y = true.
Proof. intros H. unfold Rltb. by destruct (Rlt_dec x y). Qed.

Lemma Rltb_false (x y : R) : (y <= x)%R → Rltb x y = false.
Proof. intros H. unfold Rltb. destruct (Rlt_dec x y); [lra|done]. Qed.

Lemma cmpComparisons_more (x y : Photo.t) :
  orZero (Photo.comparisons y) < orZero (Photo.comparisons x) →
  Rltb 0 (cmpComparisons x y) = true.
Proof.
  intros H. unfold cmpComparisons. rewrite bool_decide_eq_true_2 by lia.
  apply Rltb_true. apply IZR_lt. lia.
Qed.

Lemma cmpComparisons_tie (x y : Photo.t) :
  orZero (Photo.comparisons x) = orZero (Photo.comparisons y) →
  (Photo.elo y <= Photo.elo x)%R →
  Rltb 0 (cmpComparisons x y) = false.
Proof.
  intros H Hle. unfold cmpComparisons. rewrite bool_decide_eq_false_2 by lia.
  apply Rltb_false. lra.
Qed.

Lemma sorted_after_win :
  js_sort (λ x y : Entry, cmpComparisons x.2 y.2)
    [(0%nat, photoA_won); (1%nat, photoB_lost); (2%nat, photoC)]
  = [(2%nat, photoC); (0%nat, photoA_won); (1%nat, photoB_lost)].
Proof.
  unfold js_sort. cbn [foldr js_insert snd].
  rewrite (cmpComparisons_more photoB_lost photoC) by (simpl; lia).
  cbn [js_insert snd].
  rewrite (cmpComparisons_more photoA_won photoC) by (simpl; lia).
  rewrite (cmpComparisons_tie photoA_won photoB_lost)
    by (simpl; first [lia | lra]).
  reflexivity.
Qed.

Lemma sorted_at_start :
  js_sort (λ x y : Entry, cmpComparisons x.2 y.2)
    [(0%nat, photoA); (1%nat, photoB); (2%nat, photoC)]
  = [(0%nat, photoA); (1%nat, photoB); (2%nat, photoC)].
Proof.
  unfold js_sort. cbn [foldr js_insert snd].
  rewrite (cmpComparisons_tie photoB photoC) by (simpl; first [lia | lra]).
  cbn [js_insert snd].
  rewrite (cmpComparisons_tie photoA photoB) by (simpl; first [lia | lra]).
  reflexivity.
Qed.

Lemma underCompared_after_win (st : State) :
  candidates st = [photoA_won; photoB_lost; photoC] →
  underCompared st
  = [(2%nat, photoC); (0%nat, photoA_won); (1%nat, photoB_lost)].
Proof.
  intros Hc. unfold underCompared, sortedByComparisons. rewrite Hc.
  change (entries [photoA_won; photoB_lost; photoC])
    with [(0%nat, photoA_won); (1%nat, photoB_lost); (2%nat, photoC)].
  rewrite sorted_after_win. reflexivity.
Qed.

(** The rearrangements of a three-element array. *)
Lemma Permutation_three {A} (l : list A) (x y z : A) :
  l ≡ₚ [x; y; z] →
  l = [x; y; z] ∨ l = [x; z; y] ∨ l = [y; x; z] ∨
  l = [y; z; x] ∨ l = [z; x; y] ∨ l = [z; y; x].
Proof.
  intros Hp. symmetry in Hp.
  apply Permutation_cons_inv_l in Hp as (k1 & k2 & -> & Hp).
  apply Permutation_length_2_inv in Hp.
  destruct k1 as [|a [|b [|c k1]]]; simpl in Hp;
    destruct Hp as [Hp|Hp]; simplify_eq/=; auto 10.
Qed.

Lemma getNextPair_after_win (o : Oracle) (st : State) (w : Winner) :
  OracleOk o →
  candidates st = [photoA_won; photoB_lost; photoC] →
  comparisonHistory st = [recordOf photoA photoB w] →
  ∃ x y, getNextPair o st = Some (Some x, Some y) ∧ includesC x y.
Proof.
  intros [HokU _] Hc Hh. unfold getNextPair.
  rewrite (underCompared_after_win st Hc), Hc, Hh.
  change (entries [photoA_won; photoB_lost; photoC])
    with [(0%nat, photoA_won); (1%nat, photoB_lost); (2%nat, photoC)].
  cbn [length bool_decide]. 
  rewrite bool_decide_eq_false_2 by (simpl; lia).
  rewrite bool_decide_eq_true_2 by (simpl; lia).
  pose proof (HokU [(2%nat, photoC); (0%nat, photoA_won); (1%nat, photoB_lost)])
    as Hp.
  apply Permutation_three in Hp.
  unfold includesC.
  destruct Hp as [-> | [-> | [-> | [-> | [-> | ->]]]]];
    cbn -[photoA_won photoB_lost photoC]; eauto 10.
Qed.

Lemma underCompared_at_start (st : State) :
  candidates st = [photoA; photoB; photoC] →
  underCompared st = entries [photoA; photoB; photoC].
Proof.
  intros Hc. unfold underCompared, sortedByComparisons. rewrite Hc.
  change (entries [photoA; photoB; photoC])
    with [(0%nat, photoA); (1%nat, photoB); (2%nat, photoC)].
  rewrite sorted_at_start. reflexivity.
Qed.

Lemma getNextPair_at_start (o : Oracle) (st : State) :
  OracleOk o →
  candidates st = [photoA; photoB; photoC] → comparisonHistory st = [] →
  ∃ x y rest, shuffleUnder o (underCompared st) = x :: y :: rest ∧
    getNextPair o st = Some (Some x, Some y).
Proof.
  intros [HokU _] Hc Hh. unfold getNextPair.
  rewrite (underCompared_at_start st Hc), Hc, Hh.
  change (entries [photoA; photoB; photoC])
    with [(0%nat, photoA); (1%nat, photoB); (2%nat, photoC)].
  rewrite bool_decide_eq_false_2 by (simpl; lia).
  rewrite bool_decide_eq_true_2 by (simpl; lia).
  pose proof (HokU [(0%nat, photoA); (1%nat, photoB); (2%nat, photoC)]) as Hp.
  apply Permutation_three in Hp.
  destruct Hp as [-> | [-> | [-> | [-> | [-> | ->]]]]];
    cbn -[photoA photoB photoC]; eauto 10.
Qed.

Lemma update_after_win :
  updateEloRatings 0 1 [photoA; photoB; photoC]
  = Some [photoA_won; photoB_lost; photoC].
Proof.
  unfold updateEloRatings, photoA, photoB, photoC.
  cbn [lookup list_lookup mbind option_bind Photo.elo alter list_alter].
  rewrite expectedScore_equal.
  unfold bumpComparisons, addElo, Photo.set_comparisons, Photo.set_elo,
    photoA_won, photoB_lost, ELO_K, ELO_DEFAULT.
  cbn [Photo.id Photo.elo Photo.comparisons orZero default].
  do 2 f_equal; [|f_equal]; f_equal; lra.
Qed.

Lemma calculateConfidence_currentPair (st : State) :
  currentPair (calculateConfidence st).2 = currentPair st.
Proof. unfold calculateConfidence. repeat case_match; reflexivity. Qed.

Lemma showNextComparison_currentPair (o : Oracle) (st : State)
    (x y : option Entry) :
  getNextPair o st = Some (x, y) →
  currentPair (showNextComparison o st) = Some (fst <$> x, fst <$> y).
Proof.
  intros Hp. unfold showNextComparison. rewrite Hp.
  by rewrite calculateConfidence_currentPair.
Qed.

(** A confirmed win of one member of the pair over the other is
    [updateEloRatings] on the two objects, followed by the next pair. *)
Lemma confirmComparison_win (o : Oracle) (st : State) (refA refB w l : nat)
    (pa pb pw pl : Photo.t) :
  NoDup (Photo.id <$> candidates st) →
  currentPair st = Some (Some refA, Some refB) →
  candidates st !! refA = Some pa → candidates st !! refB = Some pb →
  (w = refA ∧ l = refB) ∨ (w = refB ∧ l = refA) → w ≠ l →
  candidates st !! w = Some pw → candidates st !! l = Some pl →
  head (currentSelection st) = Some (Photo.id pw) →
  ∃ h' st', updateEloRatings w l (candidates st) = Some h' ∧
    confirmComparison o st = Some (showNextComparison o st') ∧
    candidates st' = h' ∧
    comparisonHistory st' = comparisonHistory st ++
      [recordOf pa pb (WinnerId (Photo.id pw))].
Proof.
  intros Hnd Hpair Ha Hb Hwl Hne Hw Hl Hsel.
  assert (Hidne : Photo.id pw ≠ Photo.id pl) by (by eapply distinct_ids).
  unfold confirmComparison. rewrite Hpair, Ha, Hb, Hsel. simpl.
  assert (Hfw : list_find (λ p, Some (Photo.id p) = Some (Photo.id pw))
                  (candidates st) = Some (w, pw)).
  { apply list_find_Some. split; [done|]. split; [done|].
    intros j q Hj Hlt [= Hq]. assert (w = j); [|lia].
    apply (NoDup_lookup _ w j (Photo.id pw) Hnd); rewrite list_lookup_fmap.
    - by rewrite Hw.
    - rewrite Hj. simpl. by rewrite Hq. }
  assert (Hfl : list_find
                  (λ p, Some (Photo.id p) ≠ Some (Photo.id pw) ∧
                        (Photo.id p = Photo.id pa ∨ Photo.id p = Photo.id pb))
                  (candidates st) = Some (l, pl)).
  { apply list_find_Some. split; [done|]. split.
    - split; [congruence|].
      destruct Hwl as [[-> ->]|[-> ->]]; [right|left]; congruence.
    - intros j q Hj Hlt [Hq1 Hq2]. assert (l = j); [|lia].
      apply (NoDup_lookup _ l j (Photo.id pl) Hnd); rewrite list_lookup_fmap.
      + by rewrite Hl.
      + rewrite Hj. simpl. f_equal.
        destruct Hwl as [[-> ->]|[-> ->]]; destruct Hq2 as [Hq2|Hq2];
          congruence. }
  rewrite Hfw, Hfl.
  destruct (updateEloRatings_is_Some w l (candidates st)) as [h' Hrun]; eauto.
  rewrite Hrun. simpl. eexists h', _. split; [done|]. split; [reflexivity|].
  simpl. done.
Qed.

(** C4. With three fresh candidates A, B, C the first call of [getNextPair]
    takes its pair from the under-compared set, which holds all three; once
    A has beaten B the ratings and counts are 1516/1, 1484/1, 1500/0, the
    pair A-B is the one history entry, and the next call (the one
    [confirmComparison] makes, and any further one) returns C with A or B,
    whatever [Math.random] yields. *)
Theorem C4_fairness_scenario (o0 o1 o2 : Oracle) :
  OracleOk o0 → OracleOk o1 → OracleOk o2 →
  let st0 := freshRanking [photoA; photoB; photoC] in
  underCompared st0 = entries [photoA; photoB; photoC] ∧
  (∃ x y rest, shuffleUnder o0 (underCompared st0) = x :: y :: rest ∧
     getNextPair o0 st0 = Some (Some x, Some y)) ∧
  ∃ st1, confirmComparison o1 (pairOnScreen 0 1 ["photo-0"] st0) = Some st1 ∧
    candidates st1 = [photoA_won; photoB_lost; photoC] ∧
    comparisonHistory st1 = [recordOf photoA photoB (WinnerId "photo-0")] ∧
    (∃ x y, currentPair st1 = Some (Some x.1, Some y.1) ∧ includesC x y) ∧
    (∃ x y, getNextPair o2 st1 = Some (Some x, Some y) ∧ includesC x y).
Proof.
  intros Hok0 Hok1 Hok2 st0.
  split; [by apply underCompared_at_start|].
  split; [by apply getNextPair_at_start|].
  destruct (confirmComparison_win o1 (pairOnScreen 0 1 ["photo-0"] st0)
              0 1 0 1 photoA photoB photoA photoB)
    as (h' & st' & Hrun & Hconf & Hc & Hh);
    [apply (bool_decide_unpack _); vm_compute; reflexivity
    |reflexivity|reflexivity|reflexivity|by left|lia
    |reflexivity|reflexivity|reflexivity|].
  change (candidates (pairOnScreen 0 1 ["photo-0"] st0))
    with [photoA; photoB; photoC] in Hrun.
  rewrite update_after_win in Hrun. injection Hrun as <-.
  change (comparisonHistory (pairOnScreen 0 1 ["photo-0"] st0) ++ _)
    with [recordOf photoA photoB (WinnerId "photo-0")] in Hh.
  exists (showNextComparison o1 st'). split; [exact Hconf|].
  destruct (showNextComparison_frame o1 st') as (Hc1 & Hh1 & _).
  rewrite Hc1, Hh1. split; [exact Hc|]. split; [exact Hh|]. split.
  - destruct (getNextPair_after_win o1 st' _ Hok1 Hc Hh) as (x & y & Hp & Hxy).
    exists x, y. split; [|exact Hxy].
    by rewrite (showNextComparison_currentPair o1 st' _ _ Hp).
  - apply (getNextPair_after_win o2 _ (WinnerId "photo-0") Hok2).
    + by rewrite Hc1.
    + by rewrite Hh1.
Qed.

Lemma C4_fairness_scenario_witness :
  ∃ st1,
    confirmComparison stillOracle
      (pairOnScreen 0 1 ["photo-0"] (freshRanking [photoA; photoB; photoC]))
      = Some st1 ∧
    candidates st1 = [photoA_won; photoB_lost; photoC] ∧
    ∃ x y, getNextPair stillOracle st1 = Some (Some x, Some y) ∧
      includesC x y.
Proof.
  destruct (C4_fairness_scenario stillOracle stillOracle stillOracle)
    as (_ & _ & st1 & Hrun & Hc & _ & _ & Hnext).
  - split; intros l; reflexivity.
  - split; intros l; reflexivity.
  - split; intros l; reflexivity.
  - exists st1. split; [exact Hrun|]. split; [exact Hc|exact Hnext].
Defined.

(** A against B is a first pair the scheduler can draw. *)
Example first_pair_A_B :
  getNextPair stillOracle (freshRanking [photoA; photoB; photoC])
  = Some (Some (0%nat, photoA), Some (1%nat, photoB)).
Proof.
  destruct (getNextPair_at_start stillOracle
              (freshRanking [photoA; photoB; photoC]) stillOracle_ok)
    as (x & y & rest & Hsh & Hp); [reflexivity|reflexivity|].
  rewrite Hp. simpl in Hsh.
  rewrite underCompared_at_start in Hsh by reflexivity.
  by injection Hsh as <- <- _.
Qed.

End Fairness.

(** ** Confidence *)

Section Confidence.


Lemma Math_round_nonneg (x : R) : (0 <= x)%R → 0 ≤ Math_round x.
Proof. intros H. unfold Math_round. apply Zfloor_lub. simpl. lra. Qed.

Lemma ratio_nonneg (a b : nat) : (0 < b)%nat → (0 <= INR a / INR b)%R.
Proof.
  intros Hb. apply Rmult_le_pos; [apply pos_INR|].
  left. apply Rinv_0_lt_compat. by apply lt_0_INR.
Qed.

Lemma ratio_le_1 (a b : nat) :
  (0 < b)%nat → (a ≤ b)%nat → (INR a / INR b <= 1)%R.
Proof.
  intros Hb Hab. apply lt_0_INR in Hb as Hb'. apply le_INR in Hab.
  apply (Rmult_le_reg_r (INR b)); [done|].
  unfold Rdiv. rewrite Rmult_assoc, Rinv_l by lra. lra.
Qed.

Lemma stableCount_le (sets : list (gset string)) :
  (stableCount sets ≤ length sets - 1)%nat.
Proof.
  induction sets as [|s [|s' sets] IH]; simpl in *; try lia.
  destruct (identical s s'); lia.
Qed.

Lemma calculateConfidence_early (st : State) :
  tooEarly st → calculateConfidence st = (0, st).
Proof.
  intros H. unfold calculateConfidence.
  destruct H as [H|H].
  - by rewrite (bool_decide_eq_true_2 _ H).
  - rewrite (bool_decide_eq_true_2 (comparisonsCompleted st < 2) H).
    by rewrite orb_true_r.
Qed.

Lemma calculateConfidence_sets (st : State) :
  ¬ tooEarly st →
  previousTopNSets (calculateConfidence st).2
  = pushSnapshot (currentTopNIds st) (previousTopNSets st).
Proof.
  intros H. unfold calculateConfidence, tooEarly in *.
  rewrite !bool_decide_eq_false_2 by lia. simpl.
  by case_bool_decide.
Qed.

Lemma Math_round_le (x : R) (z : Z) : (x <= IZR z)%R → Math_round x ≤ z.
Proof.
  intros H. unfold Math_round.
  destruct (Zfloor_bound (x + / 2)) as [Hlo _].
  assert (Hlt : (IZR (Zfloor (x + / 2)) < IZR (z + 1))%R)
    by (rewrite plus_IZR; lra).
  apply lt_IZR in Hlt. lia.
Qed.

(** With three snapshots or more the weighted sum of the two ratios lies
    between 0 and 100 before it is rounded: the cap at 100 never cuts. *)
Lemma confidence_sum_range (cands : list Photo.t)
    (sets : list (gset string)) :
  (2 ≤ length cands)%nat → (3 ≤ length sets)%nat →
  let comparedCount :=
    length (filter (λ p, 1 ≤ orZero (Photo.comparisons p)) cands) in
  let x := (INR comparedCount / INR (length cands) * 30
            + INR (stableCount sets) / INR (length sets - 1) * 70)%R in
  (0 <= x <= 100)%R ∧ 0 ≤ Math_round x ≤ 100.
Proof.
  intros Hn Hs comparedCount x.
  assert (Hc : (0 <= INR comparedCount / INR (length cands) <= 1)%R).
  { split; [apply ratio_nonneg; lia|].
    apply ratio_le_1; [lia|]. subst comparedCount. apply length_filter. }
  assert (Hst : (0 <= INR (stableCount sets) / INR (length sets - 1) <= 1)%R).
  { split; [apply ratio_nonneg; lia|].
    apply ratio_le_1; [lia|]. apply stableCount_le. }
  assert (Hx : (0 <= x <= 100)%R) by (subst x; lra).
  split; [exact Hx|]. split.
  - apply Math_round_nonneg. lra.
  - apply Math_round_le. lra.
Qed.

(** C5. [calculateConfidence] returns an integer between 0 and 100, and 0
    when [min(targetCount, candidates.length) < 2] or
    [comparisonsCompleted < 2]. *)
Theorem C5_confidence_range (st : State) :
  0 ≤ (calculateConfidence st).1 ≤ 100 ∧
  (tooEarly st → (calculateConfidence st).1 = 0).
Proof.
  split; [|by intros H; rewrite calculateConfidence_early].
  destruct (decide (tooEarly st)) as [H|H].
  { rewrite calculateConfidence_early by done. simpl. lia. }
  unfold calculateConfidence, tooEarly in *.
  rewrite !bool_decide_eq_false_2 by lia. simpl.
  set (sets := pushSnapshot (currentTopNIds st) (previousTopNSets st)).
  case_bool_decide as Hlen; simpl; [lia|].
  split; [|lia]. apply Z.min_glb; [lia|].
  apply Math_round_nonneg.
  apply Rplus_le_le_0_compat; (apply Rmult_le_pos; [|lra]);
    apply ratio_nonneg; lia.
Qed.

Lemma pushSnapshot_room (s : gset string) (sets : list (gset string)) :
  (length sets < 10)%nat → pushSnapshot s sets = sets ++ [s].
Proof.
  intros H. unfold pushSnapshot.
  rewrite bool_decide_eq_false_2; [done|]. rewrite length_app. simpl. lia.
Qed.

Lemma pushSnapshot_full (s : gset string) (sets : list (gset string)) :
  length sets = 10%nat →
  pushSnapshot s sets = drop 1 sets ++ [s] ∧
  length (pushSnapshot s sets) = 10%nat.
Proof.
  intros H. unfold pushSnapshot.
  rewrite bool_decide_eq_true_2 by (rewrite length_app; simpl; lia).
  destruct sets as [|s0 sets]; [discriminate|]. simpl.
  split; [by rewrite drop_0|].
  rewrite drop_0, length_app. simpl in *. lia.
Qed.

Lemma pushSnapshot_bounded (s : gset string) (sets : list (gset string)) :
  (length sets ≤ 10)%nat → (length (pushSnapshot s sets) ≤ 10)%nat.
Proof.
  intros H. destruct (decide (length sets = 10%nat)) as [Hfull|Hroom].
  - by destruct (pushSnapshot_full s sets Hfull) as [_ ->].
  - rewrite pushSnapshot_room by lia. rewrite length_app. simpl. lia.
Qed.

Lemma ReachableSets_bounded (sets : list (gset string)) :
  ReachableSets sets → (length sets ≤ 10)%nat.
Proof.
  induction 1 as [|st _ IH]; [simpl; lia|].
  destruct (decide (tooEarly st)) as [H|H].
  - by rewrite calculateConfidence_early.
  - rewrite calculateConfidence_sets by done. by apply pushSnapshot_bounded.
Qed.

(** C6, as the code has it.  A call that passes the guard appends exactly one
    snapshot, the current top-N id set, and evicts the oldest one when ten
    are already held; a call stopped by the guard leaves the history as it
    is; the history never holds more than ten snapshots. *)
Theorem C6_snapshot_history (st : State) :
  let sets := previousTopNSets st in
  let sets' := previousTopNSets (calculateConfidence st).2 in
  (tooEarly st → sets' = sets) ∧
  (¬ tooEarly st →
     ((length sets < 10)%nat → sets' = sets ++ [currentTopNIds st]) ∧
     (length sets = 10%nat →
        sets' = drop 1 sets ++ [currentTopNIds st] ∧
        length sets' = 10%nat)) ∧
  (ReachableSets sets → (length sets ≤ 10)%nat ∧ (length sets' ≤ 10)%nat).
Proof.
  intros sets sets'. subst sets sets'. split; [|split].
  - intros H. by rewrite calculateConfidence_early.
  - intros H. rewrite calculateConfidence_sets by done. split.
    + apply pushSnapshot_room.
    + apply pushSnapshot_full.
  - intros H. split; [by apply ReachableSets_bounded|].
    apply ReachableSets_bounded. by constructor.
Qed.

(** The first call of a session, with no comparison completed, appends no
    snapshot. *)
Lemma C6_counterexample :
  let st := freshRanking [photoA; photoB; photoC] in
  previousTopNSets (calculateConfidence st).2 = [] ∧
  ¬ ∃ s, previousTopNSets (calculateConfidence st).2
         = previousTopNSets st ++ [s].
Proof.
  intros st.
  assert (H : tooEarly st) by (right; simpl; lia).
  rewrite (calculateConfidence_early st H). simpl.
  split; [reflexivity|]. intros [s Hs]. discriminate.
Qed.

Lemma twoCompleted_passes : ¬ tooEarly twoCompleted.
Proof. unfold tooEarly. simpl. lia. Qed.

(** After two comparisons and with one snapshot the ramp gives 10. *)
Example confidence_ramp : (calculateConfidence twoCompleted).1 = 10.
Proof.
  unfold calculateConfidence.
  rewrite !bool_decide_eq_false_2 by (simpl; lia). reflexivity.
Qed.

Lemma C5_confidence_range_witness :
  0 ≤ (calculateConfidence twoCompleted).1 ≤ 100 ∧
  (calculateConfidence (freshRanking [photoA; photoB; photoC])).1 = 0.
Proof.
  split; [apply (C5_confidence_range twoCompleted)|].
  apply (C5_confidence_range (freshRanking [photoA; photoB; photoC])).
  right. simpl. lia.
Defined.

Lemma C6_snapshot_history_witness :
  previousTopNSets (calculateConfidence twoCompleted).2
  = [currentTopNIds twoCompleted].
Proof.
  destruct (C6_snapshot_history twoCompleted) as (_ & Hpass & _).
  destruct (Hpass twoCompleted_passes) as [Hroom _].
  apply Hroom. simpl. lia.
Defined.

End Confidence.

(** ** Fingerprint distance *)

Section Distance.


Lemma byteVal_range (x : byte) : 0 ≤ byteVal x ≤ 255.
Proof.
  unfold byteVal. pose proof (Byte.to_N_bounded x). lia.
Qed.

Lemma sumSquaredDiffs_acc (fp1 fp2 : list byte) (acc : Z) :
  foldl (λ sum xy, let diff := byteVal xy.1 - byteVal xy.2 in
                   sum + diff * diff) acc (zip fp1 fp2)
  = acc + sumSquaredDiffs fp1 fp2.
Proof.
  unfold sumSquaredDiffs. generalize (zip fp1 fp2). intros l.
  revert acc. induction l as [|xy l IH]; intros acc; simpl; [lia|].
  rewrite IH, (IH (0 + _)). lia.
Qed.

Lemma sumSquaredDiffs_cons (x y : byte) (fp1 fp2 : list byte) :
  sumSquaredDiffs (x :: fp1) (y :: fp2)
  = (byteVal x - byteVal y) * (byteVal x - byteVal y)
    + sumSquaredDiffs fp1 fp2.
Proof.
  unfold sumSquaredDiffs at 1. simpl. rewrite sumSquaredDiffs_acc. lia.
Qed.

Lemma sumSquaredDiffs_nil_l (fp2 : list byte) : sumSquaredDiffs [] fp2 = 0.
Proof. reflexivity. Qed.

Lemma sumSquaredDiffs_nil_r (fp1 : list byte) : sumSquaredDiffs fp1 [] = 0.
Proof. by destruct fp1. Qed.

Lemma sumSquaredDiffs_self (fp : list byte) : sumSquaredDiffs fp fp = 0.
Proof.
  induction fp as [|x fp IH]; [reflexivity|].
  rewrite sumSquaredDiffs_cons, IH. lia.
Qed.

Lemma sumSquaredDiffs_sym (fp1 fp2 : list byte) :
  sumSquaredDiffs fp1 fp2 = sumSquaredDiffs fp2 fp1.
Proof.
  revert fp2. induction fp1 as [|x fp1 IH]; intros [|y fp2];
    try reflexivity.
  rewrite !sumSquaredDiffs_cons, IH. lia.
Qed.

Lemma sumSquaredDiffs_range (fp1 fp2 : list byte) :
  0 ≤ sumSquaredDiffs fp1 fp2 ≤ 255 * 255 * Z.of_nat (length fp1).
Proof.
  revert fp2. induction fp1 as [|x fp1 IH]; intros [|y fp2];
    rewrite ?sumSquaredDiffs_nil_l, ?sumSquaredDiffs_nil_r; simpl length;
    try lia.
  rewrite sumSquaredDiffs_cons. specialize (IH fp2).
  pose proof (byteVal_range x). pose proof (byteVal_range y).
  set (d := byteVal x - byteVal y).
  assert (Hd : -255 ≤ d ≤ 255) by (subst d; lia). clearbody d.
  assert (0 ≤ d * d ≤ 255 * 255) by nia.
  lia.
Qed.

(** Two different arrays of the same length differ at some position. *)
Lemma sumSquaredDiffs_pos (fp1 fp2 : list byte) :
  length fp1 = length fp2 → fp1 ≠ fp2 → 0 < sumSquaredDiffs fp1 fp2.
Proof.
  revert fp2. induction fp1 as [|x fp1 IH]; intros [|y fp2] Hlen Hne;
    try discriminate; [done|].
  rewrite sumSquaredDiffs_cons.
  pose proof (sumSquaredDiffs_range fp1 fp2) as [Hr _].
  destruct (decide (byteVal x = byteVal y)) as [Heq|Hxy].
  - assert (x = y) as ->.
    { unfold byteVal in Heq. apply N2Z.inj in Heq.
      pose proof (Byte.of_to_N x) as Hx. pose proof (Byte.of_to_N y) as Hy.
      congruence. }
    assert (fp1 ≠ fp2) by congruence.
    specialize (IH fp2 ltac:(simpl in Hlen; lia) ltac:(done)). nia.
  - nia.
Qed.

Lemma sum_as_spec (fp1 fp2 : list byte) :
  IZR (sumSquaredDiffs fp1 fp2) = foldr Rplus 0%R (squaredDiffs fp1 fp2).
Proof.
  revert fp2. induction fp1 as [|x fp1 IH]; intros [|y fp2];
    rewrite ?sumSquaredDiffs_nil_l, ?sumSquaredDiffs_nil_r; try reflexivity.
  rewrite sumSquaredDiffs_cons, plus_IZR, mult_IZR, minus_IZR, IH.
  unfold squaredDiffs. simpl. lra.
Qed.

Lemma fingerprintDistance_present (fp1 fp2 : list byte) :
  length fp1 = length fp2 → fp1 ≠ [] →
  fingerprintDistance (Some fp1) (Some fp2)
  = Num (sqrt (IZR (sumSquaredDiffs fp1 fp2) / INR (length fp1))).
Proof.
  intros Hlen Hne. unfold fingerprintDistance.
  rewrite bool_decide_eq_false_2 by (intros H; by apply H).
  rewrite bool_decide_eq_false_2; [done|].
  by destruct fp1.
Qed.

Lemma mean_square_range (fp1 fp2 : list byte) :
  fp1 ≠ [] →
  (0 <= IZR (sumSquaredDiffs fp1 fp2) / INR (length fp1) <= 255 * 255)%R.
Proof.
  intros Hne.
  assert (Hn : (0 < INR (length fp1))%R).
  { apply lt_0_INR. destruct fp1; [done|simpl; lia]. }
  destruct (sumSquaredDiffs_range fp1 fp2) as [Hlo Hhi].
  apply IZR_le in Hlo, Hhi.
  rewrite !mult_IZR, <- INR_IZR_INZ in Hhi.
  split.
  - apply Rmult_le_pos; [done|]. left. by apply Rinv_0_lt_compat.
  - apply (Rmult_le_reg_r (INR (length fp1))); [done|].
    unfold Rdiv. rewrite Rmult_assoc, Rinv_l by lra. lra.
Qed.

(** Two empty arrays: the quotient [0 / 0] is [NaN]. *)
Example fingerprintDistance_empty :
  fingerprintDistance (Some []) (Some []) = NaN.
Proof. reflexivity. Qed.

(** C7. The distance of a fingerprint to itself is 0; the distance is
    symmetric; it is [Infinity] when a fingerprint is missing or the lengths
    differ; otherwise it is the root of the mean squared difference, between
    0 and 255.  A fingerprint holds [size * size] bytes with [size = 8], so it
    is not empty. *)
Theorem C7_fingerprintDistance (fp1 fp2 : list byte) :
  (fp1 ≠ [] → fingerprintDistance (Some fp1) (Some fp1) = Num 0) ∧
  (∀ o1 o2, fingerprintDistance o1 o2 = fingerprintDistance o2 o1) ∧
  (∀ o, fingerprintDistance None o = PosInf ∧
        fingerprintDistance o None = PosInf) ∧
  (length fp1 ≠ length fp2 →
     fingerprintDistance (Some fp1) (Some fp2) = PosInf) ∧
  (length fp1 = length fp2 → fp1 ≠ [] →
     fingerprintDistance (Some fp1) (Some fp2) = Num (rmsSpec fp1 fp2) ∧
     (0 <= rmsSpec fp1 fp2 <= 255)%R).
Proof.
  split; [|split; [|split; [|split]]].
  - intros Hne. rewrite fingerprintDistance_present by done.
    rewrite sumSquaredDiffs_self. f_equal.
    unfold Rdiv. rewrite Rmult_0_l. apply sqrt_0.
  - intros [f1|] [f2|]; try reflexivity. unfold fingerprintDistance.
    destruct (decide (length f1 = length f2)) as [Hlen|Hlen].
    + rewrite <- Hlen, (sumSquaredDiffs_sym f1 f2). reflexivity.
    + rewrite !bool_decide_eq_true_2 by congruence. reflexivity.
  - intros o. split; [reflexivity|by destruct o].
  - intros Hlen. unfold fingerprintDistance.
    by rewrite bool_decide_eq_true_2.
  - intros Hlen Hne.
    assert (Heq : rmsSpec fp1 fp2
              = sqrt (IZR (sumSquaredDiffs fp1 fp2) / INR (length fp1))).
    { unfold rmsSpec, mean. rewrite sum_as_spec. unfold squaredDiffs.
      by rewrite length_zip_with_l_eq. }
    rewrite Heq. split; [by apply fingerprintDistance_present|].
    destruct (mean_square_range fp1 fp2 Hne) as [Hlo Hhi].
    split; [apply sqrt_pos|].
    rewrite <- (sqrt_square 255) by lra.
    apply sqrt_le_1; lra.
Qed.

Lemma C7_fingerprintDistance_witness :
  fingerprintDistance (Some blackFp) (Some blackFp) = Num 0 ∧
  fingerprintDistance (Some blackFp) (Some whiteFp)
    = Num (rmsSpec blackFp whiteFp) ∧
  (0 <= rmsSpec blackFp whiteFp <= 255)%R.
Proof.
  destruct (C7_fingerprintDistance blackFp whiteFp)
    as (Hself & _ & _ & _ & Hrms).
  split; [apply Hself; discriminate|].
  apply Hrms; [reflexivity|discriminate].
Defined.

End Distance.

(** ** Clusters *)

Section Clusters.


Lemma fingerprintDistance_bounded (fp1 fp2 : list byte) :
  length fp1 = length fp2 → fp1 ≠ [] →
  ∃ d, fingerprintDistance (Some fp1) (Some fp2) = Num d ∧ (0 <= d <= 255)%R.
Proof.
  intros Hlen Hne. eexists. split; [by apply fingerprintDistance_present|].
  destruct (mean_square_range fp1 fp2 Hne) as [Hlo Hhi].
  split; [apply sqrt_pos|].
  rewrite <- (sqrt_square 255) by lra.
  apply sqrt_le_1; lra.
Qed.


Lemma clusterStart_0 (clusters : list (list Photo.t)) :
  clusterStart clusters 0 = 0%nat.
Proof. unfold clusterStart. by rewrite take_0. Qed.

Lemma clusterStart_S (c : list Photo.t) (clusters : list (list Photo.t))
    (k : nat) :
  clusterStart (c :: clusters) (S k) = (length c + clusterStart clusters k)%nat.
Proof. unfold clusterStart. simpl. by rewrite length_app. Qed.

Lemma covers_0 (c : list Photo.t) (clusters : list (list Photo.t)) (i : nat) :
  covers (c :: clusters) 0 i ↔ (i < length c)%nat.
Proof.
  unfold covers. rewrite clusterStart_0. simpl. split.
  - intros (c' & [= <-] & H). lia.
  - intros H. exists c. split; [done|lia].
Qed.

Lemma covers_S (c : list Photo.t) (clusters : list (list Photo.t))
    (k i : nat) :
  covers (c :: clusters) (S k) i ↔
  (length c ≤ i)%nat ∧ covers clusters k (i - length c).
Proof.
  unfold covers. rewrite clusterStart_S. simpl. split.
  - intros (c' & Hc & H). split; [lia|]. exists c'. split; [done|lia].
  - intros (Hle & c' & Hc & H). exists c'. split; [done|lia].
Qed.

Lemma covers_unique (clusters : list (list Photo.t)) (i : nat) :
  (i < length (concat clusters))%nat →
  ∃ k, covers clusters k i ∧ ∀ k', covers clusters k' i → k' = k.
Proof.
  revert i. induction clusters as [|c clusters IH]; intros i Hi;
    simpl in Hi; [lia|].
  rewrite length_app in Hi.
  destruct (decide (i < length c)%nat) as [Hin|Hout].
  - exists 0%nat. split; [by apply covers_0|].
    intros [|k']; [done|]. rewrite covers_S. lia.
  - destruct (IH (i - length c)%nat) as (k & Hk & Huniq); [lia|].
    exists (S k). split; [apply covers_S; split; [lia|done]|].
    intros [|k'].
    + rewrite covers_0. lia.
    + rewrite covers_S. intros [_ Hk']. f_equal. by apply Huniq.
Qed.

Lemma cluster_is_run (clusters : list (list Photo.t)) (k : nat)
    (c : list Photo.t) :
  clusters !! k = Some c →
  c = take (length c) (drop (clusterStart clusters k) (concat clusters)).
Proof.
  revert k. induction clusters as [|c0 clusters IH]; intros [|k] Hk;
    simpl in Hk; try discriminate.
  - injection Hk as ->. rewrite clusterStart_0, drop_0. simpl.
    by rewrite take_app_length.
  - rewrite clusterStart_S. simpl.
    rewrite drop_app_add' by done. by apply IH.
Qed.

Lemma orderedPartition_intro (photos : list Photo.t)
    (clusters : list (list Photo.t)) :
  Forall (λ c, c ≠ []) clusters → concat clusters = photos →
  orderedPartition photos clusters.
Proof.
  intros Hne Hcat. unfold orderedPartition. rewrite <- Hcat.
  split; [done|]. split; [done|]. split.
  - apply cluster_is_run.
  - apply covers_unique.
Qed.

(** The loop keeps the photos seen so far, in order, in the closed clusters
    followed by the open one, and never closes or leaves an empty cluster. *)
Lemma buildLoop_partition (extract : Photo.t → option (list byte))
    (photos : list Photo.t) (clusters : list (list Photo.t))
    (currentCluster : list Photo.t) (prevFp : option (list byte))
    (st : State) :
  Forall (λ c, c ≠ []) clusters → currentCluster ≠ [] →
  let r := buildLoop extract photos clusters currentCluster prevFp st in
  Forall (λ c, c ≠ []) r.1.1 ∧ r.1.2 ≠ [] ∧
  concat r.1.1 ++ r.1.2 = concat clusters ++ currentCluster ++ photos ∧
  allPhotos r.2 = allPhotos st.
Proof.
  revert clusters currentCluster prevFp st.
  induction photos as [|photo rest IH];
    intros clusters currentCluster prevFp st Hcl Hcur; simpl.
  { rewrite app_nil_r. done. }
  destruct (createFingerprint extract photo st) as [currFp st'] eqn:Hfp.
  assert (Hall : allPhotos st' = allPhotos st).
  { unfold createFingerprint in Hfp. repeat case_match; by simplify_eq. }
  destruct (jsLe (fingerprintDistance prevFp currFp) (clusterThreshold st')).
  - destruct (IH clusters (currentCluster ++ [photo]) currFp st' Hcl)
      as (H1 & H2 & H3 & H4); [by destruct currentCluster|].
    rewrite H3, H4, <- !app_assoc. done.
  - destruct (IH (clusters ++ [currentCluster]) [photo] currFp st')
      as (H1 & H2 & H3 & H4);
      [by apply Forall_app; split; [|constructor]|done|].
    rewrite H3, H4, concat_app. simpl. rewrite app_nil_r, <- !app_assoc. done.
Qed.

Lemma reclusterLoop_partition (fps : gmap string (list byte)) (threshold : R)
    (prev : Photo.t) (photos : list Photo.t)
    (clusters : list (list Photo.t)) (currentCluster : list Photo.t) :
  Forall (λ c, c ≠ []) clusters → currentCluster ≠ [] →
  let r := reclusterLoop fps threshold prev photos clusters currentCluster in
  Forall (λ c, c ≠ []) r.1 ∧ r.2 ≠ [] ∧
  concat r.1 ++ r.2 = concat clusters ++ currentCluster ++ photos.
Proof.
  revert prev clusters currentCluster.
  induction photos as [|photo rest IH];
    intros prev clusters currentCluster Hcl Hcur; simpl.
  { rewrite app_nil_r. done. }
  destruct (jsLe _ _).
  - destruct (IH photo clusters (currentCluster ++ [photo]) Hcl)
      as (H1 & H2 & H3); [by destruct currentCluster|].
    rewrite H3, <- !app_assoc. done.
  - destruct (IH photo (clusters ++ [currentCluster]) [photo])
      as (H1 & H2 & H3);
      [by apply Forall_app; split; [|constructor]|done|].
    rewrite H3, concat_app. simpl. rewrite app_nil_r, <- !app_assoc. done.
Qed.

(** C9. On a non-empty input the clusters of the chain rule, as
    [buildClusters] stores them and as [recluster] rebuilds them, are an
    ordered partition of [state.allPhotos]: none is empty, each is a run of
    consecutive photos, every position lies in exactly one cluster and the
    clusters concatenated are the input. *)
Theorem C9_clusters_partition (extract : Photo.t → option (list byte))
    (st : State) :
  allPhotos st ≠ [] →
  orderedPartition (allPhotos st) (clusters (buildClusters extract st)) ∧
  orderedPartition (allPhotos st) (clusters (recluster st)).
Proof.
  intros Hne. split.
  - unfold buildClusters.
    destruct (allPhotos st) as [|first rest] eqn:Hphotos; [done|].
    destruct (createFingerprint extract first st) as [prevFp st0].
    pose proof (buildLoop_partition extract rest [] [first] prevFp st0)
      as Hloop.
    destruct (buildLoop extract rest [] [first] prevFp st0)
      as [[cl cur] st1].
    destruct Hloop as (H1 & H2 & H3 & _); [constructor|done|]. simpl in *.
    rewrite bool_decide_eq_true_2 by (destruct cur; [done|simpl; lia]).
    simpl. apply orderedPartition_intro.
    + apply Forall_app. split; [done|by constructor].
    + rewrite concat_app. simpl. by rewrite app_nil_r.
  - unfold recluster.
    destruct (allPhotos st) as [|first rest] eqn:Hphotos; [done|].
    pose proof (reclusterLoop_partition (clusterFingerprints st)
                  (clusterThreshold st) first rest [] [first]) as Hloop.
    destruct (reclusterLoop _ _ first rest [] [first]) as [cl cur].
    destruct Hloop as (H1 & H2 & H3); [constructor|done|]. simpl in *.
    rewrite bool_decide_eq_true_2 by (destruct cur; [done|simpl; lia]).
    simpl. apply orderedPartition_intro.
    + apply Forall_app. split; [done|by constructor].
    + rewrite concat_app. simpl. by rewrite app_nil_r.
Qed.

Lemma C9_clusters_partition_witness :
  orderedPartition [photoA; photoB; photoC]
    (clusters (buildClusters (λ _, None)
                 (freshRanking [photoA; photoB; photoC]))).
Proof.
  apply (C9_clusters_partition (λ _, None)
           (freshRanking [photoA; photoB; photoC])).
  simpl. discriminate.
Defined.

(** Every comparison of the loop opens a new cluster. *)
Lemma reclusterLoop_split (fps : gmap string (list byte)) (threshold : R)
    (prev : Photo.t) (photos : list Photo.t)
    (clusters : list (list Photo.t)) (currentCluster : list Photo.t) :
  (∀ i p q, (prev :: photos) !! i = Some p → photos !! i = Some q →
     jsLe (fingerprintDistance (fps !! Photo.id p) (fps !! Photo.id q))
       threshold = false) →
  let r := reclusterLoop fps threshold prev photos clusters currentCluster in
  r.1 ++ [r.2] = clusters ++ [currentCluster] ++ ((λ p, [p]) <$> photos).
Proof.
  revert prev clusters currentCluster.
  induction photos as [|photo rest IH]; intros prev clusters cur Hall; simpl.
  { done. }
  rewrite (Hall 0%nat prev photo) by done.
  rewrite IH.
  - by rewrite <- !app_assoc.
  - intros i p q Hp Hq. by apply (Hall (S i)).
Qed.

(** Every comparison of the loop extends the open cluster. *)
Lemma reclusterLoop_join (fps : gmap string (list byte)) (threshold : R)
    (prev : Photo.t) (photos : list Photo.t)
    (clusters : list (list Photo.t)) (currentCluster : list Photo.t) :
  (∀ i p q, (prev :: photos) !! i = Some p → photos !! i = Some q →
     jsLe (fingerprintDistance (fps !! Photo.id p) (fps !! Photo.id q))
       threshold = true) →
  reclusterLoop fps threshold prev photos clusters currentCluster
  = (clusters, currentCluster ++ photos).
Proof.
  revert prev currentCluster.
  induction photos as [|photo rest IH]; intros prev cur Hall; simpl.
  { by rewrite app_nil_r. }
  rewrite (Hall 0%nat prev photo) by done.
  rewrite IH.
  - by rewrite <- app_assoc.
  - intros i p q Hp Hq. by apply (Hall (S i)).
Qed.

Lemma recluster_clusters (st : State) (first : Photo.t)
    (rest : list Photo.t) :
  allPhotos st = first :: rest →
  let r := reclusterLoop (clusterFingerprints st) (clusterThreshold st)
             first rest [] [first] in
  r.2 ≠ [] → clusters (recluster st) = r.1 ++ [r.2].
Proof.
  intros Hphotos r Hne. unfold recluster. rewrite Hphotos. fold r.
  destruct r as [cl cur]. simpl in *.
  rewrite bool_decide_eq_true_2 by (destruct cur; [done|simpl; lia]).
  done.
Qed.

Lemma reclusterLoop_open (fps : gmap string (list byte)) (threshold : R)
    (prev : Photo.t) (photos : list Photo.t)
    (clusters : list (list Photo.t)) (currentCluster : list Photo.t) :
  currentCluster ≠ [] →
  (reclusterLoop fps threshold prev photos clusters currentCluster).2 ≠ [].
Proof.
  revert prev clusters currentCluster.
  induction photos as [|photo rest IH]; intros prev clusters cur Hne; simpl.
  { done. }
  destruct (jsLe _ _); apply IH; [by destruct cur|done].
Qed.

(** Two different fingerprints are at a distance above 0. *)
Lemma distinct_apart (f1 f2 : list byte) :
  f1 ≠ f2 → jsLe (fingerprintDistance (Some f1) (Some f2)) 0 = false.
Proof.
  intros Hne. unfold fingerprintDistance.
  case_bool_decide as Hlen; [done|].
  assert (Hlen' : length f1 = length f2)
    by (destruct (decide (length f1 = length f2)); [done|by destruct Hlen]).
  case_bool_decide as Hz; [done|]. simpl.
  unfold Rleb. destruct (Rle_dec _ 0) as [Hle|]; [exfalso|done].
  pose proof (sumSquaredDiffs_pos f1 f2 Hlen' Hne) as Hpos.
  apply IZR_lt in Hpos.
  assert (Hn : (0 < INR (length f1))%R) by (apply lt_0_INR; lia).
  assert (0 < sqrt (IZR (sumSquaredDiffs f1 f2) / INR (length f1)))%R;
    [|lra].
  apply sqrt_lt_R0. apply Rmult_lt_0_compat; [done|].
  by apply Rinv_0_lt_compat.
Qed.

Lemma jsLt_jsLe (d : JsNum) (t : R) : jsLt d t → jsLe d t = true.
Proof.
  destruct d as [r| |]; simpl; try done.
  intros H. unfold Rleb. destruct (Rle_dec r t); [done|lra].
Qed.

Lemma createFingerprint_cached (extract : Photo.t → option (list byte))
    (photo : Photo.t) (st : State) :
  is_Some (clusterFingerprints st !! Photo.id photo) →
  createFingerprint extract photo st
  = (clusterFingerprints st !! Photo.id photo, st).
Proof. intros [fp Hfp]. unfold createFingerprint. by rewrite Hfp. Qed.

Lemma buildLoop_cached (extract : Photo.t → option (list byte))
    (prev : Photo.t) (photos : list Photo.t)
    (clusters : list (list Photo.t)) (currentCluster : list Photo.t)
    (st : State) :
  Forall (λ p, is_Some (clusterFingerprints st !! Photo.id p)) photos →
  buildLoop extract photos clusters currentCluster
    (clusterFingerprints st !! Photo.id prev) st
  = (reclusterLoop (clusterFingerprints st) (clusterThreshold st) prev photos
       clusters currentCluster, st).
Proof.
  revert prev clusters currentCluster.
  induction photos as [|photo rest IH]; intros prev clusters cur Hall; simpl.
  { done. }
  apply Forall_cons in Hall as [Hphoto Hrest].
  rewrite createFingerprint_cached by done.
  destruct (jsLe _ _); by apply IH.
Qed.

(** With every fingerprint cached, [buildClusters] computes nothing anew and
    groups as [recluster] does. *)
Lemma buildClusters_cached (extract : Photo.t → option (list byte))
    (st : State) :
  Forall (λ p, is_Some (clusterFingerprints st !! Photo.id p)) (allPhotos st) →
  buildClusters extract st = recluster st.
Proof.
  intros Hall. unfold buildClusters, recluster.
  destruct (allPhotos st) as [|first rest]; [done|].
  apply Forall_cons in Hall as [Hfirst Hrest].
  rewrite createFingerprint_cached by done.
  rewrite buildLoop_cached by done.
  by destruct (reclusterLoop _ _ _ _ _ _).
Qed.

Section FirstRun.
Variable extract : Photo.t → option (list byte).

(** [createFingerprint] on an available photo returns a fingerprint and
    leaves it cached; it never overwrites a cached fingerprint and touches
    nothing but the cache. *)
Lemma createFingerprint_available (photo : Photo.t) (st : State) :
  available extract st photo →
  let r := createFingerprint extract photo st in
  is_Some r.1 ∧ clusterFingerprints r.2 !! Photo.id photo = r.1 ∧
  (∀ k fp, clusterFingerprints st !! k = Some fp →
           clusterFingerprints r.2 !! k = Some fp) ∧
  clusterThreshold r.2 = clusterThreshold st ∧ allPhotos r.2 = allPhotos st.
Proof.
  intros Hav. unfold createFingerprint.
  destruct (clusterFingerprints st !! Photo.id photo) as [fp|] eqn:Hc; simpl.
  { eauto 10. }
  destruct Hav as [[fp Hfp]|[fp Hfp]]; [congruence|]. rewrite Hfp. simpl.
  split; [eauto|]. split; [apply lookup_insert_eq|]. split; [|done].
  intros k fp' Hk. rewrite lookup_insert_ne; [done|]. congruence.
Qed.

(** The first run groups as [recluster] does on the cache it leaves. *)
Lemma buildLoop_as_recluster (prev : Photo.t) (photos : list Photo.t)
    (clusters : list (list Photo.t)) (currentCluster : list Photo.t)
    (st : State) :
  is_Some (clusterFingerprints st !! Photo.id prev) →
  Forall (available extract st) photos →
  let r := buildLoop extract photos clusters currentCluster
             (clusterFingerprints st !! Photo.id prev) st in
  r.1 = reclusterLoop (clusterFingerprints r.2) (clusterThreshold st) prev
          photos clusters currentCluster ∧
  (∀ k fp, clusterFingerprints st !! k = Some fp →
           clusterFingerprints r.2 !! k = Some fp) ∧
  Forall (λ p, is_Some (clusterFingerprints r.2 !! Photo.id p)) photos ∧
  clusterThreshold r.2 = clusterThreshold st ∧ allPhotos r.2 = allPhotos st.
Proof.
  revert prev clusters currentCluster st.
  induction photos as [|photo rest IH]; intros prev clusters cur st Hprev Hall;
    simpl.
  { done. }
  apply Forall_cons in Hall as [Hphoto Hrest].
  destruct (createFingerprint_available photo st Hphoto)
    as (Hsome & Hcached & Hkeep & Hthr & Hphotos).
  destruct (createFingerprint extract photo st) as [currFp st1]. simpl in *.
  assert (Hrest1 : Forall (available extract st1) rest).
  { eapply Forall_impl; [exact Hrest|]. intros p [[fp Hp]|Hp]; [left|by right].
    exists fp. by apply Hkeep. }
  assert (Hphoto1 : is_Some (clusterFingerprints st1 !! Photo.id photo))
    by (by rewrite Hcached).
  rewrite <- Hcached, Hthr.
  destruct Hprev as [fprev Hfprev].
  set (d := jsLe (fingerprintDistance (clusterFingerprints st !! Photo.id prev)
                    (clusterFingerprints st1 !! Photo.id photo))
              (clusterThreshold st)).
  assert (Hstep : ∀ cl' cur',
    let r := buildLoop extract rest cl' cur'
               (clusterFingerprints st1 !! Photo.id photo) st1 in
    jsLe (fingerprintDistance (clusterFingerprints r.2 !! Photo.id prev)
            (clusterFingerprints r.2 !! Photo.id photo))
      (clusterThreshold st) = d ∧
    r.1 = reclusterLoop (clusterFingerprints r.2) (clusterThreshold st) photo
            rest cl' cur' ∧
    (∀ k fp, clusterFingerprints st !! k = Some fp →
             clusterFingerprints r.2 !! k = Some fp) ∧
    Forall (λ p, is_Some (clusterFingerprints r.2 !! Photo.id p))
      (photo :: rest) ∧
    clusterThreshold r.2 = clusterThreshold st ∧
    allPhotos r.2 = allPhotos st).
  { intros cl' cur'.
    destruct (IH photo cl' cur' st1 Hphoto1 Hrest1)
      as (H1 & H2 & H3 & H4 & H5).
    simpl. rewrite Hthr in H1. destruct Hphoto1 as [fp Hfp].
    split; [|split; [exact H1|split; [|split]]].
    - rewrite (H2 _ _ Hfp), (H2 _ _ (Hkeep _ _ Hfprev)). subst d.
      by rewrite Hfp, Hfprev.
    - intros k fp' Hk. by apply H2, Hkeep.
    - constructor; [|exact H3]. exists fp. by apply H2.
    - split; congruence. }
  destruct d.
  - destruct (Hstep clusters (cur ++ [photo]))
      as (Hd & H1 & H2 & H3 & H4 & H5).
    simpl in *. rewrite Hd. done.
  - destruct (Hstep (clusters ++ [cur]) [photo])
      as (Hd & H1 & H2 & H3 & H4 & H5).
    simpl in *. rewrite Hd. done.
Qed.

Lemma buildClusters_as_recluster (st : State) :
  Forall (available extract st) (allPhotos st) →
  let st' := buildClusters extract st in
  clusters st' = clusters (recluster st') ∧
  Forall (λ p, is_Some (clusterFingerprints st' !! Photo.id p)) (allPhotos st) ∧
  clusterThreshold st' = clusterThreshold st ∧ allPhotos st' = allPhotos st.
Proof.
  intros Hall. unfold buildClusters, recluster.
  destruct (allPhotos st) as [|first rest] eqn:Hphotos; simpl.
  { rewrite Hphotos. done. }
  apply Forall_cons in Hall as [Hfirst Hrest].
  destruct (createFingerprint_available first st Hfirst)
    as (Hsome & Hcached & Hkeep & Hthr & Hph).
  destruct (createFingerprint extract first st) as [prevFp st0]. simpl in *.
  assert (Hrest0 : Forall (available extract st0) rest).
  { eapply Forall_impl; [exact Hrest|]. intros p [[fp Hp]|Hp]; [left|by right].
    exists fp. by apply Hkeep. }
  assert (Hfirst0 : is_Some (clusterFingerprints st0 !! Photo.id first))
    by (by rewrite Hcached).
  pose proof (buildLoop_as_recluster first rest [] [first] st0 Hfirst0 Hrest0)
    as Hloop.
  rewrite Hcached in Hloop.
  destruct (buildLoop extract rest [] [first] prevFp st0) as [[cl cur] st1].
  destruct Hloop as (H1 & H2 & H3 & H4 & H5). simpl in *.
  rewrite H5, Hph, Hphotos, H4, <- H1. simpl.
  split; [done|]. split; [|split; congruence].
  constructor; [|exact H3].
  destruct Hfirst0 as [fp Hfp]. exists fp. by apply H2.
Qed.
End FirstRun.

(** The two edges of the threshold, for [recluster] on a cache that holds a
    fingerprint for every photo. *)
Lemma recluster_edges (st : State) :
  let photos := allPhotos st in
  let fpOf := λ p, clusterFingerprints st !! Photo.id p in
  photos ≠ [] → Forall (λ p, is_Some (fpOf p)) photos →
  (clusterThreshold st = 0%R → NoDup (fpOf <$> photos) →
     clusters (recluster st) = (λ p, [p]) <$> photos) ∧
  ((∀ i p q, photos !! i = Some p → photos !! S i = Some q →
      jsLt (fingerprintDistance (fpOf p) (fpOf q)) (clusterThreshold st)) →
     clusters (recluster st) = [photos]).
Proof.
  intros photos fpOf Hne Hall. subst photos.
  destruct (allPhotos st) as [|first rest] eqn:Hphotos; [done|].
  pose proof (recluster_clusters st first rest Hphotos) as Hcl. simpl in Hcl.
  assert (Hopen : [first] ≠ []) by done.
  specialize (Hcl (reclusterLoop_open _ _ _ _ _ [first] Hopen)).
  rewrite Hcl. split.
  - intros Hzero Hnd. rewrite Hzero.
    rewrite reclusterLoop_split; [done|].
    intros i p q Hp Hq.
    assert (Hpq : fpOf p ≠ fpOf q).
    { intros Heq.
      assert (i = S i); [|lia].
      apply (NoDup_lookup _ i (S i) (fpOf p) Hnd); rewrite list_lookup_fmap.
      - by rewrite Hp.
      - simpl. rewrite Hq. simpl. by rewrite Heq. }
    assert (Hsp : is_Some (fpOf p)).
    { eapply Forall_forall in Hall; [exact Hall|].
      by eapply list_elem_of_lookup_2. }
    assert (Hsq : is_Some (fpOf q)).
    { eapply Forall_forall in Hall; [exact Hall|].
      apply (list_elem_of_lookup_2 _ (S i)). done. }
    subst fpOf. simpl in *.
    destruct Hsp as [f1 Hf1], Hsq as [f2 Hf2]. rewrite Hf1, Hf2 in *.
    apply distinct_apart. congruence.
  - intros Hlt. rewrite reclusterLoop_join; [done|].
    intros i p q Hp Hq. apply jsLt_jsLe. by apply (Hlt i).
Qed.

(** C8. On a non-empty input with a fingerprint for every photo, at
    threshold 0 with pairwise distinct fingerprints the clusters are the
    singletons of the photos in input order, and at a threshold above the
    distance of every two consecutive photos they are the one cluster of all
    photos in input order.  This holds for [recluster], on the cached
    fingerprints, and for [buildClusters], on the fingerprints it finds cached
    or computes and caches. *)
Theorem C8_cluster_edge_policy (extract : Photo.t → option (list byte))
    (st : State) :
  let photos := allPhotos st in
  photos ≠ [] →
  (Forall (λ p, is_Some (clusterFingerprints st !! Photo.id p)) photos →
     edgePolicy photos (clusterThreshold st) (clusterFingerprints st)
       (clusters (recluster st))) ∧
  (Forall (available extract st) photos →
     edgePolicy photos (clusterThreshold st)
       (clusterFingerprints (buildClusters extract st))
       (clusters (buildClusters extract st))).
Proof.
  intros photos Hne. subst photos. unfold edgePolicy. split.
  - intros Hall. split; [exact Hall|]. by apply recluster_edges.
  - intros Hav.
    destruct (buildClusters_as_recluster extract st Hav)
      as (Hsame & Hall & Hthr & Hphotos).
    split; [exact Hall|].
    rewrite Hsame, <- Hthr, <- Hphotos. apply recluster_edges.
    + by rewrite Hphotos.
    + by rewrite Hphotos.
Qed.

Lemma C8_cluster_edge_policy_witness :
  clusters (recluster (twoPhotos 0)) = [[photoA]; [photoB]] ∧
  clusters (recluster (twoPhotos 256)) = [[photoA; photoB]].
Proof.
  assert (Hall : ∀ t, Forall (λ p, is_Some
                        (clusterFingerprints (twoPhotos t) !! Photo.id p))
                 (allPhotos (twoPhotos t))).
  { intros t. repeat constructor; by eexists. }
  split.
  - destruct (C8_cluster_edge_policy (λ _, None) (twoPhotos 0))
      as [Hre _]; [discriminate|].
    destruct (Hre (Hall _)) as (_ & Hzero & _).
    apply Hzero; [reflexivity|].
    repeat constructor; [|set_solver].
    rewrite list_elem_of_singleton. discriminate.
  - destruct (C8_cluster_edge_policy (λ _, None) (twoPhotos 256))
      as [Hre _]; [discriminate|].
    destruct (Hre (Hall _)) as (_ & _ & Hbig).
    apply Hbig. intros [|[|i]] p q Hp Hq; try discriminate.
    injection Hp as <-. injection Hq as <-.
    destruct (fingerprintDistance_bounded blackFp whiteFp)
      as (d & Hd & _ & Hhi); [reflexivity|discriminate|].
    change (jsLt (fingerprintDistance (Some blackFp) (Some whiteFp)) 256).
    rewrite Hd. simpl. lra.
Defined.

End Clusters.

(** ** More on the Elo updates *)

Section EloMoves.
Local Open Scope R_scope.









End EloMoves.
(** ** What each branch of the scheduler returns *)

Section Branches.

Lemma recentlyCompared_sym (k : nat) (history : list Comparison.t)
    (x y : Entry) :
  recentlyCompared k history x y = recentlyCompared k history y x.
Proof.
  unfold recentlyCompared. induction (slice_last k history) as [|h l IH];
    simpl; [done|].
  rewrite IH. f_equal. apply orb_comm.
Qed.

Lemma firstFreshPartner_fresh (history : list Comparison.t) (x : Entry)
    (rest : list Entry) (p q : Entry) :
  firstFreshPartner history x rest = Some (p, q) →
  recentlyCompared 10 history p q = false.
Proof.
  induction rest as [|y rest IH]; simpl; [discriminate|].
  destruct (recentlyCompared 10 history x y) eqn:Hr; simpl.
  - exact IH.
  - by intros [= <- <-].
Qed.

Lemma firstFreshPartner_None (history : list Comparison.t) (x : Entry)
    (rest : list Entry) :
  firstFreshPartner history x rest = None ↔
  ∀ y, y ∈ rest → recentlyCompared 10 history x y = true.
Proof.
  induction rest as [|y rest IH]; simpl.
  - split; [|done]. intros _ y Hy. by inv Hy.
  - destruct (recentlyCompared 10 history x y) eqn:Hr; simpl.
    + rewrite IH. split.
      * intros H z Hz. apply elem_of_cons in Hz as [->|Hz]; auto.
      * intros H z Hz. apply H. by right.
    + split; [discriminate|]. intros H.
      specialize (H y ltac:(by left)). congruence.
Qed.

Lemma firstFreshPair_fresh (history : list Comparison.t) (l : list Entry)
    (p q : Entry) :
  firstFreshPair history l = Some (p, q) →
  recentlyCompared 10 history p q = false.
Proof.
  induction l as [|x rest IH]; simpl; [discriminate|].
  destruct (firstFreshPartner history x rest) as [[p' q']|] eqn:Hp.
  - intros [= -> ->]. by eapply firstFreshPartner_fresh.
  - exact IH.
Qed.

Lemma firstFreshPair_None (history : list Comparison.t) (l : list Entry) :
  firstFreshPair history l = None ↔
  ∀ i j x y, (i < j)%nat → l !! i = Some x → l !! j = Some y →
    recentlyCompared 10 history x y = true.
Proof.
  induction l as [|x rest IH]; simpl.
  - split; [|done]. intros _ i j a b _ Hi. by destruct i.
  - destruct (firstFreshPartner history x rest) as [[p' q']|] eqn:Hp.
    + split; [discriminate|]. intros H. exfalso.
      pose proof (firstFreshPartner_fresh _ _ _ _ _ Hp) as Hf.
      apply firstFreshPartner_Some in Hp as (-> & k & Hk).
      rewrite (H 0%nat (S k) x q') in Hf; [done|lia|done|done].
    + rewrite firstFreshPartner_None in Hp. rewrite IH. split.
      * intros H [|i] [|j] a b Hij Hi Hj; try lia.
        -- injection Hi as <-. apply Hp. by eapply list_elem_of_lookup_2.
        -- apply (H i j); [lia|done|done].
      * intros H i j a b Hij Hi Hj. apply (H (S i) (S j)); [lia|done|done].
Qed.

Lemma swissScan_fresh (history : list Comparison.t) (l : list Entry)
    (startOffset : nat) (ks : list nat) (p q : Entry) :
  swissScan history l startOffset ks = Some (p, q) →
  recentlyCompared 15 history p q = false.
Proof.
  induction ks as [|k ks IH]; simpl; [discriminate|].
  set (idx := ((k + startOffset) `mod` (length l - 1))%nat).
  destruct (l !! idx) as [x|] eqn:Hx; [|exact IH].
  destruct (l !! S idx) as [y|] eqn:Hy; [|exact IH].
  destruct (recentlyCompared 15 history x y) eqn:Hr; simpl; [exact IH|].
  by intros [= <- <-].
Qed.

Lemma swissScan_None (history : list Comparison.t) (l : list Entry)
    (startOffset : nat) (ks : list nat) :
  swissScan history l startOffset ks = None →
  ∀ k x y, k ∈ ks →
    l !! ((k + startOffset) `mod` (length l - 1))%nat = Some x →
    l !! S ((k + startOffset) `mod` (length l - 1))%nat = Some y →
    recentlyCompared 15 history x y = true.
Proof.
  induction ks as [|k0 ks IH]; simpl; intros Hnone k x y Hk Hx Hy.
  { by inv Hk. }
  apply elem_of_cons in Hk as [->|Hk].
  - rewrite Hx, Hy in Hnone.
    destruct (recentlyCompared 15 history x y); [done|discriminate].
  - apply (IH ltac:(by repeat case_match) k x y Hk Hx Hy).
Qed.

(** The start offset only rotates the scan: every index below [m] is
    visited. *)
Lemma rotation_visits (m startOffset idx : nat) :
  (idx < m)%nat → ∃ k, (k < m)%nat ∧ ((k + startOffset) `mod` m)%nat = idx.
Proof.
  intros Hidx.
  exists ((idx + (m - startOffset `mod` m)) `mod` m)%nat.
  assert (Hm : m ≠ 0%nat) by lia.
  split; [by apply Nat.mod_upper_bound|].
  rewrite Nat.Div0.add_mod_idemp_l.
  pose proof (Nat.div_mod_eq startOffset m) as Hdiv.
  pose proof (Nat.mod_upper_bound startOffset m Hm) as Hlt.
  symmetry. apply (Nat.mod_unique _ _ (S (startOffset / m))); [done|].
  nia.
Qed.

Lemma swissScan_None_all (history : list Comparison.t) (l : list Entry)
    (startOffset : nat) :
  swissScan history l startOffset (seq 0 (length l - 1)) = None →
  ∀ idx x y, l !! idx = Some x → l !! S idx = Some y →
    recentlyCompared 15 history x y = true.
Proof.
  intros Hnone idx x y Hx Hy.
  assert (Hidx : (idx < length l - 1)%nat).
  { apply lookup_lt_Some in Hy. lia. }
  destruct (rotation_visits _ startOffset idx Hidx) as (k & Hk & Hmod).
  apply (swissScan_None _ _ _ _ Hnone k); [|by rewrite Hmod..].
  apply elem_of_seq. lia.
Qed.

Lemma two_members {A} (l : list A) (x y : A) :
  x ∈ l → y ∈ l → x ≠ y →
  ∃ i j, i ≠ j ∧ l !! i = Some x ∧ l !! j = Some y.
Proof.
  intros Hx Hy Hne.
  apply list_elem_of_lookup_1 in Hx as [i Hi].
  apply list_elem_of_lookup_1 in Hy as [j Hj].
  exists i, j. split; [|done]. intros ->. congruence.
Qed.

Lemma StronglySorted_lookup_lt {A} (R : relation A) (l : list A)
    (i j : nat) (x y : A) :
  StronglySorted R l → (i < j)%nat → l !! i = Some x → l !! j = Some y →
  R x y.
Proof.
  intros Hs. revert i j. induction Hs as [|a l Hs IH Hall]; intros i j Hij Hi Hj.
  { by destruct i. }
  destruct j as [|j]; [lia|]. destruct i as [|i]; simpl in *.
  - injection Hi as <-. eapply Forall_forall in Hall; [exact Hall|].
    by eapply list_elem_of_lookup_2.
  - apply (IH i j); [lia|done|done].
Qed.

(** [sortedByElo] lists the candidates from the highest rating down. *)
Lemma sortedByElo_descending (cands : list Entry) (i j : nat) (x y : Entry) :
  (i < j)%nat →
  js_sort (λ a b : Entry, cmpElo a.2 b.2) cands !! i = Some x →
  js_sort (λ a b : Entry, cmpElo a.2 b.2) cands !! j = Some y →
  (Photo.elo y.2 <= Photo.elo x.2)%R.
Proof.
  intros Hij Hi Hj.
  assert (Hs : StronglySorted (mayPrecede (λ a b : Entry, cmpElo a.2 b.2))
                 (js_sort (λ a b : Entry, cmpElo a.2 b.2) cands)).
  { apply js_sort_sorted; unfold mayPrecede, cmpElo; intros; lra. }
  pose proof (StronglySorted_lookup_lt _ _ i j x y Hs Hij Hi Hj) as H.
  unfold mayPrecede, cmpElo in H. lra.
Qed.

(** The counts of the under-compared candidates are within one of every
    count of the pool. *)
Lemma underCompared_near_minimum (st : State) (x z : Entry) :
  x ∈ underCompared st → z ∈ entries (candidates st) →
  orZero (Photo.comparisons x.2) ≤ orZero (Photo.comparisons z.2) + 1.
Proof.
  unfold underCompared. rewrite list_elem_of_filter. intros [Hx Hin] Hz.
  destruct (head (sortedByComparisons st)) as [hd|] eqn:Hhead.
  - pose proof (sortedByComparisons_head st hd Hhead z Hz). simpl in Hx. lia.
  - apply head_None in Hhead. rewrite Hhead in Hin. by inv Hin.
Qed.

(** X3. When two under-compared candidates were not compared with each other
    within the last 10 comparisons, [getNextPair] returns such a pair: two
    different under-compared candidates, not compared with each other within
    the last 10 comparisons, each with a count at most one above every count
    of the pool. *)
Theorem X3_fresh_under_compared_pair (o : Oracle) (st : State) (x y : Entry) :
  OracleOk o →
  x ∈ underCompared st → y ∈ underCompared st → x ≠ y →
  recentlyCompared 10 (comparisonHistory st) x y = false →
  ∃ x' y', getNextPair o st = Some (Some x', Some y') ∧
    x' ∈ underCompared st ∧ y' ∈ underCompared st ∧ x'.1 ≠ y'.1 ∧
    recentlyCompared 10 (comparisonHistory st) x' y' = false ∧
    ∀ z, z ∈ entries (candidates st) →
      orZero (Photo.comparisons x'.2) ≤ orZero (Photo.comparisons z.2) + 1 ∧
      orZero (Photo.comparisons y'.2) ≤ orZero (Photo.comparisons z.2) + 1.
Proof.
  intros [HokU _] Hx Hy Hne Hfresh.
  destruct (underCompared_pool st) as [Hsub Hnd].
  set (shuffled := shuffleUnder o (underCompared st)).
  assert (Hperm : shuffled ≡ₚ underCompared st) by apply HokU.
  destruct (two_members shuffled x y) as (i & j & Hij & Hi & Hj);
    [by rewrite Hperm|by rewrite Hperm|done|].
  assert (Hlen : (2 ≤ length (underCompared st))%nat).
  { rewrite <- Hperm. apply lookup_lt_Some in Hi, Hj. lia. }
  assert (Hlen' : ¬ (length (entries (candidates st)) < 2)%nat).
  { pose proof (length_filter
      (λ e : Entry, orZero (Photo.comparisons e.2)
         ≤ orZero (head (sortedByComparisons st) ≫=
                     λ e, Photo.comparisons e.2) + 1)
      (sortedByComparisons st)) as Hf.
    fold (underCompared st) in Hf.
    rewrite (sortedByComparisons_perm st) in Hf. lia. }
  destruct (firstFreshPair (comparisonHistory st) shuffled)
    as [[x' y']|] eqn:Hpair.
  2:{ exfalso. rewrite firstFreshPair_None in Hpair.
      destruct (decide (i < j)%nat).
      - rewrite (Hpair i j x y) in Hfresh; [done|lia|done|done].
      - rewrite recentlyCompared_sym in Hfresh.
        rewrite (Hpair j i y x) in Hfresh; [done|lia|done|done]. }
  exists x', y'. unfold getNextPair.
  rewrite (bool_decide_eq_false_2 _ Hlen'), (bool_decide_eq_true_2 _ Hlen).
  fold shuffled. rewrite Hpair. split; [done|].
  pose proof (firstFreshPair_fresh _ _ _ _ Hpair) as Hf.
  apply firstFreshPair_Some in Hpair as (i' & j' & Hij' & Hi' & Hj').
  assert (Hx' : x' ∈ underCompared st)
    by (rewrite <- Hperm; by eapply list_elem_of_lookup_2).
  assert (Hy' : y' ∈ underCompared st)
    by (rewrite <- Hperm; by eapply list_elem_of_lookup_2).
  split; [done|]. split; [done|]. split.
  - rewrite <- Hperm in Hnd. intros Heq.
    assert (i' = j'); [|lia].
    apply (NoDup_lookup _ i' j' x'.1 Hnd); rewrite list_lookup_fmap.
    + by rewrite Hi'.
    + rewrite Hj'. simpl. by rewrite Heq.
  - split; [done|]. intros z Hz.
    split; by apply (underCompared_near_minimum st).
Qed.

Lemma X3_fresh_under_compared_pair_witness :
  ∃ x' y',
    getNextPair stillOracle (freshRanking [photoA; photoB; photoC])
      = Some (Some x', Some y') ∧
    x'.1 ≠ y'.1 ∧
    recentlyCompared 10 [] x' y' = false.
Proof.
  destruct (X3_fresh_under_compared_pair stillOracle
              (freshRanking [photoA; photoB; photoC])
              (0%nat, photoA) (1%nat, photoB))
    as (x' & y' & Hrun & _ & _ & Hne & Hfresh & _).
  - split; intros l; reflexivity.
  - rewrite underCompared_at_start by reflexivity. set_solver.
  - rewrite underCompared_at_start by reflexivity. set_solver.
  - intros [=].
  - reflexivity.
  - exists x', y'. split; [exact Hrun|]. split; [exact Hne|exact Hfresh].
Defined.

(** X4. When every two under-compared candidates were compared with each
    other within the last 10 comparisons, [getNextPair] returns two
    neighbours of the rating order, the higher rated first, that were not
    compared with each other within the last 15 comparisons; it returns the
    first two of a random arrangement of the pool only when every two
    neighbours of the rating order were compared that recently. *)
Theorem X4_swiss_fallback (o : Oracle) (st : State) :
  OracleOk o → (2 ≤ length (candidates st))%nat →
  (∀ x y, x ∈ underCompared st → y ∈ underCompared st → x.1 ≠ y.1 →
     recentlyCompared 10 (comparisonHistory st) x y = true) →
  let sortedByElo :=
    js_sort (λ a b : Entry, cmpElo a.2 b.2) (entries (candidates st)) in
  ∃ x' y', getNextPair o st = Some (Some x', Some y') ∧
    ((∃ idx, sortedByElo !! idx = Some x' ∧ sortedByElo !! S idx = Some y' ∧
        (Photo.elo y'.2 <= Photo.elo x'.2)%R ∧
        recentlyCompared 15 (comparisonHistory st) x' y' = false) ∨
     ((∀ idx a b, sortedByElo !! idx = Some a → sortedByElo !! S idx = Some b →
         recentlyCompared 15 (comparisonHistory st) a b = true) ∧
      ∃ rest, shuffleAll o (entries (candidates st)) = x' :: y' :: rest)).
Proof.
  intros [HokU HokA] Hlen Hall sortedByElo.
  destruct (underCompared_pool st) as [Hsub Hnd].
  unfold getNextPair. rewrite length_entries.
  rewrite bool_decide_eq_false_2 by lia.
  assert (Hnofresh :
    (if bool_decide (2 ≤ length (underCompared st))%nat
     then firstFreshPair (comparisonHistory st)
            (shuffleUnder o (underCompared st))
     else None) = None).
  { case_bool_decide; [|done]. apply firstFreshPair_None.
    intros i j x y Hij Hi Hj.
    assert (Hperm : shuffleUnder o (underCompared st) ≡ₚ underCompared st)
      by apply HokU.
    apply Hall.
    - rewrite <- Hperm. by eapply list_elem_of_lookup_2.
    - rewrite <- Hperm. by eapply list_elem_of_lookup_2.
    - rewrite <- Hperm in Hnd. intros Heq.
      assert (i = j); [|lia].
      apply (NoDup_lookup _ i j x.1 Hnd); rewrite list_lookup_fmap.
      + by rewrite Hi.
      + rewrite Hj. simpl. by rewrite Heq. }
  rewrite Hnofresh. fold sortedByElo.
  destruct (swissScan _ sortedByElo _ _) as [[x' y']|] eqn:Hscan.
  - exists x', y'. split; [done|]. left.
    pose proof (swissScan_fresh _ _ _ _ _ _ Hscan) as Hf.
    apply swissScan_Some in Hscan as (idx & Hx & Hy).
    exists idx. split; [done|]. split; [done|]. split; [|done].
    by apply (sortedByElo_descending (entries (candidates st)) idx (S idx));
      [lia|..].
  - assert (Hl : length (shuffleAll o (entries (candidates st)))
                 = length (candidates st)).
    { rewrite (HokA (entries (candidates st))). apply length_entries. }
    destruct (shuffleAll o (entries (candidates st))) as [|x' [|y' rest]]
      eqn:Hsh; simpl in Hl; try lia.
    exists x', y'. split; [done|]. right. split; [|by exists rest].
    by apply (swissScan_None_all _ _ _ Hscan).
Qed.


Lemma X4_swiss_fallback_witness :
  ∃ x' y',
    getNextPair stillOracle
      (set_comparisonHistory [recordOf photoA photoB WinnerNull]
         (freshRanking [photoA; photoB]))
    = Some (Some x', Some y').
Proof.
  set (st := set_comparisonHistory [recordOf photoA photoB WinnerNull]
               (freshRanking [photoA; photoB])).
  assert (Hunder : underCompared st = [(0%nat, photoA); (1%nat, photoB)]).
  { unfold underCompared, sortedByComparisons.
    change (entries (candidates st))
      with [(0%nat, photoA); (1%nat, photoB)].
    unfold js_sort. cbn [foldr js_insert snd].
    rewrite (cmpComparisons_tie photoA photoB) by (simpl; first [lia | lra]).
    reflexivity. }
  destruct (X4_swiss_fallback stillOracle st) as (x' & y' & Hrun & _).
  - split; intros l; reflexivity.
  - simpl. lia.
  - intros x y. rewrite Hunder. intros Hx Hy Hne.
    apply elem_of_cons in Hx as [->|Hx], Hy as [->|Hy];
      try apply list_elem_of_singleton in Hx as ->;
      try apply list_elem_of_singleton in Hy as ->;
      try done; reflexivity.
  - by exists x', y'.
Defined.

End Branches.
(** ** The ranking loop as a whole *)

Section Loop.

Lemma fmap_restorePhoto (found : option (nat * Photo.t)) (e : R)
    (c : option Z) (h : list Photo.t) :
  Photo.id <$> restorePhoto found e c h = Photo.id <$> h.
Proof.
  destruct found as [[i p]|]; simpl; [|done]. by apply fmap_alter_same.
Qed.

Lemma confirmComparison_ids (o : Oracle) (st st' : State) :
  confirmComparison o st = Some st' →
  Photo.id <$> candidates st' = Photo.id <$> candidates st ∧
  length (comparisonHistory st') = S (length (comparisonHistory st)) ∧
  comparisonsCompleted st' = comparisonsCompleted st + 1.
Proof.
  unfold confirmComparison.
  destruct (currentPair st) as [[[refA|] [refB|]]|] eqn:Hpair;
    try discriminate.
  destruct (candidates st !! refA) as [pa|] eqn:Ha; [|discriminate].
  destruct (candidates st !! refB) as [pb|] eqn:Hb; [|discriminate].
  intros Hrun.
  destruct (confirmComparison_effect o st refA refB pa pb Hpair Ha Hb)
    as (st1 & Hrun1 & Hids & Hh & Hc).
  unfold confirmComparison in Hrun1. rewrite Hpair, Ha, Hb in Hrun1.
  rewrite Hrun1 in Hrun. injection Hrun as <-.
  split; [done|]. split; [|done].
  rewrite Hh, length_app. simpl. lia.
Qed.

Lemma skipComparison_ids (o : Oracle) (st st' : State) :
  skipComparison o st = Some st' →
  Photo.id <$> candidates st' = Photo.id <$> candidates st ∧
  length (comparisonHistory st') = S (length (comparisonHistory st)) ∧
  comparisonsCompleted st' = comparisonsCompleted st + 1.
Proof.
  unfold skipComparison.
  destruct (currentPair st) as [[[refA|] [refB|]]|] eqn:Hpair;
    try discriminate.
  destruct (candidates st !! refA) as [pa|] eqn:Ha; [|discriminate].
  destruct (candidates st !! refB) as [pb|] eqn:Hb; [|discriminate].
  intros Hrun.
  destruct (skipComparison_effect o st refA refB pa pb Hpair Ha Hb)
    as (st1 & Hrun1 & Hids & Hh & Hc).
  unfold skipComparison in Hrun1. rewrite Hpair, Ha, Hb in Hrun1.
  rewrite Hrun1 in Hrun. injection Hrun as <-.
  split; [done|]. split; [|done].
  rewrite Hh, length_app. simpl. lia.
Qed.

Lemma undoComparison_empty (o : Oracle) (st : State) :
  comparisonHistory st = [] → undoComparison o st = st.
Proof. intros H. unfold undoComparison. by rewrite H. Qed.

Lemma undoComparison_ids (o : Oracle) (st : State) :
  Photo.id <$> candidates (undoComparison o st) = Photo.id <$> candidates st.
Proof.
  destruct (comparisonHistory st) as [|r0 hist0] eqn:Hh using rev_ind.
  { by rewrite undoComparison_empty. }
  destruct (undoComparison_effect o st _ _ Hh) as (-> & _ & _).
  by rewrite !fmap_restorePhoto.
Qed.

(** X5. Confirming, skipping and undoing a comparison, and drawing the next
    pair, never add, remove, reorder or rename a candidate: the ids of
    [state.candidates] stay as they are, position by position. *)
Theorem X5_pool_is_stable (o : Oracle) (st : State) :
  (∀ st', confirmComparison o st = Some st' →
     Photo.id <$> candidates st' = Photo.id <$> candidates st) ∧
  (∀ st', skipComparison o st = Some st' →
     Photo.id <$> candidates st' = Photo.id <$> candidates st) ∧
  Photo.id <$> candidates (undoComparison o st) = Photo.id <$> candidates st ∧
  Photo.id <$> candidates (showNextComparison o st)
    = Photo.id <$> candidates st.
Proof.
  split; [|split; [|split]].
  - intros st' H. by apply confirmComparison_ids in H as [? _].
  - intros st' H. by apply skipComparison_ids in H as [? _].
  - apply undoComparison_ids.
  - by destruct (showNextComparison_frame o st) as (-> & _).
Qed.

(** X6. The history and the counter move together: a confirmed or skipped
    comparison adds one entry and one to [comparisonsCompleted], an undo
    takes one entry and one off, and an undo on an empty history changes
    nothing at all; a counter equal to the length of the history stays so. *)
Theorem X6_history_and_counter (o : Oracle) (st : State) :
  comparisonsCompleted st = Z.of_nat (length (comparisonHistory st)) →
  let inStep (st' : State) :=
    comparisonsCompleted st' = Z.of_nat (length (comparisonHistory st')) in
  (∀ st', confirmComparison o st = Some st' →
     inStep st' ∧
     length (comparisonHistory st') = S (length (comparisonHistory st))) ∧
  (∀ st', skipComparison o st = Some st' →
     inStep st' ∧
     length (comparisonHistory st') = S (length (comparisonHistory st))) ∧
  inStep (undoComparison o st) ∧
  (comparisonHistory st = [] → undoComparison o st = st) ∧
  (comparisonHistory st ≠ [] →
     S (length (comparisonHistory (undoComparison o st)))
     = length (comparisonHistory st)).
Proof.
  intros Hstep inStep. subst inStep. simpl.
  split; [|split; [|split; [|split]]].
  - intros st' H. apply confirmComparison_ids in H as (_ & Hl & Hc).
    split; [lia|done].
  - intros st' H. apply skipComparison_ids in H as (_ & Hl & Hc).
    split; [lia|done].
  - destruct (comparisonHistory st) as [|r0 hist0] eqn:Hh using rev_ind.
    { by rewrite undoComparison_empty, Hh. }
    destruct (undoComparison_effect o st _ _ Hh) as (_ & -> & ->).
    rewrite Hstep, length_app. simpl. lia.
  - apply undoComparison_empty.
  - intros Hne.
    destruct (comparisonHistory st) as [|r0 hist0] eqn:Hh using rev_ind;
      [done|].
    destruct (undoComparison_effect o st _ _ Hh) as (_ & -> & _).
    rewrite length_app. simpl. lia.
Qed.

Lemma X6_history_and_counter_witness :
  comparisonsCompleted (undoComparison stillOracle pairASelected)
  = Z.of_nat
      (length (comparisonHistory (undoComparison stillOracle pairASelected))).
Proof.
  destruct (X6_history_and_counter stillOracle pairASelected)
    as (_ & _ & Hundo & _); [reflexivity|exact Hundo].
Defined.

(** A confirmation with nothing selected rates nobody. *)
Lemma confirmComparison_unselected (o : Oracle) (st : State)
    (refA refB : nat) (pa pb : Photo.t) :
  currentPair st = Some (Some refA, Some refB) →
  candidates st !! refA = Some pa → candidates st !! refB = Some pb →
  currentSelection st = [] →
  ∃ st', confirmComparison o st = Some (showNextComparison o st') ∧
    candidates st' = candidates st ∧
    comparisonHistory st' = comparisonHistory st ++
      [recordOf pa pb WinnerUndefined].
Proof.
  intros Hpair Ha Hb Hsel. unfold confirmComparison.
  rewrite Hpair, Ha, Hb, Hsel. simpl.
  rewrite (proj2 (list_find_None _ _)); [|by apply Forall_forall].
  simpl. eexists. split; [reflexivity|]. done.
Qed.

Lemma skipComparison_tie (o : Oracle) (st : State) (refA refB : nat)
    (pa pb : Photo.t) :
  currentPair st = Some (Some refA, Some refB) →
  candidates st !! refA = Some pa → candidates st !! refB = Some pb →
  ∃ h' st', updateEloTie refA refB (candidates st) = Some h' ∧
    skipComparison o st = Some (showNextComparison o st') ∧
    candidates st' = h' ∧
    comparisonHistory st' = comparisonHistory st ++
      [recordOf pa pb WinnerNull].
Proof.
  intros Hpair Ha Hb. unfold skipComparison. rewrite Hpair, Ha, Hb. simpl.
  destruct (updateEloTie_is_Some refA refB (candidates st)) as [h' Hrun];
    eauto.
  rewrite Hrun. simpl. eexists h', _. split; [done|]. split; [reflexivity|].
  done.
Qed.

(** Undoing the entry of the pair over a store that differs from the old one
    at the pair only gives the old store back. *)
Lemma restore_store (h h' : list Photo.t) (ia ib : nat) (pa pb : Photo.t) :
  NoDup (Photo.id <$> h) → Photo.id <$> h' = Photo.id <$> h →
  h !! ia = Some pa → h !! ib = Some pb →
  (∀ k, k ≠ ia → k ≠ ib → h' !! k = h !! k) →
  restorePhoto (list_find (λ q, Photo.id q = Photo.id pb) h')
    (Photo.elo pb) (Photo.comparisons pb)
    (restorePhoto (list_find (λ q, Photo.id q = Photo.id pa) h')
       (Photo.elo pa) (Photo.comparisons pa) h') = h.
Proof.
  intros Hnd Hids Ha Hb Hother.
  destruct (restore_pair h h' ia ib pa pb Hnd Hids Ha Hb) as (H1 & H2 & H3).
  apply list_eq. intros k.
  destruct (decide (k = ia)) as [->|Hka]; [by rewrite H1, Ha|].
  destruct (decide (k = ib)) as [->|Hkb]; [by rewrite H2, Hb|].
  rewrite H3 by done. by apply Hother.
Qed.

(** X7. An undo takes back the whole effect of the comparison before it on
    the candidates: after a confirmation with a photo of the pair selected or
    with nothing selected, and after a skip, all of [state.candidates] is as
    it was before, not only the pair. *)
Theorem X7_undo_restores_pool (o o' : Oracle) (st : State)
    (refA refB : nat) (pa pb : Photo.t) :
  NoDup (Photo.id <$> candidates st) →
  currentPair st = Some (Some refA, Some refB) →
  candidates st !! refA = Some pa → candidates st !! refB = Some pb →
  refA ≠ refB →
  (currentSelection st = [] ∨
   head (currentSelection st) = Some (Photo.id pa) ∨
   head (currentSelection st) = Some (Photo.id pb)) →
  (∃ st1, confirmComparison o st = Some st1 ∧
     candidates (undoComparison o' st1) = candidates st) ∧
  (∃ st1, skipComparison o st = Some st1 ∧
     candidates (undoComparison o' st1) = candidates st).
Proof.
  intros Hnd Hpair Ha Hb Hne Hsel.
  assert (Hundo : ∀ st' w h', 
    candidates st' = h' → Photo.id <$> h' = Photo.id <$> candidates st →
    (∀ k, k ≠ refA → k ≠ refB → h' !! k = candidates st !! k) →
    comparisonHistory st' = comparisonHistory st ++ [recordOf pa pb w] →
    candidates (undoComparison o' (showNextComparison o st'))
    = candidates st).
  { intros st' w h' Hc Hids Hother Hh.
    destruct (showNextComparison_frame o st') as (Hc1 & Hh1 & _).
    rewrite Hh in Hh1.
    destruct (undoComparison_effect o' _ _ _ Hh1) as (-> & _ & _).
    rewrite Hc1, Hc. simpl. by apply (restore_store _ _ refA refB). }
  split.
  - destruct Hsel as [Hsel|Hsel].
    + destruct (confirmComparison_unselected o st refA refB pa pb
                  Hpair Ha Hb Hsel) as (st' & Hrun & Hc & Hh).
      eexists. split; [exact Hrun|].
      by eapply (Hundo st'); [exact Hc| | |exact Hh].
    + assert (Hwin : ∃ w l pw pl,
                ((w = refA ∧ l = refB) ∨ (w = refB ∧ l = refA)) ∧ w ≠ l ∧
                candidates st !! w = Some pw ∧ candidates st !! l = Some pl ∧
                head (currentSelection st) = Some (Photo.id pw)).
      { destruct Hsel as [Hsel|Hsel].
        - exists refA, refB, pa, pb. auto 10.
        - exists refB, refA, pb, pa. auto 10. }
      destruct Hwin as (w & l & pw & pl & Hwl & Hwl' & Hw & Hl & Hhead).
      destruct (confirmComparison_win o st refA refB w l pa pb pw pl
                  Hnd Hpair Ha Hb Hwl Hwl' Hw Hl Hhead)
        as (h' & st' & Hupd & Hrun & Hc & Hh).
      eexists. split; [exact Hrun|].
      eapply (Hundo st'); [exact Hc| | |exact Hh].
      * by apply updateEloRatings_ids in Hupd.
      * destruct (updateEloRatings_lookup _ w l pw pl Hw Hl Hwl')
          as (h'' & Hupd' & _ & _ & Hk).
        rewrite Hupd in Hupd'. injection Hupd' as <-.
        intros k Hka Hkb. apply Hk; destruct Hwl as [[-> ->]|[-> ->]]; done.
  - destruct (skipComparison_tie o st refA refB pa pb Hpair Ha Hb)
      as (h' & st' & Hupd & Hrun & Hc & Hh).
    eexists. split; [exact Hrun|].
    eapply (Hundo st'); [exact Hc| | |exact Hh].
    + by apply updateEloTie_ids in Hupd.
    + destruct (updateEloTie_lookup _ refA refB pa pb Ha Hb Hne)
        as (h'' & Hupd' & _ & _ & Hk).
      rewrite Hupd in Hupd'. injection Hupd' as <-. done.
Qed.

Lemma X7_undo_restores_pool_witness :
  ∃ st1, confirmComparison stillOracle pairBSelected = Some st1 ∧
    candidates (undoComparison stillOracle st1) = [photoA; photoB; photoC].
Proof.
  destruct (X7_undo_restores_pool stillOracle stillOracle pairBSelected 0 1
              photoA photoB) as [(st1 & Hrun & Hc) _].
  - apply (bool_decide_unpack _). vm_compute. reflexivity.
  - reflexivity.
  - reflexivity.
  - reflexivity.
  - lia.
  - right. right. reflexivity.
  - exists st1. split; [exact Hrun|exact Hc].
Defined.

Lemma toggleRankingSelection_frame (photoId : string) (st : State) :
  candidates (toggleRankingSelection photoId st) = candidates st ∧
  comparisonHistory (toggleRankingSelection photoId st)
    = comparisonHistory st ∧
  currentPair (toggleRankingSelection photoId st) = currentPair st ∧
  comparisonsCompleted (toggleRankingSelection photoId st)
    = comparisonsCompleted st.
Proof. unfold toggleRankingSelection. by case_bool_decide. Qed.

Lemma toggleRankingSelection_select (photoId : string) (st : State) :
  photoId ∉ currentSelection st →
  currentSelection (toggleRankingSelection photoId st) = [photoId].
Proof.
  intros H. unfold toggleRankingSelection. by rewrite bool_decide_eq_false_2.
Qed.

(** X8. Clicking a photo of the pair that is not selected makes it the only
    selected one, whatever was selected before, and confirming then rates it
    as the winner over the other photo of the pair: the candidates are those
    [updateEloRatings] leaves and the history ends with the pair and that
    winner. *)
Theorem X8_click_then_confirm (o : Oracle) (st : State)
    (refA refB w l : nat) (pa pb pw pl : Photo.t) :
  NoDup (Photo.id <$> candidates st) →
  currentPair st = Some (Some refA, Some refB) →
  candidates st !! refA = Some pa → candidates st !! refB = Some pb →
  (w = refA ∧ l = refB) ∨ (w = refB ∧ l = refA) → w ≠ l →
  candidates st !! w = Some pw → candidates st !! l = Some pl →
  Photo.id pw ∉ currentSelection st →
  let clicked := toggleRankingSelection (Photo.id pw) st in
  currentSelection clicked = [Photo.id pw] ∧
  ∃ h' st1, updateEloRatings w l (candidates st) = Some h' ∧
    confirmComparison o clicked = Some st1 ∧
    candidates st1 = h' ∧
    comparisonHistory st1 = comparisonHistory st ++
      [recordOf pa pb (WinnerId (Photo.id pw))] ∧
    currentSelection st1 = [].
Proof.
  intros Hnd Hpair Ha Hb Hwl Hne Hw Hl Hsel clicked.
  destruct (toggleRankingSelection_frame (Photo.id pw) st)
    as (Hc & Hh & Hp & _).
  pose proof (toggleRankingSelection_select _ _ Hsel) as Hs.
  fold clicked in Hc, Hh, Hp, Hs.
  split; [exact Hs|].
  destruct (confirmComparison_win o clicked refA refB w l pa pb pw pl)
    as (h' & st' & Hupd & Hrun & Hc' & Hh'); rewrite ?Hc, ?Hp, ?Hs; try done.
  rewrite Hc in Hupd. rewrite Hh in Hh'.
  exists h', (showNextComparison o st').
  split; [exact Hupd|]. split; [exact Hrun|].
  destruct (showNextComparison_frame o st') as (-> & -> & _).
  split; [exact Hc'|]. split; [exact Hh'|].
  assert (Hlen : (2 ≤ length (candidates st'))%nat).
  { rewrite Hc'. apply updateEloRatings_ids in Hupd.
    rewrite <- (length_fmap Photo.id), Hupd, length_fmap.
    apply lookup_lt_Some in Hw, Hl. lia. }
  unfold showNextComparison.
  destruct (getNextPair o st') as [[x y]|] eqn:Hpair'.
  - unfold calculateConfidence. by repeat case_match.
  - apply getNextPair_None_short in Hpair'. lia.
Qed.

Lemma X8_click_then_confirm_witness :
  currentSelection (toggleRankingSelection "photo-1" pairASelected)
  = ["photo-1"] ∧
  ∃ h' st1, updateEloRatings 1 0 (candidates pairASelected) = Some h' ∧
    confirmComparison stillOracle
      (toggleRankingSelection "photo-1" pairASelected) = Some st1 ∧
    candidates st1 = h'.
Proof.
  destruct (X8_click_then_confirm stillOracle pairASelected 0 1 1 0
              photoA photoB photoB photoA)
    as (Hsel & h' & st1 & Hupd & Hrun & Hc & _).
  - apply (bool_decide_unpack _). vm_compute. reflexivity.
  - reflexivity.
  - reflexivity.
  - reflexivity.
  - by right.
  - lia.
  - reflexivity.
  - reflexivity.
  - simpl. rewrite list_elem_of_singleton. discriminate.
  - split; [exact Hsel|]. exists h', st1. auto.
Defined.

End Loop.
(** ** Results *)

Section Results.

Lemma sorted_by_elo (cands : list Photo.t) :
  StronglySorted (mayPrecede cmpElo) (js_sort cmpElo cands).
Proof. apply js_sort_sorted; unfold mayPrecede, cmpElo; intros; lra. Qed.

Lemma slice_to_take {A} (end_ : Z) (l : list A) :
  ∃ n, slice_to end_ l = take n l ∧
    (0 ≤ end_ → n = Z.to_nat end_).
Proof.
  unfold slice_to. case_bool_decide.
  - eexists. split; [done|lia].
  - eexists. split; [done|done].
Qed.

(** X9. [finishRanking] leaves the candidates rearranged from the highest
    rating down; the final selection [showResults] then takes is what the
    top-ranked preview showed before, no candidate left out of it is rated
    above a selected one, and for a target count of at least 0 it holds that
    many photos, or all candidates when there are fewer. *)
Theorem X9_final_selection_is_top (st : State) :
  let st' := finishRanking st in
  let final := showResults st' in
  candidates st' ≡ₚ candidates st ∧
  (∀ i j p q, (i < j)%nat → candidates st' !! i = Some p →
     candidates st' !! j = Some q → (Photo.elo q <= Photo.elo p)%R) ∧
  final = openTopRankedPreview st ∧
  (∀ i j p q, final !! i = Some p → candidates st' !! j = Some q →
     (length final ≤ j)%nat → (Photo.elo q <= Photo.elo p)%R) ∧
  (0 ≤ targetCount st →
     length final
     = Nat.min (Z.to_nat (targetCount st)) (length (candidates st))).
Proof.
  intros st' final. subst st' final.
  unfold showResults, openTopRankedPreview, finishRanking. simpl.
  assert (Hsorted : ∀ i j p q, (i < j)%nat →
            js_sort cmpElo (candidates st) !! i = Some p →
            js_sort cmpElo (candidates st) !! j = Some q →
            (Photo.elo q <= Photo.elo p)%R).
  { intros i j p q Hij Hi Hj.
    pose proof (StronglySorted_lookup_lt _ _ i j p q
                  (sorted_by_elo (candidates st)) Hij Hi Hj) as H.
    unfold mayPrecede, cmpElo in H. lra. }
  split; [apply js_sort_perm|]. split; [exact Hsorted|].
  split; [done|].
  destruct (slice_to_take (targetCount st) (js_sort cmpElo (candidates st)))
    as (n & -> & Hn).
  split.
  - intros i j p q Hi Hj Hlen.
    apply lookup_take_Some in Hi as [Hi Hin].
    apply (Hsorted i j); [|done|done].
    apply lookup_lt_Some in Hi. rewrite length_take in Hlen. lia.
  - intros Hpos. rewrite length_take, (Hn Hpos).
    by rewrite (Permutation_length (js_sort_perm cmpElo (candidates st))).
Qed.
End Results.
(** ** What the confidence measures *)

Section Stability.

(** The test of the stability loop is equality of the two sets. *)
Lemma identical_eq (prevSet currSet : gset string) :
  identical prevSet currSet = true ↔ prevSet = currSet.
Proof.
  unfold identical. split.
  - case_bool_decide as Hsize; [discriminate|].
    intros Hall. rewrite forallb_forall in Hall.
    assert (Hsub : currSet ⊆ prevSet).
    { intros i Hi. apply elem_of_elements, list_elem_of_In, Hall in Hi.
      by apply bool_decide_eq_true in Hi. }
    symmetry. apply set_subseteq_size_eq; [done|lia].
  - intros ->. rewrite bool_decide_eq_false_2 by (intros H; by apply H).
    apply forallb_forall. intros i Hi.
    apply bool_decide_eq_true. by apply elem_of_elements, list_elem_of_In.
Qed.

Lemma stableCount_all (s : gset string) (sets : list (gset string)) :
  Forall (λ s', s' = s) sets → stableCount sets = (length sets - 1)%nat.
Proof.
  induction 1 as [|s0 [|s1 sets] -> Hall IH]; simpl in *; try done.
  apply Forall_cons in Hall as [-> Hall].
  rewrite (proj2 (identical_eq s s)) by done. rewrite IH. lia.
Qed.

Lemma stableCount_none (sets : list (gset string)) :
  (∀ i s s', sets !! i = Some s → sets !! S i = Some s' → s ≠ s') →
  stableCount sets = 0%nat.
Proof.
  induction sets as [|s0 [|s1 sets] IH]; intros Hne; simpl in *; try done.
  destruct (identical s0 s1) eqn:Hid.
  - apply identical_eq in Hid. by destruct (Hne 0%nat s0 s1).
  - simpl. apply IH. intros i s s'. apply (Hne (S i)).
Qed.

Lemma pushSnapshot_Forall (P : gset string → Prop) (s : gset string)
    (sets : list (gset string)) :
  P s → Forall P sets → Forall P (pushSnapshot s sets).
Proof.
  intros Hs Hall. unfold pushSnapshot.
  assert (Forall P (sets ++ [s])) by (apply Forall_app; auto).
  case_bool_decide; [by apply Forall_drop|done].
Qed.

Lemma pushSnapshot_length (s : gset string) (sets : list (gset string)) :
  (2 ≤ length sets)%nat → (3 ≤ length (pushSnapshot s sets))%nat.
Proof.
  intros H. unfold pushSnapshot. case_bool_decide as Hlen.
  - rewrite length_drop. lia.
  - rewrite length_app. simpl. lia.
Qed.

Lemma filter_all {A} (P : A → Prop) `{∀ x, Decision (P x)} (l : list A) :
  Forall P l → filter P l = l.
Proof.
  induction 1 as [|x l Hx _ IH]; [done|].
  rewrite filter_cons_True by done. by rewrite IH.
Qed.

Lemma Math_round_int (z : Z) : Math_round (IZR z) = z.
Proof.
  unfold Math_round. apply Zfloor_eq. lra.
Qed.

Lemma INR_ratio_1 (n : nat) : (0 < n)%nat → (INR n / INR n = 1)%R.
Proof.
  intros H. apply lt_0_INR in H. unfold Rdiv. rewrite Rinv_r; lra.
Qed.

(** The value [calculateConfidence] returns once three snapshots are held. *)
Lemma calculateConfidence_value (st : State) :
  ¬ tooEarly st → (2 ≤ length (previousTopNSets st))%nat →
  let sets := pushSnapshot (currentTopNIds st) (previousTopNSets st) in
  let comparedCount :=
    length (filter (λ p, 1 ≤ orZero (Photo.comparisons p)) (candidates st)) in
  (calculateConfidence st).1
  = Z.min 100
      (Math_round (INR comparedCount / INR (length (candidates st)) * 30
                   + INR (stableCount sets) / INR (length sets - 1) * 70)).
Proof.
  intros Hgo Hlen sets comparedCount.
  pose proof (pushSnapshot_length (currentTopNIds st) _ Hlen) as Hlen'.
  unfold calculateConfidence, tooEarly in *.
  rewrite !bool_decide_eq_false_2 by (simpl; lia). reflexivity.
Qed.

(** X10. With two snapshots or more already held and the guard passed: when
    every snapshot held equals the current top-N set the confidence is at
    least 70, and 100 when every candidate has been compared; when no two
    consecutive snapshots of the new history are equal it is at most 30. *)
Theorem X10_confidence_extremes (st : State) :
  ¬ tooEarly st → (2 ≤ length (previousTopNSets st))%nat →
  let c := (calculateConfidence st).1 in
  let sets := previousTopNSets (calculateConfidence st).2 in
  (Forall (λ s, s = currentTopNIds st) (previousTopNSets st) →
     70 ≤ c ∧
     (Forall (λ p, 1 ≤ orZero (Photo.comparisons p)) (candidates st) →
      c = 100)) ∧
  ((∀ i s s', sets !! i = Some s → sets !! S i = Some s' → s ≠ s') →
     c ≤ 30).
Proof.
  intros Hgo Hlen c sets. subst c sets.
  rewrite calculateConfidence_value, calculateConfidence_sets by done.
  pose proof (pushSnapshot_length (currentTopNIds st) _ Hlen) as Hlen'.
  set (sets := pushSnapshot (currentTopNIds st) (previousTopNSets st)) in *.
  assert (Hn : (2 ≤ length (candidates st))%nat)
    by (unfold tooEarly in Hgo; lia).
  set (comparedCount := length (filter _ (candidates st))).
  assert (Hcov : (0 <= INR comparedCount / INR (length (candidates st)) <= 1)%R).
  { split; [apply ratio_nonneg; lia|].
    apply ratio_le_1; [lia|]. apply length_filter. }
  split.
  - intros Hall.
    assert (Hst : stableCount sets = (length sets - 1)%nat).
    { apply (stableCount_all (currentTopNIds st)).
      by apply pushSnapshot_Forall. }
    rewrite Hst, INR_ratio_1 by lia. split.
    + apply Z.min_glb; [lia|]. apply Zfloor_lub. lra.
    + intros Hcompared.
      assert (Hfull : comparedCount = length (candidates st)).
      { subst comparedCount. by rewrite filter_all. }
      rewrite Hfull, INR_ratio_1 by lia.
      replace (1 * 30 + 1 * 70)%R with (IZR 100) by lra.
      by rewrite Math_round_int.
  - intros Hne. rewrite (stableCount_none sets Hne).
    transitivity (Math_round
      (INR comparedCount / INR (length (candidates st)) * 30
       + INR 0 / INR (length sets - 1) * 70)); [apply Z.le_min_r|].
    apply Math_round_le. simpl. lra.
Qed.

Lemma X10_confidence_extremes_witness :
  70 ≤ (calculateConfidence stableSession).1.
Proof.
  destruct (X10_confidence_extremes stableSession) as [Hstable _].
  - unfold tooEarly. simpl. lia.
  - simpl. lia.
  - apply Hstable. repeat constructor.
Defined.

End Stability.
(** ** Where clusters begin *)

Section Boundaries.

Lemma startsFrom_snoc (off : nat) (clusters : list (list Photo.t))
    (c : list Photo.t) :
  startsFrom off (clusters ++ [c])
  = startsFrom off clusters ++ [(off + length (concat clusters))%nat].
Proof.
  revert off. induction clusters as [|c0 clusters IH]; intros off; simpl.
  - by rewrite Nat.add_0_r.
  - rewrite IH, length_app. do 3 f_equal. lia.
Qed.

Lemma startsFrom_lookup (off : nat) (clusters : list (list Photo.t))
    (k i : nat) :
  startsFrom off clusters !! k = Some i ↔
  (k < length clusters)%nat ∧ i = (off + clusterStart clusters k)%nat.
Proof.
  revert off k. induction clusters as [|c clusters IH]; intros off k; simpl.
  - split; [done|]. intros [H _]. lia.
  - destruct k as [|k]; simpl.
    + rewrite clusterStart_0. split.
      * intros [= <-]. split; lia.
      * intros [_ ->]. f_equal. lia.
    + rewrite IH, clusterStart_S. split; intros [H ->]; split; lia.
Qed.

Lemma isClusterStart_startsFrom (clusters : list (list Photo.t)) (i : nat) :
  isClusterStart clusters i ↔ i ∈ startsFrom 0 clusters.
Proof.
  unfold isClusterStart. rewrite list_elem_of_lookup. split.
  - intros (k & c & Hk & <-). exists k. apply startsFrom_lookup.
    split; [by eapply lookup_lt_Some|done].
  - intros (k & Hk). apply startsFrom_lookup in Hk as [Hlt ->].
    destruct (lookup_lt_is_Some_2 clusters k Hlt) as [c Hc].
    by exists k, c.
Qed.

Lemma chainLoop_starts (joins : list bool) (photos : list Photo.t)
    (clusters : list (list Photo.t)) (currentCluster : list Photo.t) :
  length joins = length photos →
  let r := chainLoop joins photos clusters currentCluster in
  startsFrom 0 (r.1 ++ [r.2])
  = startsFrom 0 (clusters ++ [currentCluster])
    ++ breaksFrom (length (concat clusters) + length currentCluster) joins.
Proof.
  revert joins clusters currentCluster.
  induction photos as [|photo rest IH]; intros [|join joins] clusters cur Hlen;
    simpl in *; try done.
  { by rewrite app_nil_r. }
  destruct join.
  - rewrite IH by lia. rewrite !startsFrom_snoc, length_app. simpl.
    rewrite <- !app_assoc. simpl. repeat f_equal. lia.
  - rewrite IH by lia. rewrite !startsFrom_snoc, concat_app, !length_app.
    simpl. rewrite app_nil_r, <- !app_assoc. simpl. repeat f_equal; lia.
Qed.

Lemma breaksFrom_elem (off : nat) (joins : list bool) (i : nat) :
  i ∈ breaksFrom off joins ↔
  ∃ j, i = (off + j)%nat ∧ joins !! j = Some false.
Proof.
  revert off. induction joins as [|join joins IH]; intros off; simpl.
  - split; [by intros H; inv H|]. by intros (j & _ & H).
  - rewrite elem_of_app, IH. split.
    + intros [H|(j & -> & Hj)].
      * destruct join; [by inv H|]. apply list_elem_of_singleton in H as ->.
        exists 0%nat. split; [lia|done].
      * exists (S j). split; [lia|done].
    + intros ([|j] & -> & Hj); simpl in Hj.
      * injection Hj as ->. left. rewrite Nat.add_0_r. by left.
      * right. exists j. split; [lia|done].
Qed.

Lemma breaksFrom_length (off : nat) (joins : list bool) :
  length (breaksFrom off joins) = length (filter (λ b, b = false) joins).
Proof.
  revert off. induction joins as [|[] joins IH]; intros off; [done|..].
  - rewrite filter_cons_False by done. apply IH.
  - rewrite filter_cons_True by done. simpl. f_equal. apply IH.
Qed.

Lemma startsFrom_length (off : nat) (clusters : list (list Photo.t)) :
  length (startsFrom off clusters) = length clusters.
Proof.
  revert off. induction clusters as [|c clusters IH]; intros off; simpl;
    [done|]. by rewrite IH.
Qed.

(** Both loops are the chain loop on the outcomes of their comparisons. *)
Lemma reclusterLoop_chain (fps : gmap string (list byte)) (threshold : R)
    (prev : Photo.t) (photos : list Photo.t)
    (clusters : list (list Photo.t)) (currentCluster : list Photo.t) :
  reclusterLoop fps threshold prev photos clusters currentCluster
  = chainLoop
      (joinsOf threshold ((λ p, fps !! Photo.id p) <$> prev :: photos))
      photos clusters currentCluster.
Proof.
  revert prev clusters currentCluster.
  induction photos as [|photo rest IH]; intros prev clusters cur; [done|].
  simpl. unfold joinsOf in *. simpl.
  destruct (jsLe _ _); apply IH.
Qed.

Lemma buildLoop_chain (extract : Photo.t → option (list byte))
    (photos : list Photo.t) (clusters : list (list Photo.t))
    (currentCluster : list Photo.t) (prevFp : option (list byte))
    (st : State) :
  (buildLoop extract photos clusters currentCluster prevFp st).1
  = chainLoop
      (joinsOf (clusterThreshold st)
         (prevFp :: fingerprintsSeen extract photos st))
      photos clusters currentCluster.
Proof.
  revert clusters currentCluster prevFp st.
  induction photos as [|photo rest IH]; intros clusters cur prevFp st;
    [done|].
  simpl. unfold joinsOf in *.
  destruct (createFingerprint extract photo st) as [currFp st'] eqn:Hfp.
  assert (Hthr : clusterThreshold st' = clusterThreshold st).
  { unfold createFingerprint in Hfp. repeat case_match; by simplify_eq. }
  simpl. rewrite Hthr.
  destruct (jsLe _ _); rewrite IH, Hthr; done.
Qed.

Lemma chain_result_starts (joins : list bool) (first : Photo.t)
    (rest : list Photo.t) :
  length joins = length rest →
  let r := chainLoop joins rest [] [first] in
  startsFrom 0 (r.1 ++ [r.2]) = 0%nat :: breaksFrom 1 joins.
Proof.
  intros Hlen r. subst r. by rewrite chainLoop_starts.
Qed.

Lemma joinsOf_length (threshold : R) (f : option (list byte))
    (fps : list (option (list byte))) :
  length (joinsOf threshold (f :: fps)) = length fps.
Proof. unfold joinsOf. rewrite length_zip_with. cbn [tail length]. lia. Qed.

Lemma joinsOf_lookup (threshold : R) (fps : list (option (list byte)))
    (j : nat) (b : bool) :
  joinsOf threshold fps !! j = Some b ↔
  ∃ f g, fps !! j = Some f ∧ fps !! S j = Some g ∧
         b = jsLe (fingerprintDistance f g) threshold.
Proof.
  unfold joinsOf. rewrite lookup_zip_with_Some, lookup_tail.
  split.
  - intros (f & g & -> & Hf & Hg). by exists f, g.
  - intros (f & g & Hf & Hg & ->). by exists f, g.
Qed.

Lemma fingerprintsSeen_length (extract : Photo.t → option (list byte))
    (photos : list Photo.t) (st : State) :
  length (fingerprintsSeen extract photos st) = length photos.
Proof.
  revert st. induction photos as [|photo rest IH]; intros st; [done|].
  simpl. destruct (createFingerprint extract photo st) as [fp st'].
  simpl. by rewrite IH.
Qed.

Lemma createFingerprint_result (extract : Photo.t → option (list byte))
    (photo : Photo.t) (st : State) :
  let r := createFingerprint extract photo st in
  r.1 = fingerprintOf extract st photo ∧
  clusterThreshold r.2 = clusterThreshold st ∧
  (∀ k, k ≠ Photo.id photo →
        clusterFingerprints r.2 !! k = clusterFingerprints st !! k).
Proof.
  unfold createFingerprint, fingerprintOf.
  destruct (clusterFingerprints st !! Photo.id photo); [done|].
  destruct (extract photo); [|done]. simpl.
  split; [done|]. split; [done|]. intros k Hk. by rewrite lookup_insert_ne.
Qed.

(** With ids that are all different, every photo gets the fingerprint the
    cache held for it at the start, or else the extracted one. *)
Lemma fingerprintsSeen_fresh (extract : Photo.t → option (list byte))
    (photos : list Photo.t) (st0 st : State) :
  NoDup (Photo.id <$> photos) →
  (∀ p, p ∈ photos →
        clusterFingerprints st !! Photo.id p
        = clusterFingerprints st0 !! Photo.id p) →
  fingerprintsSeen extract photos st = fingerprintOf extract st0 <$> photos.
Proof.
  revert st. induction photos as [|photo rest IH]; intros st Hnd Hsame;
    [done|].
  simpl. apply NoDup_cons in Hnd as [Hnotin Hnd].
  destruct (createFingerprint_result extract photo st) as (Hfp & _ & Hkeep).
  destruct (createFingerprint extract photo st) as [fp st']. simpl in *.
  f_equal.
  - rewrite Hfp. unfold fingerprintOf. rewrite Hsame; [done|by left].
  - apply IH; [done|]. intros p Hp. rewrite Hkeep.
    + apply Hsame. by right.
    + intros Heq. apply Hnotin. rewrite <- Heq.
      by apply list_elem_of_fmap_2.
Qed.

Lemma recluster_facts (st : State) (first : Photo.t) (rest : list Photo.t) :
  allPhotos st = first :: rest →
  Forall (λ c, c ≠ []) (clusters (recluster st)) ∧
  concat (clusters (recluster st)) = allPhotos st ∧
  startsFrom 0 (clusters (recluster st))
  = 0%nat :: breaksFrom 1
      (joinsOf (clusterThreshold st)
         ((λ p, clusterFingerprints st !! Photo.id p) <$> allPhotos st)).
Proof.
  intros Hphotos.
  pose proof (reclusterLoop_partition (clusterFingerprints st)
                (clusterThreshold st) first rest [] [first]) as Hloop.
  destruct Hloop as (H1 & H2 & H3); [constructor|done|].
  rewrite (recluster_clusters st first rest Hphotos H2).
  split; [apply Forall_app; split; [done|by constructor]|].
  split.
  { rewrite concat_app. simpl. by rewrite app_nil_r, H3, Hphotos. }
  rewrite reclusterLoop_chain, Hphotos.
  apply chain_result_starts. rewrite fmap_cons, joinsOf_length.
  by rewrite length_fmap.
Qed.

Lemma buildClusters_facts (extract : Photo.t → option (list byte))
    (st : State) (first : Photo.t) (rest : list Photo.t) :
  allPhotos st = first :: rest →
  let result := clusters (buildClusters extract st) in
  Forall (λ c, c ≠ []) result ∧ concat result = allPhotos st ∧
  startsFrom 0 result
  = 0%nat :: breaksFrom 1
      (joinsOf (clusterThreshold st)
         (fingerprintsSeen extract (allPhotos st) st)).
Proof.
  intros Hphotos. unfold buildClusters. rewrite Hphotos. simpl.
  destruct (createFingerprint_result extract first st) as (_ & Hthr & _).
  destruct (createFingerprint extract first st) as [prevFp st0].
  simpl in Hthr.
  pose proof (buildLoop_partition extract rest [] [first] prevFp st0)
    as Hloop.
  pose proof (buildLoop_chain extract rest [] [first] prevFp st0) as Hchain.
  destruct (buildLoop extract rest [] [first] prevFp st0)
    as [[cl cur] st1].
  destruct Hloop as (H1 & H2 & H3 & _); [constructor|done|]. simpl in *.
  rewrite bool_decide_eq_true_2 by (destruct cur; [done|simpl; lia]).
  simpl.
  split; [apply Forall_app; split; [done|by constructor]|].
  split.
  { rewrite concat_app. simpl. by rewrite app_nil_r. }
  rewrite <- Hthr.
  change cl with (cl, cur).1 at 1. change cur with (cl, cur).2 at 2.
  rewrite Hchain. apply chain_result_starts.
  by rewrite joinsOf_length, fingerprintsSeen_length.
Qed.

Lemma starts_breaks (result : list (list Photo.t)) (joins : list bool)
    (i : nat) :
  startsFrom 0 result = 0%nat :: breaksFrom 1 joins →
  isClusterStart result i ↔
  i = 0%nat ∨ ∃ j, i = S j ∧ joins !! j = Some false.
Proof.
  intros Hstarts. rewrite isClusterStart_startsFrom, Hstarts.
  rewrite elem_of_cons, breaksFrom_elem. done.
Qed.

Lemma jsLe_mono (d : JsNum) (t t' : R) :
  (t <= t')%R → jsLe d t = true → jsLe d t' = true.
Proof.
  intros Hle. destruct d as [r| |]; simpl; try done.
  unfold Rleb. destruct (Rle_dec r t), (Rle_dec r t'); try done. lra.
Qed.

Lemma fewer_breaks (joins joins' : list bool) :
  Forall2 (λ b b', b = true → b' = true) joins joins' →
  (length (filter (λ b, b = false) joins')
   ≤ length (filter (λ b, b = false) joins))%nat.
Proof.
  induction 1 as [|b b' joins joins' Hb _ IH]; [done|].
  destruct b'.
  - rewrite (filter_cons_False _ true) by done.
    destruct b; [by rewrite filter_cons_False|].
    rewrite filter_cons_True by done. simpl. lia.
  - destruct b; [by specialize (Hb eq_refl)|].
    rewrite !filter_cons_True by done. simpl. lia.
Qed.

Lemma joinsOf_mono (t t' : R) (fps : list (option (list byte))) :
  (t <= t')%R →
  Forall2 (λ b b', b = true → b' = true) (joinsOf t fps) (joinsOf t' fps).
Proof.
  intros Hle. apply Forall2_same_length_lookup. split.
  - unfold joinsOf. by rewrite !length_zip_with.
  - intros j b b' Hb Hb'.
    apply joinsOf_lookup in Hb as (f & g & Hf & Hg & ->).
    apply joinsOf_lookup in Hb' as (f' & g' & Hf' & Hg' & ->).
    simplify_eq. by apply jsLe_mono.
Qed.

Lemma clusterStart_next (result : list (list Photo.t)) (k : nat)
    (c : list Photo.t) :
  result !! k = Some c →
  clusterStart result (S k) = (clusterStart result k + length c)%nat.
Proof.
  intros Hk. unfold clusterStart.
  rewrite (take_S_r _ _ _ Hk), concat_app, length_app. simpl.
  by rewrite app_nil_r.
Qed.

Lemma clusterStart_mono (result : list (list Photo.t)) (k k' : nat) :
  (k ≤ k')%nat → (clusterStart result k ≤ clusterStart result k')%nat.
Proof.
  induction 1 as [|m _ IH]; [lia|].
  destruct (result !! m) as [c|] eqn:Hm.
  - rewrite (clusterStart_next _ _ _ Hm). lia.
  - apply lookup_ge_None in Hm. unfold clusterStart in *.
    rewrite (take_ge result m) in IH by done.
    rewrite (take_ge result (S m)) by lia. done.
Qed.

Lemma cluster_inside (result : list (list Photo.t)) (k : nat)
    (c : list Photo.t) :
  result !! k = Some c →
  (clusterStart result k + length c ≤ length (concat result))%nat.
Proof.
  intros Hk. rewrite <- (clusterStart_next _ _ _ Hk).
  unfold clusterStart. rewrite <- (take_drop (S k) result) at 2.
  rewrite concat_app, length_app. lia.
Qed.

(** A position at which a cluster starts and after which the next photo,
    if there is one, starts a cluster too, is a cluster of its own. *)
Lemma singleton_cluster (result : list (list Photo.t)) (i : nat)
    (p : Photo.t) :
  Forall (λ c, c ≠ []) result → concat result !! i = Some p →
  isClusterStart result i →
  (isClusterStart result (S i) ∨ S i = length (concat result)) →
  ∃ k, result !! k = Some [p] ∧ clusterStart result k = i.
Proof.
  intros Hne Hp (k & c & Hk & Hstart) Hnext. exists k. split; [|done].
  assert (Hc : c ≠ []).
  { eapply Forall_forall in Hne; [done|]. by eapply list_elem_of_lookup_2. }
  assert (Hlen : length c = 1%nat).
  { destruct c as [|x [|y c]]; [done|done|exfalso]. simpl in *.
    pose proof (cluster_inside _ _ _ Hk) as Hin.
    pose proof (clusterStart_next _ _ _ Hk) as Hnx. simpl in *.
    destruct Hnext as [(k' & c' & Hk' & Hstart')|Hend]; [|lia].
    destruct (decide (k' ≤ k)%nat) as [Hle|Hgt].
    - pose proof (clusterStart_mono result k' k Hle). lia.
    - pose proof (clusterStart_mono result (S k) k' ltac:(lia)). lia. }
  pose proof (cluster_is_run _ _ _ Hk) as Hrun.
  rewrite Hstart, Hlen in Hrun.
  rewrite Hk. f_equal. rewrite Hrun. destruct (drop i (concat result)) as [|q l] eqn:Hdrop.
  { apply (f_equal length) in Hdrop. rewrite length_drop in Hdrop.
    apply lookup_lt_Some in Hp. simpl in Hdrop. lia. }
  assert (Hq : drop i (concat result) !! 0%nat = Some p).
  { rewrite lookup_drop. by rewrite Nat.add_0_r. }
  rewrite Hdrop in Hq. simpl in Hq. by injection Hq as ->.
Qed.

Lemma recluster_frame (st : State) :
  recluster st = set_clusters (clusters (recluster st)) st.
Proof.
  unfold recluster. destruct (allPhotos st) as [|first rest].
  - by destruct st.
  - by destruct (reclusterLoop _ _ _ _ _ _).
Qed.

Lemma missing_far_l (g : option (list byte)) (t : R) :
  jsLe (fingerprintDistance None g) t = false.
Proof. done. Qed.

Lemma missing_far_r (f : option (list byte)) (t : R) :
  jsLe (fingerprintDistance f None) t = false.
Proof. by destruct f. Qed.

(** A photo without a fingerprint is a cluster of its own, whatever the
    fingerprints [fps] of the other photos are. *)
Lemma missing_is_alone (result : list (list Photo.t))
    (photos : list Photo.t) (fps : list (option (list byte))) (t : R)
    (i : nat) (p : Photo.t) :
  Forall (λ c, c ≠ []) result → concat result = photos →
  startsFrom 0 result = 0%nat :: breaksFrom 1 (joinsOf t fps) →
  length fps = length photos →
  photos !! i = Some p → fps !! i = Some None →
  ∃ k, result !! k = Some [p] ∧ clusterStart result k = i.
Proof.
  intros Hne Hcat Hstarts Hlen Hp Hfp.
  apply singleton_cluster; [done|by rewrite Hcat|..].
  - apply (starts_breaks _ _ _ Hstarts).
    destruct i as [|j]; [by left|right]. exists j. split; [done|].
    destruct (lookup_lt_is_Some_2 fps j) as [f Hf];
      [apply lookup_lt_Some in Hfp; lia|].
    apply joinsOf_lookup. exists f, None.
    by rewrite missing_far_r.
  - rewrite Hcat.
    destruct (decide (S i = length photos)) as [|Hmore]; [by right|left].
    apply (starts_breaks _ _ _ Hstarts). right. exists i. split; [done|].
    destruct (lookup_lt_is_Some_2 fps (S i)) as [g Hg];
      [apply lookup_lt_Some in Hp; lia|].
    apply joinsOf_lookup. by exists None, g.
Qed.

(** X11. [recluster] starts a cluster at the first photo and at exactly
    those photos whose cached fingerprint is not within the threshold of
    the one of the photo before them: a distance that is larger, or a
    fingerprint that is missing. *)
Theorem X11_recluster_boundaries (st : State) (i : nat) :
  allPhotos st ≠ [] →
  let fpOf := λ p, clusterFingerprints st !! Photo.id p in
  isClusterStart (clusters (recluster st)) i ↔
  i = 0%nat ∨
  ∃ j p q, i = S j ∧
    allPhotos st !! j = Some p ∧ allPhotos st !! i = Some q ∧
    jsLe (fingerprintDistance (fpOf p) (fpOf q)) (clusterThreshold st)
    = false.
Proof.
  intros Hne fpOf.
  destruct (allPhotos st) as [|first rest] eqn:Hphotos; [done|].
  destruct (recluster_facts st first rest Hphotos) as (_ & _ & Hstarts).
  rewrite (starts_breaks _ _ _ Hstarts), Hphotos.
  apply or_iff_compat_l. split.
  - intros (j & -> & Hj).
    apply joinsOf_lookup in Hj as (f & g & Hf & Hg & Hfar).
    rewrite list_lookup_fmap in Hf, Hg.
    destruct ((first :: rest) !! j) as [p|] eqn:Hp; [|done].
    destruct ((first :: rest) !! S j) as [q|] eqn:Hq; [|done].
    simpl in Hf, Hg. simplify_eq. by exists j, p, q.
  - intros (j & p & q & -> & Hp & Hq & Hfar). exists j. split; [done|].
    apply joinsOf_lookup. exists (fpOf p), (fpOf q).
    rewrite !list_lookup_fmap, Hp, Hq. done.
Qed.

Lemma X11_recluster_boundaries_witness :
  isClusterStart (clusters (recluster (twoPhotos 0))) 1.
Proof.
  apply (X11_recluster_boundaries (twoPhotos 0) 1); [discriminate|].
  right. exists 0%nat, photoA, photoB.
  split; [reflexivity|]. split; [reflexivity|]. split; [reflexivity|].
  apply (distinct_apart blackFp whiteFp). discriminate.
Defined.

(** X12. [buildClusters], on photos whose ids are all different, starts a
    cluster at the first photo and at exactly those photos whose fingerprint
    (the cached one, or else the one just extracted) is not within the
    threshold of the one of the photo before them. *)
Theorem X12_buildClusters_boundaries (extract : Photo.t → option (list byte))
    (st : State) (i : nat) :
  NoDup (Photo.id <$> allPhotos st) → allPhotos st ≠ [] →
  let fpOf := fingerprintOf extract st in
  isClusterStart (clusters (buildClusters extract st)) i ↔
  i = 0%nat ∨
  ∃ j p q, i = S j ∧
    allPhotos st !! j = Some p ∧ allPhotos st !! i = Some q ∧
    jsLe (fingerprintDistance (fpOf p) (fpOf q)) (clusterThreshold st)
    = false.
Proof.
  intros Hnd Hne fpOf.
  destruct (allPhotos st) as [|first rest] eqn:Hphotos; [done|].
  destruct (buildClusters_facts extract st first rest Hphotos)
    as (_ & _ & Hstarts).
  rewrite (starts_breaks _ _ _ Hstarts), Hphotos.
  rewrite (fingerprintsSeen_fresh extract _ st st) by done.
  apply or_iff_compat_l. split.
  - intros (j & -> & Hj).
    apply joinsOf_lookup in Hj as (f & g & Hf & Hg & Hfar).
    rewrite list_lookup_fmap in Hf, Hg.
    destruct ((first :: rest) !! j) as [p|] eqn:Hp; [|done].
    destruct ((first :: rest) !! S j) as [q|] eqn:Hq; [|done].
    simpl in Hf, Hg. simplify_eq. by exists j, p, q.
  - intros (j & p & q & -> & Hp & Hq & Hfar). exists j. split; [done|].
    apply joinsOf_lookup. exists (fpOf p), (fpOf q).
    rewrite !list_lookup_fmap, Hp, Hq. done.
Qed.

Lemma X12_buildClusters_boundaries_witness :
  isClusterStart
    (clusters (buildClusters (λ _, None)
                 (freshRanking [photoA; photoB; photoC]))) 1.
Proof.
  apply (X12_buildClusters_boundaries (λ _, None)
           (freshRanking [photoA; photoB; photoC]) 1).
  - apply (bool_decide_unpack _). vm_compute. reflexivity.
  - discriminate.
  - right. exists 0%nat, photoA, photoB.
    split; [reflexivity|]. split; [reflexivity|]. split; reflexivity.
Defined.

(** X13. A photo for which no fingerprint can be had is always shown as a
    cluster of its own.  In [buildClusters] that is a photo that is not
    cached and whose extraction fails (ids all different); in [recluster] it
    is a photo that is not cached. *)
Theorem X13_unreadable_photo_alone (extract : Photo.t → option (list byte))
    (st : State) (i : nat) (p : Photo.t) :
  allPhotos st !! i = Some p →
  clusterFingerprints st !! Photo.id p = None →
  (NoDup (Photo.id <$> allPhotos st) → extract p = None →
   ∃ k, clusters (buildClusters extract st) !! k = Some [p] ∧
        clusterStart (clusters (buildClusters extract st)) k = i) ∧
  (∃ k, clusters (recluster st) !! k = Some [p] ∧
        clusterStart (clusters (recluster st)) k = i).
Proof.
  intros Hp Hcache.
  destruct (allPhotos st) as [|first rest] eqn:Hphotos; [done|].
  split.
  - intros Hnd Hfail.
    destruct (buildClusters_facts extract st first rest Hphotos)
      as (Hne & Hcat & Hstarts).
    rewrite Hphotos in Hstarts, Hcat.
    rewrite (fingerprintsSeen_fresh extract _ st st) in Hstarts by done.
    eapply missing_is_alone; [done|exact Hcat|exact Hstarts|..|done|].
    + by rewrite length_fmap.
    + rewrite list_lookup_fmap, Hp. simpl. unfold fingerprintOf.
      by rewrite Hcache, Hfail.
  - destruct (recluster_facts st first rest Hphotos)
      as (Hne & Hcat & Hstarts).
    rewrite Hphotos in Hstarts, Hcat.
    eapply missing_is_alone; [done|exact Hcat|exact Hstarts|..|done|].
    + by rewrite length_fmap.
    + rewrite list_lookup_fmap, Hp. simpl. by rewrite Hcache.
Qed.

Lemma X13_unreadable_photo_alone_witness :
  ∃ k, clusters (recluster (freshRanking [photoA; photoB; photoC])) !! k
       = Some [photoB] ∧
       clusterStart
         (clusters (recluster (freshRanking [photoA; photoB; photoC]))) k
       = 1%nat.
Proof.
  apply (X13_unreadable_photo_alone (λ _, None)
           (freshRanking [photoA; photoB; photoC]) 1 photoB);
    reflexivity.
Defined.

(** X14. Moving the slider to a larger threshold only merges clusters: every
    photo that starts a cluster at the larger threshold starts one at the
    smaller threshold too, and there are no more clusters than before. *)
Theorem X14_threshold_coarsens (st : State) (v v' : Z) :
  v ≤ v' →
  let fine := clusters (thresholdChange (thresholdInput v st)) in
  let coarse := clusters (thresholdChange (thresholdInput v' st)) in
  (∀ i, isClusterStart coarse i → isClusterStart fine i) ∧
  (length coarse ≤ length fine)%nat.
Proof.
  intros Hle fine coarse. subst fine coarse.
  unfold thresholdChange, thresholdInput. simpl.
  case_bool_decide as Hsize; [|done].
  destruct (allPhotos st) as [|first rest] eqn:Hphotos.
  { unfold recluster. simpl. rewrite Hphotos. done. }
  destruct (recluster_facts (set_clusterThreshold (IZR v) st) first rest
              Hphotos) as (_ & _ & Hfine).
  destruct (recluster_facts (set_clusterThreshold (IZR v') st) first rest
              Hphotos) as (_ & _ & Hcoarse).
  simpl in Hfine, Hcoarse.
  set (fps := (λ p, clusterFingerprints st !! Photo.id p) <$> allPhotos st)
    in *.
  pose proof (joinsOf_mono (IZR v) (IZR v') fps (IZR_le _ _ Hle)) as Hmono.
  split.
  - intros i. rewrite (starts_breaks _ _ _ Hfine).
    rewrite (starts_breaks _ _ _ Hcoarse).
    intros [->|(j & -> & Hj)]; [by left|right]. exists j. split; [done|].
    destruct (Forall2_lookup_r _ _ _ _ _ Hmono Hj) as (b & Hb & Himp).
    rewrite Hb. f_equal. destruct b; [by specialize (Himp eq_refl)|done].
  - rewrite <- (startsFrom_length 0 (clusters (recluster
                  (set_clusterThreshold (IZR v') st)))).
    rewrite <- (startsFrom_length 0 (clusters (recluster
                  (set_clusterThreshold (IZR v) st)))).
    rewrite Hfine, Hcoarse. simpl. rewrite !breaksFrom_length.
    apply le_n_S. by apply fewer_breaks.
Qed.

Lemma X14_threshold_coarsens_witness :
  (length (clusters (thresholdChange (thresholdInput 256 (twoPhotos 15))))
   ≤ length (clusters (thresholdChange (thresholdInput 0 (twoPhotos 15)))))
  %nat.
Proof.
  apply (X14_threshold_coarsens (twoPhotos 15) 0 256). lia.
Defined.

(** X15. When every photo is cached or can be extracted, a second run of
    [buildClusters] changes nothing, whatever the extraction would give
    then: every fingerprint is read from the cache and the same clusters
    come out. *)
Theorem X15_second_run_changes_nothing
    (extract extract' : Photo.t → option (list byte)) (st : State) :
  Forall (available extract st) (allPhotos st) →
  buildClusters extract' (buildClusters extract st)
  = buildClusters extract st.
Proof.
  intros Hall.
  destruct (buildClusters_as_recluster extract st Hall)
    as (Hcl & Hcached & _ & Hphotos).
  rewrite <- Hphotos in Hcached.
  rewrite (buildClusters_cached extract' _ Hcached).
  rewrite recluster_frame, <- Hcl.
  by destruct (buildClusters extract st).
Qed.

Lemma X15_second_run_changes_nothing_witness :
  buildClusters (λ _, None) (buildClusters (λ _, None) (twoPhotos 15))
  = buildClusters (λ _, None) (twoPhotos 15).
Proof.
  apply (X15_second_run_changes_nothing (λ _, None) (λ _, None)
           (twoPhotos 15)).
  apply Forall_cons. split; [left; by eexists|].
  apply Forall_cons. split; [left; by eexists|]. by apply Forall_nil.
Defined.

(** X16. The distance is 0 for two equal fingerprints that are not empty,
    and for no other arguments: two photos are at distance 0 only when
    their fingerprints agree byte by byte. *)
Theorem X16_distance_zero (fp1 fp2 : option (list byte)) :
  fingerprintDistance fp1 fp2 = Num 0 ↔
  ∃ f, f ≠ [] ∧ fp1 = Some f ∧ fp2 = Some f.
Proof.
  split.
  - intros Hzero. destruct fp1 as [f1|], fp2 as [f2|]; try done.
    destruct (List.list_eq_dec Byte.byte_eq_dec f1 f2) as [<-|Hne].
    + exists f1. split; [|done]. intros ->. done.
    + pose proof (distinct_apart f1 f2 Hne) as Hfar.
      rewrite Hzero in Hfar. simpl in Hfar. unfold Rleb in Hfar.
      destruct (Rle_dec 0 0); [done|lra].
  - intros (f & Hne & -> & ->).
    rewrite fingerprintDistance_present by done.
    rewrite sumSquaredDiffs_self. f_equal.
    unfold Rdiv. rewrite Rmult_0_l. apply sqrt_0.
Qed.
End Boundaries.
(** ** Shuffling *)

Section Shuffle.
Context {A : Type}.
Implicit Types arr l target : list A.

Lemma randomIndex_range (r : Random) (i : nat) : (randomIndex r i ≤ i)%nat.
Proof.
  unfold randomIndex. destruct r as [v [Hlo Hhi]]. simpl.
  pose proof (pos_INR (i + 1)) as Hpos.
  destruct (Zfloor_bound (v * INR (i + 1))) as [Hfl _].
  assert (Hlt : (IZR (Zfloor (v * INR (i + 1))) < IZR (Z.of_nat (i + 1)))%R).
  { rewrite <- INR_IZR_INZ.
    assert (0 < INR (i + 1))%R by (apply lt_0_INR; lia). nra. }
  apply lt_IZR in Hlt. lia.
Qed.

Lemma swap_perm (i j : nat) arr : swap i j arr ≡ₚ arr.
Proof.
  unfold swap. destruct (arr !! i) as [x|] eqn:Hi; [|done].
  destruct (arr !! j) as [y|] eqn:Hj; [|done].
  by apply Permutation_insert_swap.
Qed.

Lemma swap_length (i j : nat) arr : length (swap i j arr) = length arr.
Proof. apply Permutation_length, swap_perm. Qed.

Lemma shuffleLoop_perm (rnd : nat → Random) (calls i : nat) arr :
  shuffleLoop rnd calls i arr ≡ₚ arr.
Proof.
  revert calls arr. induction i as [|i IH]; intros calls arr; [done|].
  simpl. rewrite IH. apply swap_perm.
Qed.

(** The loop from [i] down leaves the positions after [i] alone. *)
Lemma swap_app (i j : nat) l (suffix : list A) :
  (i < length l)%nat → (j < length l)%nat →
  swap i j (l ++ suffix) = swap i j l ++ suffix.
Proof.
  intros Hi Hj. unfold swap. rewrite !lookup_app_l by done.
  destruct (l !! i) as [x|]; [|done]. destruct (l !! j) as [y|]; [|done].
  rewrite insert_app_l by done.
  rewrite insert_app_l by (by rewrite length_insert). done.
Qed.

Lemma shuffleLoop_app (rnd : nat → Random) (calls i : nat) l
    (suffix : list A) :
  (i < length l)%nat →
  shuffleLoop rnd calls i (l ++ suffix)
  = shuffleLoop rnd calls i l ++ suffix.
Proof.
  revert calls l. induction i as [|i IH]; intros calls l Hi; [done|].
  simpl. pose proof (randomIndex_range (rnd calls) (S i)).
  rewrite swap_app by lia. apply IH. rewrite swap_length. lia.
Qed.

Lemma shuffleLoop_shift (rnd : nat → Random) (calls i : nat) arr :
  shuffleLoop rnd (S calls) i arr = shuffleLoop (rnd ∘ S) calls i arr.
Proof.
  revert calls arr. induction i as [|i IH]; intros calls arr; [done|].
  simpl. apply IH.
Qed.

(** A value of [Math.random] that makes the loop pick position [j]. *)
Lemma randomIndex_choose (i j : nat) :
  (j ≤ i)%nat → ∃ r, randomIndex r i = j.
Proof.
  intros Hle.
  assert (Hpos : (0 < INR (i + 1))%R) by (apply lt_0_INR; lia).
  assert (Hrange : (0 <= INR j / INR (i + 1) < 1)%R).
  { split.
    - apply Rmult_le_pos; [apply pos_INR|]. left.
      by apply Rinv_0_lt_compat.
    - apply (Rmult_lt_reg_r (INR (i + 1))); [done|].
      unfold Rdiv. rewrite Rmult_assoc, Rinv_l by lra.
      rewrite Rmult_1_r, Rmult_1_l. apply lt_INR. lia. }
  exists (mkRandom _ Hrange). unfold randomIndex. simpl.
  unfold Rdiv. rewrite Rmult_assoc, Rinv_l by lra. rewrite Rmult_1_r.
  rewrite INR_IZR_INZ.
  rewrite (Zfloor_eq (Z.of_nat j)); [lia|]. lra.
Qed.

Lemma last_split (k : nat) arr (x : A) :
  length arr = S k → arr !! k = Some x → arr = take k arr ++ [x].
Proof.
  intros Hlen Hk. rewrite <- (take_drop k arr) at 1. f_equal.
  rewrite (drop_S _ _ _ Hk), drop_ge by lia. done.
Qed.

Lemma swap_lookup_l (i j : nat) arr (y : A) :
  (i < length arr)%nat → arr !! j = Some y → swap i j arr !! i = Some y.
Proof.
  intros Hi Hj. unfold swap.
  destruct (lookup_lt_is_Some_2 arr i Hi) as [x Hx]. rewrite Hx, Hj.
  destruct (decide (i = j)) as [->|Hne].
  - rewrite list_lookup_insert_eq by (by rewrite length_insert).
    congruence.
  - rewrite list_lookup_insert_ne by done.
    by rewrite list_lookup_insert_eq.
Qed.

Lemma shuffleLoop_reaches (n : nat) arr target :
  length arr = S n → target ≡ₚ arr →
  ∃ rnd, shuffleLoop rnd 0 n arr = target.
Proof.
  revert arr target. induction n as [|n IH]; intros arr target Hlen Hperm.
  { exists (λ _, zeroRandom). simpl.
    destruct arr as [|x [|y arr]]; try discriminate.
    symmetry. by apply Permutation_singleton_r. }
  assert (Hlt : length target = S (S n))
    by (by rewrite (Permutation_length Hperm)).
  destruct (lookup_lt_is_Some_2 target (S n)) as [x Hx]; [lia|].
  pose proof (last_split (S n) target x Hlt Hx) as Htarget.
  assert (Hin : x ∈ arr).
  { rewrite <- Hperm. by eapply list_elem_of_lookup_2. }
  apply list_elem_of_lookup in Hin as [j Hj].
  assert (Hjle : (j ≤ S n)%nat) by (apply lookup_lt_Some in Hj; lia).
  destruct (randomIndex_choose (S n) j Hjle) as [r0 Hr0].
  set (arr1 := swap (S n) j arr).
  assert (Hlen1 : length arr1 = S (S n)) by (subst arr1; by rewrite swap_length).
  assert (Hlast : arr1 !! S n = Some x)
    by (subst arr1; apply swap_lookup_l; [lia|done]).
  pose proof (last_split (S n) arr1 x Hlen1 Hlast) as Harr1.
  assert (Hperm1 : take (S n) target ≡ₚ take (S n) arr1).
  { apply (inj (.++ [x])). rewrite <- Htarget, <- Harr1, Hperm.
    subst arr1. symmetry. apply swap_perm. }
  destruct (IH (take (S n) arr1) (take (S n) target)) as [rnd' Hrnd'];
    [rewrite length_take; lia|done|].
  exists (λ k, match k with O => r0 | S k' => rnd' k' end).
  simpl. rewrite Hr0. fold arr1. rewrite shuffleLoop_shift.
  rewrite Harr1, Htarget.
  rewrite shuffleLoop_app by (rewrite length_take; lia).
  f_equal. exact Hrnd'.
Qed.

(** X17. [shuffleArray] returns the elements of its argument in some order,
    none lost and none twice, whatever [Math.random] gives, and every order
    of them is returned for some results of [Math.random]. *)
Theorem X17_shuffleArray_permutes (array : list A) :
  (∀ rnd, shuffleArray rnd array ≡ₚ array) ∧
  (∀ target, target ≡ₚ array → ∃ rnd, shuffleArray rnd array = target).
Proof.
  split.
  - intros rnd. apply shuffleLoop_perm.
  - intros target Hperm. unfold shuffleArray.
    destruct array as [|x array].
    + exists (λ _, zeroRandom). simpl. symmetry.
      by apply Permutation_nil_r.
    + simpl. rewrite Nat.sub_0_r. by apply shuffleLoop_reaches.
Qed.
End Shuffle.
(** ** Fingerprint pixels *)

Section Pixels.

Lemma Math_round_mono (x y : R) : (x <= y)%R → Math_round x ≤ Math_round y.
Proof.
  intros Hle. unfold Math_round.
  destruct (Zfloor_bound (x + / 2)) as [Hx _].
  destruct (Zfloor_bound (y + / 2)) as [_ Hy].
  assert (Hlt : (IZR (Zfloor (x + / 2)) < IZR (Zfloor (y + / 2) + 1))%R)
    by (rewrite plus_IZR; lra).
  apply lt_IZR in Hlt. lia.
Qed.

Lemma byteVal_toUint8 (v : Z) : byteVal (toUint8 v) = v mod 256.
Proof.
  unfold toUint8, byteVal.
  pose proof (Z.mod_pos_bound v 256 ltac:(lia)) as Hm.
  destruct (Byte.of_N (Z.to_N (v mod 256))) as [b|] eqn:Hb.
  - apply Byte.to_of_N in Hb. rewrite Hb. lia.
  - apply Byte.of_N_None_iff in Hb. lia.
Qed.

Lemma luma_grey (v alpha : Z) : luma (v, v, v, alpha) = v.
Proof.
  unfold luma.
  replace (0.299 * IZR v + 0.587 * IZR v + 0.114 * IZR v)%R with (IZR v)
    by lra.
  unfold Math_round. apply Zfloor_eq. lra.
Qed.

Lemma luma_mono (r g b a r' g' b' a' : Z) :
  r ≤ r' → g ≤ g' → b ≤ b' → luma (r, g, b, a) ≤ luma (r', g', b', a').
Proof.
  intros Hr Hg Hb. unfold luma. apply Math_round_mono.
  apply IZR_le in Hr, Hg, Hb. lra.
Qed.

Lemma luma_range (r g b a : Z) :
  0 ≤ r ≤ 255 → 0 ≤ g ≤ 255 → 0 ≤ b ≤ 255 → 0 ≤ luma (r, g, b, a) ≤ 255.
Proof.
  intros Hr Hg Hb. split.
  - rewrite <- (luma_grey 0 a). apply luma_mono; lia.
  - rewrite <- (luma_grey 255 a). apply luma_mono; lia.
Qed.

Lemma grayscale_length (size : nat) (pixels : list Pixel) :
  length (grayscale size pixels) = (size * size)%nat.
Proof.
  unfold grayscale. rewrite length_app, length_take, length_replicate. lia.
Qed.

Lemma grayscale_full (size : nat) (pixels : list Pixel) :
  length pixels = (size * size)%nat →
  grayscale size pixels = (toUint8 ∘ luma) <$> pixels.
Proof.
  intros Hlen. unfold grayscale. rewrite length_fmap, Hlen, Nat.sub_diag.
  simpl. rewrite app_nil_r. apply take_ge. rewrite length_fmap. lia.
Qed.

Lemma grayscale_grey (size : nat) (v alpha : Z) :
  grayscale size (greyCanvas size v alpha)
  = replicate (size * size) (toUint8 v).
Proof.
  unfold greyCanvas.
  rewrite grayscale_full by apply length_replicate.
  rewrite fmap_replicate. f_equal. unfold compose. f_equal.
  apply luma_grey.
Qed.

Lemma sumSquaredDiffs_replicate (n : nat) (x y : byte) :
  sumSquaredDiffs (replicate n x) (replicate n y)
  = Z.of_nat n * ((byteVal x - byteVal y) * (byteVal x - byteVal y)).
Proof.
  induction n as [|n IH]; [reflexivity|].
  simpl replicate. rewrite sumSquaredDiffs_cons, IH. lia.
Qed.

(** X18. The byte the fingerprint holds for a pixel with channels of 0..255
    is its rounded luma, which is in 0..255 and therefore stored in the
    [Uint8Array] as it is; a grey pixel gives its grey value, a pixel that is
    at least as bright in every channel gives at least the same byte, and the
    fingerprint always holds [size * size] bytes. *)
Theorem X18_luma_byte (r g b a : Z) :
  0 ≤ r ≤ 255 → 0 ≤ g ≤ 255 → 0 ≤ b ≤ 255 →
  0 ≤ luma (r, g, b, a) ≤ 255 ∧
  byteVal (toUint8 (luma (r, g, b, a))) = luma (r, g, b, a) ∧
  (r = g → g = b → luma (r, g, b, a) = r) ∧
  (∀ r' g' b' a', r ≤ r' → g ≤ g' → b ≤ b' →
     luma (r, g, b, a) ≤ luma (r', g', b', a')) ∧
  (∀ size pixels, length (grayscale size pixels) = (size * size)%nat).
Proof.
  intros Hr Hg Hb.
  pose proof (luma_range r g b a Hr Hg Hb) as Hrange.
  split; [done|]. split.
  { rewrite byteVal_toUint8. apply Z.mod_small. lia. }
  split.
  { intros <- <-. apply luma_grey. }
  split.
  { intros r' g' b' a'. apply luma_mono. }
  apply grayscale_length.
Qed.

Lemma X18_luma_byte_witness : 0 ≤ luma (255, 0, 0, 255) ≤ 255.
Proof.
  destruct (X18_luma_byte 255 0 0 255) as [H _]; [lia|lia|lia|exact H].
Defined.

(** X19. Two images that the canvas shows in one grey each, of values [v]
    and [w], are at the distance [|v - w|] of each other. *)
Theorem X19_grey_distance (size : nat) (v w alpha alpha' : Z) :
  (0 < size)%nat → 0 ≤ v ≤ 255 → 0 ≤ w ≤ 255 →
  fingerprintDistance (Some (grayscale size (greyCanvas size v alpha)))
    (Some (grayscale size (greyCanvas size w alpha')))
  = Num (IZR (Z.abs (v - w))).
Proof.
  intros Hsize Hv Hw. rewrite !grayscale_grey.
  assert (Hn : (0 < size * size)%nat) by nia.
  rewrite fingerprintDistance_present;
    [|by rewrite !length_replicate
     |by destruct (size * size)%nat; [lia|]].
  rewrite sumSquaredDiffs_replicate, length_replicate.
  rewrite !byteVal_toUint8, !Z.mod_small by lia.
  f_equal. rewrite mult_IZR, <- INR_IZR_INZ.
  assert (Hpos : (0 < INR (size * size))%R) by (by apply lt_0_INR).
  replace (INR (size * size) * IZR ((v - w) * (v - w)) / INR (size * size))%R
    with (IZR ((v - w) * (v - w))) by (field; lra).
  rewrite mult_IZR, abs_IZR. apply sqrt_Rsqr_abs.
Qed.

Lemma X19_grey_distance_witness :
  fingerprintDistance (Some (grayscale 8 (greyCanvas 8 0 255)))
    (Some (grayscale 8 (greyCanvas 8 255 255)))
  = Num (IZR (Z.abs (0 - 255))).
Proof.
  apply (X19_grey_distance 8 0 255 255 255); lia.
Defined.


End Pixels.
(** ** From the selection to the ranking and back *)

Section Phases.

Ltac frame_of_show :=
  match goal with
  | |- context [showNextComparison ?o ?s] =>
      destruct (showNextComparison_frame o s) as (-> & -> & ->)
  end.

Lemma getNextPair_short (o : Oracle) (st : State) :
  (length (candidates st) < 2)%nat → getNextPair o st = None.
Proof.
  intros Hlen. unfold getNextPair. rewrite length_entries.
  by rewrite bool_decide_eq_true_2.
Qed.

Lemma App_showNextComparison_phase (o : Oracle) (s : App.t) :
  App.currentPhase (App.showNextComparison o s)
  = if bool_decide (length (candidates (App.core s)) < 2)%nat
    then PhaseResults else App.currentPhase s.
Proof.
  unfold App.showNextComparison. simpl. case_bool_decide as Hlen.
  - by rewrite getNextPair_short.
  - destruct (getNextPair o (App.core s)) eqn:Hp; [done|].
    apply getNextPair_None_short in Hp. lia.
Qed.

Lemma newCandidate_ids (photos : list Photo.t) :
  Photo.id <$> (newCandidate <$> photos) = Photo.id <$> photos.
Proof. rewrite <- list_fmap_compose. done. Qed.

Lemma defaultRated_new (photos : list Photo.t) :
  Forall defaultRated (newCandidate <$> photos).
Proof. apply Forall_fmap, Forall_forall. intros p _. done. Qed.

Lemma find_by_id (photos : list Photo.t) (i : string) :
  match list_find (λ p, Photo.id p = i) photos with
  | Some (_, photo) => Photo.id photo = i ∧ photo ∈ photos
  | None => i ∉ Photo.id <$> photos
  end.
Proof.
  destruct (list_find _ photos) as [[k photo]|] eqn:Hfind.
  - apply list_find_Some in Hfind as (Hk & Hid & _).
    split; [done|]. by eapply list_elem_of_lookup_2.
  - apply list_find_None in Hfind. intros Hin.
    apply list_elem_of_fmap in Hin as (p & -> & Hp).
    by eapply Forall_forall in Hfind.
Qed.

(** The loop of [returnToRankingWithNewCandidates]. *)
Lemma return_loop (existing : list string) (photos : list Photo.t)
    (ids : list string) (cands : list Photo.t) :
  ∃ added,
    foldl (λ cands i,
             if bool_decide (i ∈ existing) then cands
             else match list_find (λ p, Photo.id p = i) photos with
                  | Some (_, photo) => cands ++ [newCandidate photo]
                  | None => cands
                  end) cands ids
    = cands ++ added ∧
    Forall defaultRated added ∧
    (∀ i, i ∈ Photo.id <$> added ↔
          i ∈ ids ∧ (i ∉ existing) ∧ i ∈ Photo.id <$> photos) ∧
    sublist (Photo.id <$> added) ids.
Proof.
  revert cands. induction ids as [|i ids IH]; intros cands.
  { exists []. rewrite app_nil_r. split; [done|]. split; [done|].
    split; [|done]. intros i. split; [by intros H; inv H|].
    intros [H _]. by inv H. }
  simpl. pose proof (find_by_id photos i) as Hfind.
  case_bool_decide as Hex.
  - destruct (IH cands) as (added & -> & Hdef & Hiff & Hsub).
    exists added. split; [done|]. split; [done|]. split.
    + intros k. rewrite Hiff, elem_of_cons.
      split; [tauto|]. intros ([->|?] & ? & ?); [done|tauto].
    + by apply sublist_cons.
  - destruct (list_find _ photos) as [[k photo]|].
    + destruct Hfind as [Hid Hin].
      destruct (IH (cands ++ [newCandidate photo]))
        as (added & -> & Hdef & Hiff & Hsub).
      exists (newCandidate photo :: added).
      split; [by rewrite <- app_assoc|].
      split; [by constructor|]. split.
      * intros k'. rewrite fmap_cons, !elem_of_cons, Hiff. simpl.
        rewrite Hid. split.
        -- intros [->|?]; [|tauto].
           split; [by left|]. split; [done|].
           rewrite <- Hid. by apply list_elem_of_fmap_2.
        -- tauto.
      * rewrite fmap_cons. simpl. rewrite Hid. by apply sublist_skip.
    + destruct (IH cands) as (added & -> & Hdef & Hiff & Hsub).
      exists added. split; [done|]. split; [done|]. split.
      * intros k. rewrite Hiff, elem_of_cons.
        split; [tauto|]. intros ([->|?] & ? & ?); [done|tauto].
      * by apply sublist_cons.
Qed.

(** The loop of [confirmImportForRanking]. *)
Lemma import_loop (existing : list string) (matches : Photo.t → bool)
    (photos cands : list Photo.t) (ids : list string) :
  let r :=
    foldl (λ '(cands, ids) photo,
             if matches photo
             then if bool_decide (Photo.id photo ∉ existing)
                  then (cands ++ [newCandidate photo],
                        setAdd (Photo.id photo) ids)
                  else (cands, ids)
             else (cands, ids)) (cands, ids) photos in
  let new := filter (λ p, matches p = true ∧ Photo.id p ∉ existing) photos in
  r.1 = cands ++ (newCandidate <$> new) ∧
  (∀ i, i ∈ r.2 ↔ i ∈ ids ∨ i ∈ Photo.id <$> new) ∧
  (NoDup ids → NoDup r.2).
Proof.
  revert cands ids. induction photos as [|photo photos IH];
    intros cands ids; simpl.
  { rewrite app_nil_r. split; [done|]. split; [|done].
    intros i. split; [by left|]. intros [H|H]; [done|by inv H]. }
  destruct (matches photo) eqn:Hm.
  - case_bool_decide as Hex.
    + rewrite filter_cons_True by done.
      destruct (IH (cands ++ [newCandidate photo])
                  (setAdd (Photo.id photo) ids)) as (-> & Hiff & Hnd).
      split; [by rewrite <- app_assoc|]. split.
      * intros i. rewrite Hiff, fmap_cons, elem_of_cons. unfold setAdd.
        case_bool_decide as Hin.
        -- split; [tauto|]. intros [?|[->|?]]; auto.
        -- rewrite elem_of_app, list_elem_of_singleton. tauto.
      * intros Hids. apply Hnd. unfold setAdd.
        case_bool_decide as Hin; [done|].
        apply NoDup_app. split; [done|]. split; [|apply NoDup_singleton].
        intros i Hi Hi'. apply list_elem_of_singleton in Hi' as ->. done.
    + rewrite filter_cons_False by (intros [_ H]; by apply H). apply IH.
  - rewrite filter_cons_False by (intros [H _]; congruence). apply IH.
Qed.

Lemma setAdd_loop (cands : list Photo.t) (ids : list string) :
  let r := foldl (λ ids candidate, setAdd (Photo.id candidate) ids)
             ids cands in
  (∀ i, i ∈ r ↔ i ∈ ids ∨ i ∈ Photo.id <$> cands) ∧
  (NoDup ids → NoDup r) ∧ ids `prefix_of` r.
Proof.
  revert ids. induction cands as [|c cands IH]; intros ids; simpl.
  { split; [|done]. intros i. split; [by left|].
    intros [H|H]; [done|by inv H]. }
  destruct (IH (setAdd (Photo.id c) ids)) as (Hiff & Hnd & Hpre).
  unfold setAdd in *. case_bool_decide as Hin.
  - split; [|done]. intros i. rewrite Hiff, elem_of_cons.
    split; [tauto|]. intros [?|[->|?]]; auto.
  - split; [|split].
    + intros i. rewrite Hiff, elem_of_app, list_elem_of_singleton,
        elem_of_cons. tauto.
    + intros Hids. apply Hnd. apply NoDup_app. split; [done|].
      split; [|apply NoDup_singleton].
      intros i Hi Hi'. apply list_elem_of_singleton in Hi' as ->. done.
    + etrans; [|exact Hpre]. by apply prefix_app_r.
Qed.

Lemma start_fresh (o : Oracle) (s : App.t) :
  candidates (App.core s) = [] ∨ App.currentPhase s ≠ PhaseSelection →
  App.startRankingPhase o s
  = App.showNextComparison o
      (App.mk
         (set_previousTopNSets []
            (set_comparisonsCompleted 0
               (set_comparisonHistory []
                  (set_candidates
                     (newCandidate
                        <$> filter (λ p, Photo.id p ∈ App.selectedIds s)
                              (allPhotos (App.core s)))
                     (App.core s)))))
         (App.selectedIds s) PhaseRanking).
Proof.
  intros Hfresh. unfold App.startRankingPhase.
  destruct Hfresh as [Hnone|Hphase].
  - rewrite Hnone. simpl. done.
  - rewrite (bool_decide_eq_false_2 (App.currentPhase s = _)) by done.
    by rewrite andb_false_r.
Qed.

Lemma start_more (o : Oracle) (s : App.t) :
  candidates (App.core s) ≠ [] → App.currentPhase s = PhaseSelection →
  App.startRankingPhase o s = App.returnToRankingWithNewCandidates o s.
Proof.
  intros Hsome Hphase. unfold App.startRankingPhase.
  rewrite Hphase.
  rewrite bool_decide_eq_true_2;
    [done|destruct (candidates (App.core s)); [done|simpl; lia]].
Qed.

Lemma return_candidates (o : Oracle) (s : App.t) :
  ∃ added,
    candidates (App.core (App.returnToRankingWithNewCandidates o s))
    = candidates (App.core s) ++ added ∧
    Forall defaultRated added ∧
    (∀ i, i ∈ Photo.id <$> added ↔
          i ∈ App.selectedIds s ∧
          (i ∉ Photo.id <$> candidates (App.core s)) ∧
          i ∈ Photo.id <$> allPhotos (App.core s)) ∧
    sublist (Photo.id <$> added) (App.selectedIds s) ∧
    comparisonHistory (App.core (App.returnToRankingWithNewCandidates o s))
    = comparisonHistory (App.core s) ∧
    comparisonsCompleted (App.core (App.returnToRankingWithNewCandidates o s))
    = comparisonsCompleted (App.core s) ∧
    App.selectedIds (App.returnToRankingWithNewCandidates o s)
    = App.selectedIds s.
Proof.
  unfold App.returnToRankingWithNewCandidates, App.showNextComparison.
  simpl.
  destruct (return_loop (Photo.id <$> candidates (App.core s))
              (allPhotos (App.core s)) (App.selectedIds s)
              (candidates (App.core s)))
    as (added & Hloop & Hdef & Hiff & Hsub).
  exists added. frame_of_show. simpl. rewrite Hloop. done.
Qed.

(** A photo with the starting rating is determined by its id. *)
Lemma defaultRated_eq (c : Photo.t) (p : Photo.t) :
  defaultRated c → Photo.id c = Photo.id p → c = newCandidate p.
Proof.
  intros [Helo Hcomp] Hid. destruct c as [i e n]. simpl in *.
  unfold newCandidate. by rewrite Helo, Hcomp, Hid.
Qed.

(** X21. Starting the ranking without candidates from before makes the
    selected photos the candidates, in the order of [allPhotos], each with
    rating 1500 and no comparisons, with unique ids when the photos have
    unique ids; the history is empty and the counter 0, and the phase is
    [ranking], or [results] at once when fewer than two photos are
    selected. *)
Theorem X21_fresh_ranking (o : Oracle) (s : App.t) :
  candidates (App.core s) = [] ∨ App.currentPhase s ≠ PhaseSelection →
  let s' := App.startRankingPhase o s in
  let cands := candidates (App.core s') in
  cands = newCandidate
            <$> filter (λ p, Photo.id p ∈ App.selectedIds s)
                  (allPhotos (App.core s)) ∧
  Forall defaultRated cands ∧
  (∀ i, i ∈ Photo.id <$> cands ↔
        i ∈ App.selectedIds s ∧ i ∈ Photo.id <$> allPhotos (App.core s)) ∧
  (NoDup (Photo.id <$> allPhotos (App.core s)) →
   NoDup (Photo.id <$> cands)) ∧
  comparisonHistory (App.core s') = [] ∧
  comparisonsCompleted (App.core s') = 0 ∧
  App.currentPhase s'
  = (if bool_decide (length cands < 2)%nat
     then PhaseResults else PhaseRanking).
Proof.
  intros Hfresh s' cands. subst cands s'.
  rewrite (start_fresh o s Hfresh).
  rewrite App_showNextComparison_phase.
  unfold App.showNextComparison. simpl. frame_of_show. simpl.
  split; [done|]. split; [apply defaultRated_new|]. split.
  { intros i. rewrite newCandidate_ids, list_elem_of_fmap. split.
    - intros (p & -> & Hp). apply list_elem_of_filter in Hp as [Hsel Hp].
      split; [done|]. by apply list_elem_of_fmap_2.
    - intros (Hsel & Hin). apply list_elem_of_fmap in Hin as (p & -> & Hp).
      exists p. split; [done|]. by apply list_elem_of_filter. }
  split; [|done].
  intros Hnd. rewrite newCandidate_ids.
  apply (sublist_NoDup _ (Photo.id <$> allPhotos (App.core s)));
    first [done|apply fmap_sublist, sublist_filter].
Qed.

Lemma X21_fresh_ranking_witness :
  candidates (App.core (App.startRankingPhase stillOracle selecting))
  = newCandidate
      <$> filter (λ p, Photo.id p ∈ App.selectedIds selecting)
            (allPhotos (App.core selecting)).
Proof.
  destruct (X21_fresh_ranking stillOracle selecting) as [H _];
    [by left|exact H].
Defined.

(** X22. Starting the ranking again after more photos were selected keeps
    every candidate where it is, with its rating and its comparisons, also
    one that was deselected, and appends with the starting rating exactly
    the selected photos that are no candidates yet; the ids of the
    candidates stay unique, and the history and the counter are kept. *)
Theorem X22_more_candidates (o : Oracle) (s : App.t) :
  candidates (App.core s) ≠ [] → App.currentPhase s = PhaseSelection →
  NoDup (App.selectedIds s) →
  NoDup (Photo.id <$> candidates (App.core s)) →
  let s' := App.startRankingPhase o s in
  ∃ added,
    candidates (App.core s') = candidates (App.core s) ++ added ∧
    Forall defaultRated added ∧
    (∀ i, i ∈ Photo.id <$> added ↔
          i ∈ App.selectedIds s ∧
          (i ∉ Photo.id <$> candidates (App.core s)) ∧
          i ∈ Photo.id <$> allPhotos (App.core s)) ∧
    NoDup (Photo.id <$> candidates (App.core s')) ∧
    comparisonHistory (App.core s') = comparisonHistory (App.core s) ∧
    comparisonsCompleted (App.core s') = comparisonsCompleted (App.core s).
Proof.
  intros Hsome Hphase Hsel Hnd s'. subst s'.
  rewrite (start_more o s Hsome Hphase).
  destruct (return_candidates o s)
    as (added & Hc & Hdef & Hiff & Hsub & Hh & Hn & _).
  exists added. rewrite Hc. split; [done|]. split; [done|].
  split; [done|]. split; [|done].
  rewrite fmap_app. apply NoDup_app. split; [done|]. split.
  - intros i Hi Hi'. apply Hiff in Hi' as (_ & Hnot & _). done.
  - apply (sublist_NoDup _ (App.selectedIds s)); done.
Qed.

Lemma X22_more_candidates_witness :
  ∃ added,
    candidates (App.core (App.startRankingPhase stillOracle selectingMore))
    = [photoA_won; photoB_lost] ++ added ∧ Forall defaultRated added.
Proof.
  destruct (X22_more_candidates stillOracle selectingMore)
    as (added & H1 & H2 & _).
  - discriminate.
  - reflexivity.
  - apply (bool_decide_unpack _). vm_compute. reflexivity.
  - apply (bool_decide_unpack _). vm_compute. reflexivity.
  - exists added. split; [exact H1|exact H2].
Defined.

(** X23. An import during the ranking keeps every candidate where it is,
    with its rating, and appends with the starting rating exactly the
    matching photos that are no candidates yet, which it also selects; with
    unique photo ids the ids of the candidates stay unique; the phase, the
    history and the counter are kept. *)
Theorem X23_import_candidates (matches : Photo.t → bool) (s : App.t) :
  NoDup (Photo.id <$> allPhotos (App.core s)) →
  NoDup (Photo.id <$> candidates (App.core s)) →
  NoDup (App.selectedIds s) →
  let s' := App.confirmImportForRanking false matches s in
  let new :=
    filter (λ p, matches p = true ∧
                 Photo.id p ∉ Photo.id <$> candidates (App.core s))
      (allPhotos (App.core s)) in
  candidates (App.core s') = candidates (App.core s) ++ (newCandidate <$> new) ∧
  NoDup (Photo.id <$> candidates (App.core s')) ∧
  NoDup (App.selectedIds s') ∧
  (∀ i, i ∈ App.selectedIds s' ↔
        i ∈ App.selectedIds s ∨ i ∈ Photo.id <$> new) ∧
  App.currentPhase s' = App.currentPhase s ∧
  comparisonHistory (App.core s') = comparisonHistory (App.core s) ∧
  comparisonsCompleted (App.core s') = comparisonsCompleted (App.core s).
Proof.
  intros Hphotos Hnd Hsel s' new. subst s'.
  unfold App.confirmImportForRanking.
  pose proof (import_loop (Photo.id <$> candidates (App.core s)) matches
                (allPhotos (App.core s)) (candidates (App.core s))
                (App.selectedIds s)) as Hloop.
  simpl in Hloop. fold new in Hloop.
  destruct (foldl _ _ _) as [cands ids]. simpl in *.
  destruct Hloop as (-> & Hiff & Hids).
  split; [done|]. split; [|by auto].
  rewrite fmap_app, newCandidate_ids. apply NoDup_app. split; [done|].
  split.
  - intros i Hi Hi'. apply list_elem_of_fmap in Hi' as (p & -> & Hp).
    apply list_elem_of_filter in Hp as [[_ Hnot] _]. done.
  - apply (sublist_NoDup _ (Photo.id <$> allPhotos (App.core s)));
      first [done|apply fmap_sublist, sublist_filter].
Qed.

Lemma X23_import_candidates_witness :
  candidates
    (App.core (App.confirmImportForRanking false (λ _, true) selectingMore))
  = [photoA_won; photoB_lost]
    ++ (newCandidate
          <$> filter (λ p, true = true ∧
                           Photo.id p ∉ Photo.id <$> [photoA_won; photoB_lost])
                [photoA; photoB; photoC]).
Proof.
  destruct (X23_import_candidates (λ _, true) selectingMore) as [H _].
  - apply (bool_decide_unpack _). vm_compute. reflexivity.
  - apply (bool_decide_unpack _). vm_compute. reflexivity.
  - apply (bool_decide_unpack _). vm_compute. reflexivity.
  - exact H.
Defined.

(** X24. Going back to the selection and on to the ranking again without
    selecting anything new leaves the candidates, the history and the
    counter as they were, and every candidate is selected then.  The
    condition, that every selected photo is a candidate, is what a fresh
    start of the ranking establishes. *)
Theorem X24_add_more_round_trip (o : Oracle) (s : App.t) :
  candidates (App.core s) ≠ [] →
  (∀ i, i ∈ App.selectedIds s →
        i ∈ Photo.id <$> allPhotos (App.core s) →
        i ∈ Photo.id <$> candidates (App.core s)) →
  let back := App.startRankingPhase o (App.addMoreCandidates s) in
  candidates (App.core back) = candidates (App.core s) ∧
  comparisonHistory (App.core back) = comparisonHistory (App.core s) ∧
  comparisonsCompleted (App.core back) = comparisonsCompleted (App.core s) ∧
  (∀ c, c ∈ candidates (App.core s) → Photo.id c ∈ App.selectedIds back).
Proof.
  intros Hsome Hinv back. subst back.
  rewrite (start_more o (App.addMoreCandidates s)) by done.
  destruct (return_candidates o (App.addMoreCandidates s))
    as (added & Hc & _ & Hiff & _ & Hh & Hn & Hids).
  destruct (setAdd_loop (candidates (App.core s)) (App.selectedIds s))
    as (Hsel & _ & _).
  simpl in *.
  assert (Hnone : added = []).
  { destruct added as [|c added]; [done|exfalso].
    destruct (Hiff (Photo.id c)) as [Hc' _].
    destruct Hc' as (Hin & Hnot & Hphoto); [rewrite fmap_cons; by left|].
    apply Hsel in Hin as [Hin|Hin]; [|done]. by apply Hnot, Hinv. }
  rewrite Hc, Hnone, app_nil_r, Hh, Hn.
  split; [done|]. split; [done|]. split; [done|].
  intros c Hcin. apply Hsel. right. by apply list_elem_of_fmap_2.
Qed.

Lemma X24_add_more_round_trip_witness :
  candidates
    (App.core (App.startRankingPhase stillOracle
                 (App.addMoreCandidates
                    (App.startRankingPhase stillOracle selecting))))
  = candidates (App.core (App.startRankingPhase stillOracle selecting)).
Proof.
  destruct (X24_add_more_round_trip stillOracle
              (App.startRankingPhase stillOracle selecting)) as [H _].
  - rewrite (start_fresh stillOracle selecting) by (by left).
    unfold App.showNextComparison. simpl.
    rewrite (proj1 (showNextComparison_frame _ _)). simpl. discriminate.
  - intros i Hsel Hphoto.
    rewrite (start_fresh stillOracle selecting) in * by (by left).
    unfold App.showNextComparison in *. simpl in *.
    rewrite (proj1 (showNextComparison_frame _ _)). simpl.
    revert Hsel. rewrite !elem_of_cons, elem_of_nil.
    intros [->|[->|[]]]; [by left|right; by left].
  - exact H.
Defined.

Lemma only_element (l : list string) (x : string) :
  NoDup l → (∀ i, i ∈ l ↔ i = x) → l = [x].
Proof.
  intros Hnd Hiff. destruct l as [|y l].
  { destruct (Hiff x) as [_ H]. specialize (H eq_refl). by inv H. }
  assert (y = x) as -> by (apply Hiff; by left).
  f_equal. destruct l as [|z l]; [done|exfalso].
  apply NoDup_cons in Hnd as [Hnot _]. apply Hnot.
  assert (z = x) as -> by (apply Hiff; right; by left). by left.
Qed.

(** X25. Back in the selection with candidates ranked already, selecting one
    more photo and starting the ranking appends that photo, with the
    starting rating, to the candidates, which stay as they are; deselecting
    a candidate and starting the ranking removes nothing. *)
Theorem X25_select_or_deselect (o : Oracle) (s : App.t) (p : Photo.t) :
  candidates (App.core s) ≠ [] → NoDup (App.selectedIds s) →
  (∀ i, i ∈ App.selectedIds s →
        i ∈ Photo.id <$> allPhotos (App.core s) →
        i ∈ Photo.id <$> candidates (App.core s)) →
  let again := λ s', candidates (App.core (App.startRankingPhase o s')) in
  let toggled := App.toggleSelection (Photo.id p) (App.addMoreCandidates s) in
  (p ∈ allPhotos (App.core s) → Photo.id p ∉ App.selectedIds s →
   Photo.id p ∉ Photo.id <$> candidates (App.core s) →
   again toggled = candidates (App.core s) ++ [newCandidate p]) ∧
  (p ∈ candidates (App.core s) → again toggled = candidates (App.core s)).
Proof.
  intros Hsome Hnd Hinv again toggled. subst again toggled.
  destruct (setAdd_loop (candidates (App.core s)) (App.selectedIds s))
    as (Hsel & Hnd' & _).
  specialize (Hnd' Hnd). simpl in Hsel, Hnd'.
  set (ids := foldl (λ ids candidate, setAdd (Photo.id candidate) ids)
                (App.selectedIds s) (candidates (App.core s))) in *.
  split.
  - intros Hp Hnew Hnot.
    assert (Hfresh : Photo.id p ∉ ids).
    { intros Hin. apply Hsel in Hin as [?|?]; done. }
    assert (Htoggled : App.toggleSelection (Photo.id p)
                         (App.addMoreCandidates s)
                       = App.mk (App.core s) (ids ++ [Photo.id p])
                           PhaseSelection).
    { unfold App.toggleSelection, App.addMoreCandidates. simpl. fold ids.
      rewrite bool_decide_eq_false_2 by done.
      unfold setAdd. by rewrite bool_decide_eq_false_2. }
    rewrite Htoggled, start_more by done.
    destruct (return_candidates o
                (App.mk (App.core s) (ids ++ [Photo.id p]) PhaseSelection))
      as (added & Hc & Hdef & Hiff & Hsub & _).
    cbn [App.core App.selectedIds] in Hc, Hiff, Hsub. rewrite Hc. f_equal.
    assert (Hids : Photo.id <$> added = [Photo.id p]).
    { apply only_element.
      - apply (sublist_NoDup _ (ids ++ [Photo.id p])); [|exact Hsub].
        apply NoDup_app. split; [done|]. split; [|apply NoDup_singleton].
        intros i Hi Hi'. apply list_elem_of_singleton in Hi' as ->. done.
      - intros i. rewrite Hiff, elem_of_app, list_elem_of_singleton. split.
        + intros ([Hin|Heq] & Hno & Hphoto); [exfalso|done].
          apply Hsel in Hin as [Hin|Hin]; [|done]. by apply Hno, Hinv.
        + intros ->. split; [by right|]. split; [done|].
          by apply list_elem_of_fmap_2. }
    destruct added as [|c [|c' added]]; try discriminate.
    injection Hids as Hid. f_equal. apply defaultRated_eq; [|done].
    by apply Forall_cons in Hdef as [? _].
  - intros Hp.
    assert (Hin : Photo.id p ∈ ids).
    { apply Hsel. right. by apply list_elem_of_fmap_2. }
    assert (Htoggled : App.toggleSelection (Photo.id p)
                         (App.addMoreCandidates s)
                       = App.mk (App.core s) (setDelete (Photo.id p) ids)
                           PhaseSelection).
    { unfold App.toggleSelection, App.addMoreCandidates. simpl. fold ids.
      by rewrite bool_decide_eq_true_2. }
    rewrite Htoggled, start_more by done.
    destruct (return_candidates o
                (App.mk (App.core s) (setDelete (Photo.id p) ids)
                   PhaseSelection))
      as (added & Hc & _ & Hiff & _).
    cbn [App.core App.selectedIds] in Hc, Hiff. rewrite Hc.
    assert (Hnone : added = []).
    { destruct added as [|c added]; [done|exfalso].
      destruct (Hiff (Photo.id c)) as [Hc' _].
      destruct Hc' as (Hin' & Hnot & Hphoto); [rewrite fmap_cons; by left|].
      apply list_elem_of_filter in Hin' as [_ Hin'].
      apply Hsel in Hin' as [Hin'|Hin']; [|done]. by apply Hnot, Hinv. }
    by rewrite Hnone, app_nil_r.
Qed.

Lemma X25_select_or_deselect_witness :
  candidates
    (App.core (App.startRankingPhase stillOracle
                 (App.toggleSelection (Photo.id photoA_won)
                    (App.addMoreCandidates
                       (App.mk (App.core selectingMore)
                          ["photo-0"; "photo-1"] PhaseRanking)))))
  = [photoA_won; photoB_lost].
Proof.
  destruct (X25_select_or_deselect stillOracle
              (App.mk (App.core selectingMore) ["photo-0"; "photo-1"]
                 PhaseRanking) photoA_won) as [_ H].
  - discriminate.
  - apply (bool_decide_unpack _). vm_compute. reflexivity.
  - intros i Hsel _. simpl in *.
    revert Hsel. rewrite !elem_of_cons, elem_of_nil.
    intros [->|[->|[]]]; [by left|right; by left].
  - apply H. by left.
Defined.

(** X26. Continuing the ranking from the results leaves the candidates, in
    their sorted order, the history and the counter as they are, and the
    phase is [ranking] again exactly when there are two candidates or
    more. *)
Theorem X26_continue_keeps_ranking (o : Oracle) (s : App.t) :
  let s' := App.continueRanking o s in
  candidates (App.core s') = candidates (App.core s) ∧
  comparisonHistory (App.core s') = comparisonHistory (App.core s) ∧
  comparisonsCompleted (App.core s') = comparisonsCompleted (App.core s) ∧
  App.selectedIds s' = App.selectedIds s ∧
  (App.currentPhase s' = PhaseRanking ↔
   (2 ≤ length (candidates (App.core s)))%nat).
Proof.
  intros s'. subst s'. unfold App.continueRanking.
  rewrite App_showNextComparison_phase.
  unfold App.showNextComparison. simpl. frame_of_show.
  split; [done|]. split; [done|]. split; [done|]. split; [done|].
  case_bool_decide; split; try done; lia.
Qed.

(** X27. While [state.swipeIndex] is a position of [allPhotos], the two
    swipe steps keep it one, undo each other away from the ends, and the
    toggle of the shown photo does not fail. *)
Theorem X27_swipe_in_range (s : App.t) (i : Z) :
  0 ≤ i < Z.of_nat (length (allPhotos (App.core s))) →
  let n := Z.of_nat (length (allPhotos (App.core s))) in
  0 ≤ App.swipePrev i < n ∧ 0 ≤ App.swipeNext s i < n ∧
  (0 < i → App.swipeNext s (App.swipePrev i) = i) ∧
  (i < n - 1 → App.swipePrev (App.swipeNext s i) = i) ∧
  ∃ photo, allPhotos (App.core s) !! Z.to_nat i = Some photo ∧
    App.swipeToggleSelect i s
    = Some (App.toggleSelection (Photo.id photo) s).
Proof.
  intros Hi n. subst n. unfold App.swipePrev, App.swipeNext.
  split; [case_bool_decide; lia|]. split; [case_bool_decide; lia|].
  split.
  { intros Hpos. rewrite (bool_decide_eq_true_2 (0 < i)) by done.
    rewrite bool_decide_eq_true_2 by lia. lia. }
  split.
  { intros Hlast. rewrite (bool_decide_eq_true_2 (i < _)) by done.
    rewrite bool_decide_eq_true_2 by lia. lia. }
  destruct (lookup_lt_is_Some_2 (allPhotos (App.core s)) (Z.to_nat i))
    as [photo Hphoto]; [lia|].
  exists photo. split; [done|]. unfold App.swipeToggleSelect.
  rewrite bool_decide_eq_true_2 by lia. by rewrite Hphoto.
Qed.

Lemma X27_swipe_in_range_witness :
  0 ≤ App.swipeNext selecting 2 < 3.
Proof.
  destruct (X27_swipe_in_range selecting 2) as (_ & H & _).
  - simpl. lia.
  - exact H.
Defined.
End Phases.
